(** * nvim-strudel: engine discovery, connection and message relay

    A shallow embedding of the parts of the repository that the
    specification's testable properties talk about:

    - [EngineState]: the shared state file, [engine-state.ts]
      (src/unnamed/part_002): [writeEngineState], [readEngineState],
      [pollEngineState], [clearEngineState], [watchEngineState];
    - [OscOutput]: the SuperDirt relay, src/server/src/osc-output.ts:
      [hapToOscArgs], [sendHapToSuperDirt];
    - [Utils]: the process supervisor of the editor plugin,
      [lua/strudel/utils.lua] (src/unnamed/part_000): [M.start_server],
      [M.stop_server], [M.is_server_running], and the log file behind
      [M.log], [M.debug] and [M.info];
    - [Lsp]: the language server (src/unnamed/part_003): the engine link
      (lines 2186-2304: [connectToEngine], [tryConnect], the socket
      handlers, and [connection.onShutdown]), the text helpers
      ([getCurrentWord], [findMiniNotationContext], [findFunctionContext]),
      [levenshtein], [findSimilar], [getAllSamples] and the selection made
      by [connection.onSignatureHelp].

    JavaScript values are modelled by [JS.jsval]; numbers are IEEE-754
    doubles (Rocq's primitive floats), objects keep their properties in
    creation order, exceptions are explicit ([JS.completion]).  What the
    sources take from the platform ([JSON.parse], [Date.now], the [osc]
    package, [@strudel/core]) is a variable of the section that uses it. *)

From Stdlib Require Import ZArith Ascii Strings.Byte Floats.PrimFloat DecimalString.
From stdpp Require Import base strings list gmap sorting.


Local Set Warnings "-register-all".

(** ** JavaScript values *)

Module JS.

Inductive jsval : Type :=
  | VUndefined
  | VNull
  | VBool (b : bool)
  | VNum (x : float)
  | VStr (s : string)
  | VArr (items : list jsval)
  | VObj (props : list (string * jsval)).

(** Exceptions: what a [throw] carries is never inspected by the code
    modelled here, only caught. *)
Inductive exn : Type :=
  | TypeError
  | SyntaxError
  | HostError (msg : string).

Inductive completion (A : Type) : Type :=
  | Normal (a : A)
  | Throw (e : exn).
Arguments Normal {A} a.
Arguments Throw {A} e.

Definition bind {A B} (c : completion A) (k : A -> completion B) : completion B :=
  match c with
  | Normal a => k a
  | Throw e => Throw e
  end.

#[export] Instance completion_ret : MRet completion := @Normal.
#[export] Instance completion_bind : MBind completion :=
  fun A B k c => bind c k.

(** [try { body } catch (e) { handler }] *)
Definition try_catch {A} (body : completion A) (handler : exn -> completion A)
  : completion A :=
  match body with
  | Normal a => Normal a
  | Throw e => handler e
  end.

Definition is_nan (x : float) : bool := negb (PrimFloat.eqb x x).

(** ToBoolean *)
Definition truthy (v : jsval) : bool :=
  match v with
  | VUndefined | VNull => false
  | VBool b => b
  | VNum x => negb (PrimFloat.eqb x 0%float || is_nan x)
  | VStr s => negb (String.eqb s "")
  | VArr _ | VObj _ => true
  end.

Inductive jstype : Type :=
  | TUndefined | TObject | TBoolean | TNumber | TString.

(** The [typeof] operator ([typeof null] is ["object"]). *)
Definition typeof (v : jsval) : jstype :=
  match v with
  | VUndefined => TUndefined
  | VNull | VArr _ | VObj _ => TObject
  | VBool _ => TBoolean
  | VNum _ => TNumber
  | VStr _ => TString
  end.

(** [typeof v === 'undefined'] *)
Definition is_undefined (v : jsval) : bool :=
  match typeof v with TUndefined => true | _ => false end.

(** [typeof v === 'number'] *)
Definition is_number (v : jsval) : bool :=
  match v with VNum _ => true | _ => false end.

(** [typeof v === 'string'] *)
Definition is_string (v : jsval) : bool :=
  match v with VStr _ => true | _ => false end.

(** [a || b] *)
Definition js_or (a b : jsval) : jsval := if truthy a then a else b.

(** [v != null] (loose): neither [null] nor [undefined]. *)
Definition not_nullish (v : jsval) : bool :=
  match v with VUndefined | VNull => false | _ => true end.

(** Own property of a plain object, [undefined] when there is none. *)
Fixpoint prop (k : string) (props : list (string * jsval)) : jsval :=
  match props with
  | [] => VUndefined
  | (k', v) :: rest => if String.eqb k k' then v else prop k rest
  end.

Fixpoint has_prop (k : string) (props : list (string * jsval)) : bool :=
  match props with
  | [] => false
  | (k', _) :: rest => String.eqb k k' || has_prop k rest
  end.

(** [o.k = v] on a plain object: an existing property keeps its place, a
    new one is created last. *)
Fixpoint set_prop (k : string) (v : jsval) (props : list (string * jsval))
  : list (string * jsval) :=
  match props with
  | [] => [(k, v)]
  | (k', v') :: rest =>
      if String.eqb k k' then (k', v) :: rest else (k', v') :: set_prop k v rest
  end.

(** [v.k] for the property names the sources read ([pid], [port],
    [timestamp], [note], [bank], ...): none of them is an array index,
    [length] or a member of a built-in prototype, so only a plain object
    can hold one.  Reading a property of [null] or [undefined] throws. *)
Definition get (v : jsval) (k : string) : completion jsval :=
  match v with
  | VUndefined | VNull => Throw TypeError
  | VObj props => Normal (prop k props)
  | _ => Normal VUndefined
  end.

(** *** Property enumeration order

    [Object.entries] and object spread visit array-index keys first, in
    ascending numeric order, then the other string keys in creation
    order. *)

Definition digit_of (c : ascii) : option N :=
  let n := N_of_ascii c in
  if ((48 <=? n) && (n <=? 57))%N then Some (n - 48)%N else None.

Fixpoint parse_dec (acc : N) (s : string) : option N :=
  match s with
  | EmptyString => Some acc
  | String c rest =>
      match digit_of c with
      | Some d => parse_dec (acc * 10 + d)%N rest
      | None => None
      end
  end.

(** A canonical numeric string below [2^32 - 1]. *)
Definition array_index (k : string) : option N :=
  match k with
  | EmptyString => None
  | String c rest =>
      if (Ascii.eqb c "0"%char && negb (String.eqb rest ""))%bool then None
      else match parse_dec 0 k with
           | Some n => if (n <? 4294967295)%N then Some n else None
           | None => None
           end
  end.

Fixpoint insert_by_index (e : N * (string * jsval)) (l : list (N * (string * jsval)))
  : list (N * (string * jsval)) :=
  match l with
  | [] => [e]
  | e' :: rest =>
      if (fst e <=? fst e')%N then e :: l else e' :: insert_by_index e rest
  end.

Definition indexed (props : list (string * jsval)) : list (N * (string * jsval)) :=
  omap (fun kv => match array_index (fst kv) with
                  | Some n => Some (n, kv)
                  | None => None
                  end) props.

Definition ordered (props : list (string * jsval)) : list (string * jsval) :=
  map snd (foldr insert_by_index [] (indexed props))
  ++ filter (fun kv => array_index (fst kv) = None) props.

Definition index_key (i : nat) : string :=
  NilZero.string_of_uint (Nat.to_uint i).

Fixpoint enumerate {A} (i : nat) (l : list A) : list (string * A) :=
  match l with
  | [] => []
  | x :: rest => (index_key i, x) :: enumerate (S i) rest
  end.

Fixpoint chars (s : string) : list jsval :=
  match s with
  | EmptyString => []
  | String c rest => VStr (String c EmptyString) :: chars rest
  end.

(** Own enumerable string-keyed properties, in enumeration order. *)
Definition own_entries (v : jsval) : list (string * jsval) :=
  match v with
  | VObj props => ordered props
  | VArr items => enumerate 0 items
  | VStr s => enumerate 0 (chars s)
  | _ => []
  end.

(** [a === b].  Two objects are equal only when they are the same object;
    the comparisons modelled here are between values that come from
    different [JSON.parse] calls or literals, hence between different
    objects. *)
Definition strict_eq (a b : jsval) : bool :=
  match a, b with
  | VUndefined, VUndefined | VNull, VNull => true
  | VBool x, VBool y => Bool.eqb x y
  | VNum x, VNum y => PrimFloat.eqb x y
  | VStr x, VStr y => String.eqb x y
  | _, _ => false
  end.

(** [{ ...target, ...v }]: every own property of [v] is defined on the
    target, a later definition of a key replacing the earlier value. *)
Definition spread (target : list (string * jsval)) (v : jsval)
  : list (string * jsval) :=
  fold_left (fun acc kv => set_prop (fst kv) (snd kv) acc) (own_entries v) target.

(** *** Facts about properties *)

Lemma prop_set_prop (k k' : string) (v : jsval) (props : list (string * jsval)) :
  prop k (set_prop k' v props) = if String.eqb k k' then v else prop k props.
Proof.
  induction props as [|[k0 v0] props IH]; cbn; [done|].
  destruct (String.eqb_spec k' k0) as [-> | Hne]; cbn.
  - by destruct (String.eqb k k0).
  - rewrite IH. destruct (String.eqb_spec k k0) as [-> | ?]; [|done].
    destruct (String.eqb_spec k0 k') as [-> | ?]; done.
Qed.

Lemma has_prop_set_prop (k k' : string) (v : jsval) (props : list (string * jsval)) :
  has_prop k (set_prop k' v props) = String.eqb k k' || has_prop k props.
Proof.
  induction props as [|[k0 v0] props IH]; cbn; [by rewrite orb_false_r|].
  destruct (String.eqb_spec k' k0) as [-> | Hne]; cbn.
  - by destruct (String.eqb k k0).
  - rewrite IH. destruct (String.eqb k k0), (String.eqb k k'); done.
Qed.

Lemma has_prop_elem_of (k : string) (props : list (string * jsval)) :
  has_prop k props = true ↔ k ∈ map fst props.
Proof.
  induction props as [|[k0 v0] props IH]; cbn.
  - split; [done|]. by intros ?%elem_of_nil.
  - rewrite orb_true_iff, elem_of_cons, IH.
    by rewrite (String.eqb_eq k k0).
Qed.

Lemma prop_no_key (k : string) (props : list (string * jsval)) :
  has_prop k props = false → prop k props = VUndefined.
Proof.
  induction props as [|[k0 v0] props IH]; cbn; [done|].
  destruct (String.eqb k k0); [done|]. exact IH.
Qed.

Lemma prop_app (k : string) (l1 l2 : list (string * jsval)) :
  prop k (l1 ++ l2) = if has_prop k l1 then prop k l1 else prop k l2.
Proof.
  induction l1 as [|[k0 v0] l1 IH]; cbn; [done|].
  by destruct (String.eqb k k0).
Qed.

Lemma has_prop_app (k : string) (l1 l2 : list (string * jsval)) :
  has_prop k (l1 ++ l2) = has_prop k l1 || has_prop k l2.
Proof.
  induction l1 as [|[k0 v0] l1 IH]; cbn; [done|].
  by rewrite IH, orb_assoc.
Qed.

Lemma has_prop_reverse (k : string) (l : list (string * jsval)) :
  has_prop k (reverse l) = has_prop k l.
Proof.
  induction l as [|[k0 v0] l IH]; [done|].
  rewrite reverse_cons, has_prop_app, IH. cbn.
  by rewrite orb_false_r, orb_comm.
Qed.

(** The latest definition of [k] among [entries], as a spread leaves it. *)
Definition latest (k : string) (entries : list (string * jsval)) : jsval :=
  prop k (reverse entries).

Lemma prop_fold_set_prop (k : string) (entries target : list (string * jsval)) :
  prop k (fold_left (fun acc kv => set_prop (fst kv) (snd kv) acc) entries target)
  = if has_prop k entries then latest k entries else prop k target.
Proof.
  unfold latest. revert target.
  induction entries as [|[k0 v0] entries IH]; intros target; [done|].
  cbn [fold_left fst snd].
  rewrite IH, prop_set_prop, reverse_cons, prop_app, has_prop_reverse. cbn.
  destruct (has_prop k entries); [by rewrite orb_true_r|].
  rewrite orb_false_r. by destruct (String.eqb k k0).
Qed.

Lemma prop_spread (k : string) (target : list (string * jsval)) (v : jsval) :
  prop k (spread target v)
  = if has_prop k (own_entries v) then latest k (own_entries v) else prop k target.
Proof. apply prop_fold_set_prop. Qed.

Lemma keys_set_prop (k : string) (v : jsval) (props : list (string * jsval)) :
  map fst (set_prop k v props)
  = if has_prop k props then map fst props else map fst props ++ [k].
Proof.
  induction props as [|[k0 v0] props IH]; cbn; [done|].
  destruct (String.eqb_spec k k0) as [-> | Hne]; cbn; [done|].
  rewrite IH. by destruct (has_prop k props).
Qed.

Lemma NoDup_set_prop (k : string) (v : jsval) (props : list (string * jsval)) :
  NoDup (map fst props) → NoDup (map fst (set_prop k v props)).
Proof.
  intros Hnd. rewrite keys_set_prop.
  destruct (has_prop k props) eqn:E; [done|].
  apply NoDup_app. split; [done|]. split; [|apply NoDup_singleton].
  intros x Hx ->%list_elem_of_singleton.
  apply has_prop_elem_of in Hx. congruence.
Qed.

Lemma NoDup_spread (target : list (string * jsval)) (v : jsval) :
  NoDup (map fst target) → NoDup (map fst (spread target v)).
Proof.
  unfold spread. generalize (own_entries v). intros entries. revert target.
  induction entries as [|[k0 v0] entries IH]; intros target Hnd; cbn; [done|].
  apply IH, NoDup_set_prop, Hnd.
Qed.

(** With one definition per key, the pairs of an object are its
    properties. *)
Lemma elem_of_props (k : string) (v : jsval) (props : list (string * jsval)) :
  NoDup (map fst props) →
  ((k, v) ∈ props ↔ has_prop k props = true ∧ prop k props = v).
Proof.
  induction props as [|[k0 v0] props IH]; cbn; intros Hnd.
  - split; [by intros ?%elem_of_nil | by intros [? _]].
  - apply NoDup_cons in Hnd as [Hk0 Hnd]. rewrite elem_of_cons, (IH Hnd).
    destruct (String.eqb_spec k k0) as [-> | Hne]; cbn.
    + split.
      * intros [[= ->] | [Hin _]]; [done|].
        by apply has_prop_elem_of in Hin.
      * intros [_ ->]. by left.
    + split.
      * intros [[= ? ?] | ?]; done.
      * intros ?. by right.
Qed.

Lemma insert_by_index_Permutation
    (e : N * (string * jsval)) (l : list (N * (string * jsval))) :
  insert_by_index e l ≡ₚ e :: l.
Proof.
  induction l as [|e' l IH]; cbn; [done|].
  destruct (fst e <=? fst e')%N; [done|].
  rewrite IH. apply Permutation_swap.
Qed.

Lemma ordered_Permutation (props : list (string * jsval)) :
  ordered props ≡ₚ props.
Proof.
  unfold ordered.
  assert (Hsorted : foldr insert_by_index [] (indexed props) ≡ₚ indexed props).
  { induction (indexed props) as [|e l IH]; cbn; [done|].
    by rewrite insert_by_index_Permutation, IH. }
  rewrite Hsorted. clear Hsorted.
  induction props as [|[k v] props IH]; [done|].
  unfold indexed in *. rewrite filter_cons. cbn [omap list_omap fst].
  destruct (array_index k) as [n|] eqn:E.
  - rewrite decide_False by done. cbn. by rewrite IH.
  - rewrite decide_True by done.
    rewrite <- Permutation_middle. by rewrite IH.
Qed.

End JS.

(** ** The state file ([engine-state.ts]) *)

Module EngineState.
Import JS.

(** The file system as the state store sees it: directories and regular
    files with their text. *)
Record fs : Type := { dirs : gset string; files : gmap string string }.

Definition existsSync (path : string) (σ : fs) : bool :=
  bool_decide (path ∈ dirs σ) || bool_decide (is_Some (files σ !! path)).

Definition mkdirSync (path : string) (σ : fs) : fs :=
  {| dirs := {[path]} ∪ dirs σ; files := files σ |}.

Definition set_file (path content : string) (σ : fs) : fs :=
  {| dirs := dirs σ; files := <[path := content]> (files σ) |}.

Definition readFileSync (path : string) (σ : fs) : completion string :=
  match files σ !! path with
  | Some content => Normal content
  | None => Throw (HostError "ENOENT")
  end.

(** [fs.renameSync] of a regular file: one atomic replacement of the
    directory entry.  It throws when there is no file at [old] and when
    [new] is a directory. *)
Definition renameSync (old new : string) (σ : fs) : completion fs :=
  match files σ !! old with
  | Some content =>
      if bool_decide (new ∈ dirs σ) then Throw (HostError "EISDIR")
      else
        Normal {| dirs := dirs σ; files := <[new := content]> (delete old (files σ)) |}
  | None => Throw (HostError "ENOENT")
  end.

(** [fs.writeFileSync] is not atomic: the file is opened with truncation
    and its text arrives in one or more writes.  [cuts] lists the lengths
    of the prefixes that are on disk between two writes; the result is the
    sequence of file-system states another process can see, the last one
    holding the whole text. *)
Definition writeFileSync_steps (path content : string) (cuts : list nat) (σ : fs)
  : list fs :=
  map (fun n => set_file path (String.substring 0 n content) σ) (0 :: cuts)
  ++ [set_file path content σ].

(** [fs.writeFileSync(path, content)], [dir] being the directory that
    [path] lies in.  The file is opened for writing first: this throws
    when [dir] is a regular file or is missing, and when [path] is a
    directory; nothing is written then. *)
Definition writeFileSync (dir path content : string) (σ : fs) : completion fs :=
  if negb (bool_decide (dir ∈ dirs σ)) then
    Throw (HostError (if bool_decide (is_Some (files σ !! dir))
                      then "ENOTDIR" else "ENOENT"))
  else if bool_decide (path ∈ dirs σ) then Throw (HostError "EISDIR")
  else Normal (set_file path content σ).

Section StateFile.

(** [getStateDir()] and [getStateFilePath()] depend on the platform and
    the environment only; [JSON.stringify], [JSON.parse] and [Date.now]
    are built in. *)
Variable stateDir : string.
Variable statePath : string.
Variable JSON_stringify : jsval -> string.
Variable JSON_parse : string -> completion jsval.

(** [Omit<EngineState, 'timestamp' | 'version'>] *)
Record Endpoint : Type := { pid : float; port : float }.

Definition tempPath : string := statePath +:+ ".tmp".

Definition fullState (state : Endpoint) (now : float) : jsval :=
  VObj (set_prop "version" (VStr "1.0.0")
         (set_prop "timestamp" (VNum now)
           [("pid", VNum (pid state)); ("port", VNum (port state))])).

Definition ensure_dir (σ : fs) : fs :=
  if existsSync stateDir σ then σ else mkdirSync stateDir σ.

(** [writeEngineState]: the file system when the call ends, and how it
    ends.  Nothing is caught: what [writeFileSync] or [renameSync] throws
    ends the call, with the file system as the calls before it left it.
    The state path and the temporary path lie in the state directory.
    (Failures that this file system does not show, such as missing
    permissions or a full disk, are left out.) *)
Definition writeEngineState (state : Endpoint) (now : float) (σ : fs)
  : fs * completion () :=
  let σ1 := ensure_dir σ in
  match writeFileSync stateDir tempPath (JSON_stringify (fullState state now)) σ1 with
  | Throw e => (σ1, Throw e)
  | Normal σ2 =>
      match renameSync tempPath statePath σ2 with
      | Throw e => (σ2, Throw e)
      | Normal σ3 => (σ3, Normal ())
      end
  end.

(** Every state of the file system that exists while [writeEngineState]
    runs, in order: before the call, after the directory check, during and
    after the write to the temporary path (when the file could be opened),
    after the rename (when it was done). *)
Definition writeEngineState_trace (state : Endpoint) (now : float)
    (cuts : list nat) (σ : fs) : list fs :=
  let σ1 := ensure_dir σ in
  let content := JSON_stringify (fullState state now) in
  [σ; σ1]
  ++ match writeFileSync stateDir tempPath content σ1 with
     | Throw _ => []
     | Normal σ2 =>
         writeFileSync_steps tempPath content cuts σ1
         ++ match renameSync tempPath statePath σ2 with
            | Normal σ3 => [σ3]
            | Throw _ => []
            end
     end.

(** [readEngineState], with [null] as [VNull].  [seen] is the file system
    at the [existsSync] test and [σ] the one at the read: another process
    may have replaced or removed the file in between. *)
Definition readEngineState_at (seen σ : fs) : completion jsval :=
  try_catch
    (if negb (existsSync statePath seen) then Normal VNull
     else
       (content ← readFileSync statePath σ;
        state ← JSON_parse content;
        p ← get state "pid";
        if negb (truthy p) then Normal VNull
        else
          (q ← get state "port";
           if negb (is_number q) then Normal VNull
           else Normal state)))
    (fun _ => Normal VNull).

Definition readEngineState (σ : fs) : completion jsval := readEngineState_at σ σ.

(** *** [pollEngineState] *)

(** One run of the [poll] closure: [state] is what [readEngineState]
    returned, [lastTimestamp] the closure's variable.  The result is the
    new value of the variable and the arguments of the callback
    invocations, in order. *)
Definition poll (state : jsval) (lastTimestamp : jsval)
  : completion (jsval * list jsval) :=
  fresh ← (if truthy state
           then (ts ← get state "timestamp";
                 Normal (negb (strict_eq ts lastTimestamp)))
           else Normal false);
  if (fresh : bool) then
    (ts ← get state "timestamp";
     Normal (ts, [state]))
  else if negb (truthy state) && negb (strict_eq lastTimestamp (VNum 0%float)) then
    Normal (VNum 0%float, [VNull])
  else Normal (lastTimestamp, []).

(** The initial read and the interval ticks: [reads] are the successive
    results of [readEngineState]. *)
Fixpoint poll_all (reads : list jsval) (lastTimestamp : jsval)
  : completion (jsval * list jsval) :=
  match reads with
  | [] => Normal (lastTimestamp, [])
  | state :: rest =>
      r ← poll state lastTimestamp;
      r' ← poll_all rest (fst r);
      Normal (fst r', snd r ++ snd r')
  end.

Definition pollEngineState (reads : list jsval) : completion (jsval * list jsval) :=
  poll_all reads (VNum 0%float).

(** *** What a read returns, as a function of the file's text *)

(** The validation of [readEngineState]: a parsed value is accepted when
    it is an object whose [pid] is truthy and whose [port] is a number. *)
Definition accepted (state : jsval) : bool :=
  match state with
  | VObj props => truthy (prop "pid" props) && is_number (prop "port" props)
  | _ => false
  end.

Definition decode (content : string) : jsval :=
  match JSON_parse content with
  | Normal state => if accepted state then state else VNull
  | Throw _ => VNull
  end.

(** A record as the external interface describes it. *)
Definition valid_record (props : list (string * jsval)) : Prop :=
  (∃ n, prop "pid" props = VNum n ∧ truthy (VNum n) = true)
  ∧ is_number (prop "port" props) = true
  ∧ is_number (prop "timestamp" props) = true
  ∧ is_string (prop "version" props) = true.

(** The field of a notified value that [poll] compares. *)
Definition timestamp_of (state : jsval) : jsval :=
  match get state "timestamp" with
  | Normal ts => ts
  | Throw _ => VUndefined
  end.

(** The timestamp the notifications made so far leave behind: that of the
    last notified record, and [0] when nothing was notified yet or the
    last notification was the absent result. *)
Definition remembered (notified : list jsval) : jsval :=
  match last notified with
  | Some state => if truthy state then timestamp_of state else VNum 0%float
  | None => VNum 0%float
  end.

(** The last record (not the absent result) the callback was invoked for. *)
Definition last_record (notified : list jsval) : option jsval :=
  last (filter (fun v => truthy v = true) notified).

Lemma string_length_append (a b : string) :
  String.length (a +:+ b) = String.length a + String.length b.
Proof. induction a as [|c a IH]; simpl; [done | by rewrite IH]. Qed.

Lemma tempPath_fresh : tempPath ≠ statePath.
Proof.
  unfold tempPath. intros H. apply (f_equal String.length) in H.
  rewrite string_length_append in H. simpl in H. lia.
Qed.

Lemma get_accepted (state : jsval) :
  (p ← get state "pid";
   if negb (truthy p) then Normal VNull
   else (q ← get state "port";
         if negb (is_number q) then Normal VNull else Normal state))
  = match state with
    | VUndefined | VNull => Throw TypeError
    | _ => Normal (if accepted state then state else VNull)
    end.
Proof.
  destruct state as [| |b|x|s|items|props]; try reflexivity.
  cbn. destruct (truthy (prop "pid" props)); cbn; [|reflexivity].
  by destruct (is_number (prop "port" props)).
Qed.

Lemma readEngineState_at_content (seen σ : fs) :
  readEngineState_at seen σ
  = Normal (if existsSync statePath seen
            then match files σ !! statePath with
                 | Some content => decode content
                 | None => VNull
                 end
            else VNull).
Proof.
  unfold readEngineState_at, readFileSync, decode.
  destruct (existsSync statePath seen); cbn; [|reflexivity].
  destruct (files σ !! statePath) as [content|]; cbn; [|reflexivity].
  change (mbind ?f ?c) with (bind c f).
  destruct (JSON_parse content) as [state|e]; cbn [bind try_catch]; [|reflexivity].
  change (bind ?c ?f) with (mbind f c).
  rewrite get_accepted. by destruct state.
Qed.

Lemma existsSync_file (path content : string) (σ : fs) :
  files σ !! path = Some content → existsSync path σ = true.
Proof.
  intros H. unfold existsSync. apply orb_true_iff. right.
  apply bool_decide_eq_true. by rewrite H.
Qed.

Lemma readEngineState_content (σ : fs) :
  readEngineState σ
  = Normal (match files σ !! statePath with
            | Some content => decode content
            | None => VNull
            end).
Proof.
  unfold readEngineState. rewrite readEngineState_at_content.
  destruct (files σ !! statePath) as [content|] eqn:E.
  - by rewrite (existsSync_file _ _ _ E).
  - by destruct (existsSync statePath σ).
Qed.

(** *** Atomicity of the write *)

Lemma files_ensure_dir (σ : fs) : files (ensure_dir σ) = files σ.
Proof. unfold ensure_dir. by destruct (existsSync stateDir σ). Qed.

Lemma lookup_set_file_temp (content : string) (σ : fs) :
  files (set_file tempPath content σ) !! statePath = files σ !! statePath.
Proof. cbn. apply lookup_insert_ne, tempPath_fresh. Qed.

(** [writeFileSync] returns exactly when the directory is one and the
    path is none, and then the path holds the text. *)
Lemma writeFileSync_outcome (dir path content : string) (σ : fs) :
  (dir ∈ dirs σ ∧ (path ∉ dirs σ)
   ∧ writeFileSync dir path content σ = Normal (set_file path content σ))
  ∨ (¬ (dir ∈ dirs σ ∧ (path ∉ dirs σ))
     ∧ ∃ e, writeFileSync dir path content σ = Throw e).
Proof.
  unfold writeFileSync. destruct (decide (dir ∈ dirs σ)) as [Hdir | Hdir].
  - rewrite (bool_decide_eq_true_2 _ Hdir). cbn [negb].
    destruct (decide (path ∈ dirs σ)) as [Hpath | Hpath].
    + rewrite (bool_decide_eq_true_2 _ Hpath). right.
      split; [by intros [_ ?] | by eexists].
    + rewrite (bool_decide_eq_false_2 _ Hpath). by left.
  - rewrite (bool_decide_eq_false_2 _ Hdir). cbn [negb]. right.
    split; [by intros [? _] | by eexists].
Qed.

(** [renameSync] of the temporary file, once it is written: it returns
    exactly when the state path is no directory, and then the state path
    holds the text and the temporary file is gone. *)
Lemma rename_into_place (content : string) (σ : fs) :
  ((statePath ∉ dirs σ)
   ∧ renameSync tempPath statePath (set_file tempPath content σ)
     = Normal {| dirs := dirs σ;
                 files := <[statePath := content]>
                            (delete tempPath (<[tempPath := content]> (files σ))) |})
  ∨ (statePath ∈ dirs σ
     ∧ ∃ e, renameSync tempPath statePath (set_file tempPath content σ) = Throw e).
Proof.
  unfold renameSync. cbn [files set_file dirs]. rewrite lookup_insert_eq.
  destruct (decide (statePath ∈ dirs σ)) as [Hdir | Hdir].
  - rewrite (bool_decide_eq_true_2 _ Hdir). right. split; [done | by eexists].
  - rewrite (bool_decide_eq_false_2 _ Hdir). by left.
Qed.

(** The file system when [writeEngineState] ends is the last state of the
    trace. *)
Lemma writeEngineState_last (state : Endpoint) (now : float) (cuts : list nat) (σ : fs) :
  last (writeEngineState_trace state now cuts σ)
  = Some (fst (writeEngineState state now σ)).
Proof.
  unfold writeEngineState, writeEngineState_trace.
  set (content := JSON_stringify (fullState state now)).
  destruct (writeFileSync_outcome stateDir tempPath content (ensure_dir σ))
    as [(_ & _ & ->) | (_ & e & ->)]; [|done].
  destruct (rename_into_place content (ensure_dir σ))
    as [[_ ->] | (_ & e & ->)]; unfold writeFileSync_steps;
    by rewrite !last_app.
Qed.

(** How [writeEngineState] ends: with the whole record at the state path
    when it returns, and with the state path as it was when it throws. *)
Lemma writeEngineState_outcome (state : Endpoint) (now : float) (σ : fs) :
  (snd (writeEngineState state now σ) = Normal ()
   ∧ files (fst (writeEngineState state now σ)) !! statePath
     = Some (JSON_stringify (fullState state now)))
  ∨ ((∃ e, snd (writeEngineState state now σ) = Throw e)
     ∧ files (fst (writeEngineState state now σ)) !! statePath
       = files σ !! statePath).
Proof.
  unfold writeEngineState.
  set (content := JSON_stringify (fullState state now)).
  destruct (writeFileSync_outcome stateDir tempPath content (ensure_dir σ))
    as [(_ & _ & ->) | (_ & e & ->)].
  - destruct (rename_into_place content (ensure_dir σ))
      as [[_ ->] | (_ & e & ->)]; cbn [fst snd files].
    + left. split; [done|]. apply lookup_insert_eq.
    + right. split; [by eexists|].
      by rewrite lookup_set_file_temp, files_ensure_dir.
  - right. cbn [fst snd]. split; [by eexists|]. by rewrite files_ensure_dir.
Qed.

(** What a process that looks at the state path can find there during a
    write: the text that was there before the call, or the whole new
    record. *)
Definition old_or_new (content : string) (σ snap : fs) : Prop :=
  files snap !! statePath = files σ !! statePath
  ∨ files snap !! statePath = Some content.

Lemma trace_old_or_new (state : Endpoint) (now : float) (cuts : list nat) (σ : fs) :
  Forall (old_or_new (JSON_stringify (fullState state now)) σ)
         (writeEngineState_trace state now cuts σ).
Proof.
  unfold writeEngineState_trace.
  set (content := JSON_stringify (fullState state now)).
  apply Forall_app_2.
  - constructor; [by left|].
    constructor; [left; by rewrite files_ensure_dir|]. constructor.
  - destruct (writeFileSync_outcome stateDir tempPath content (ensure_dir σ))
      as [(_ & _ & ->) | (_ & e & ->)]; [|constructor].
    apply Forall_app_2; [unfold writeFileSync_steps; apply Forall_app_2|].
    + apply Forall_forall. intros snap Hin.
      apply list_elem_of_fmap in Hin as (n & -> & _).
      left. by rewrite lookup_set_file_temp, files_ensure_dir.
    + constructor; [|constructor].
      left. by rewrite lookup_set_file_temp, files_ensure_dir.
    + destruct (rename_into_place content (ensure_dir σ))
        as [[_ ->] | (_ & e & ->)]; [|constructor].
      constructor; [|constructor]. right. cbn [files]. apply lookup_insert_eq.
Qed.

(** C2.  Atomicity of [writeEngineState]: the record that is written holds
    pid, port, timestamp and version; in every state of the file system
    that exists during the call, whether the call returns or throws, the
    state path holds what it held before the call or the whole new record,
    never a part of it; a call that returns ends with the whole record in
    place, and a call that throws (the state directory is a regular file,
    or the temporary path or the state path is a directory) ends with the
    state path as it was; the call returns when the state directory is a
    directory and neither path is one; and a reader, whenever it tests for
    and reads the file during the call, gets the absent result, what it
    would have got before the call, or the new record as
    [readEngineState] decodes it. *)
Theorem writeEngineState_atomic
    (state : Endpoint) (now : float) (cuts : list nat) (σ : fs) :
  let record := fullState state now in
  let content := JSON_stringify record in
  let trace := writeEngineState_trace state now cuts σ in
  let ended := writeEngineState state now σ in
  (get record "pid" = Normal (VNum (pid state))
   ∧ get record "port" = Normal (VNum (port state))
   ∧ get record "timestamp" = Normal (VNum now)
   ∧ get record "version" = Normal (VStr "1.0.0"))
  ∧ Forall (fun snap =>
              files snap !! statePath = files σ !! statePath
              ∨ files snap !! statePath = Some content) trace
  ∧ last trace = Some (fst ended)
  ∧ (snd ended = Normal () → files (fst ended) !! statePath = Some content)
  ∧ (∀ e, snd ended = Throw e →
          files (fst ended) !! statePath = files σ !! statePath)
  ∧ (stateDir ∈ dirs σ → tempPath ∉ dirs σ → statePath ∉ dirs σ →
     snd ended = Normal ())
  ∧ Forall (fun seen =>
      Forall (fun snap =>
                readEngineState_at seen snap = Normal VNull
                ∨ readEngineState_at seen snap = readEngineState σ
                ∨ readEngineState_at seen snap = Normal (decode content))
             trace) trace.
Proof.
  intros record content trace ended.
  assert (Htrace : Forall (old_or_new content σ) trace)
    by apply trace_old_or_new.
  split; [by repeat split|]. split; [exact Htrace|].
  split; [apply writeEngineState_last|].
  split; [|split; [|split]].
  - intros Hreturned.
    destruct (writeEngineState_outcome state now σ) as [[_ Hnew] | [[e He] _]];
      [exact Hnew|].
    fold ended in He. by rewrite Hreturned in He.
  - intros e Hthrown.
    destruct (writeEngineState_outcome state now σ) as [[Hr _] | [_ Hold]];
      [|exact Hold].
    fold ended in Hr. by rewrite Hthrown in Hr.
  - intros Hdir Htemp Hstate. subst ended. unfold writeEngineState.
    assert (Hσ : ensure_dir σ = σ).
    { unfold ensure_dir, existsSync. by rewrite (bool_decide_eq_true_2 _ Hdir). }
    rewrite Hσ. fold record. fold content.
    destruct (writeFileSync_outcome stateDir tempPath content σ)
      as [(_ & _ & ->) | (Hno & _)]; [|by destruct Hno].
    by destruct (rename_into_place content σ) as [[_ ->] | [? _]].
  - apply Forall_forall. intros seen _. apply Forall_forall. intros snap Hsnap.
    rewrite Forall_forall in Htrace. specialize (Htrace snap Hsnap).
    rewrite readEngineState_at_content, readEngineState_content.
    destruct (existsSync statePath seen); [|by left].
    destruct Htrace as [-> | ->]; [|by right; right].
    right. by left.
Qed.

(** *** Validation and totality of the read *)

(** C5 (amended).  [readEngineState] validates pid and port only: when the
    state file holds text that parses, the parsed value is returned
    exactly when it is an object with a truthy [pid] and a [port] of type
    number, and the absent result is returned otherwise; [timestamp] and
    [version] are not looked at. *)
Theorem readEngineState_checks_pid_and_port
    (σ : fs) (content : string) (state : jsval) :
  files σ !! statePath = Some content →
  JSON_parse content = Normal state →
  readEngineState σ = Normal (if accepted state then state else VNull)
  ∧ (accepted state = true
     ↔ ∃ props, state = VObj props
                ∧ truthy (prop "pid" props) = true
                ∧ is_number (prop "port" props) = true).
Proof.
  intros Hfile Hparse. split.
  - rewrite readEngineState_content, Hfile. unfold decode. by rewrite Hparse.
  - destruct state as [| |b|x|s|items|props]; cbn;
      try (split; [done | by intros (? & ? & _)]).
    rewrite andb_true_iff. split.
    + intros [Hp Hq]. by exists props.
    + intros (props' & [= <-] & Hp & Hq). done.
Qed.

(** C6.  Totality of [readEngineState]: it never throws, even when the
    file changes between the existence test and the read; a missing file,
    text that does not parse, and a parsed object without pid or without
    port all give the absent result; a file holding a valid record gives
    that record. *)
Theorem readEngineState_total (seen σ : fs) :
  (∃ v, readEngineState_at seen σ = Normal v)
  ∧ (files σ !! statePath = None → readEngineState σ = Normal VNull)
  ∧ (∀ content e,
       files σ !! statePath = Some content →
       JSON_parse content = Throw e →
       readEngineState σ = Normal VNull)
  ∧ (∀ content props,
       files σ !! statePath = Some content →
       JSON_parse content = Normal (VObj props) →
       prop "pid" props = VUndefined ∨ prop "port" props = VUndefined →
       readEngineState σ = Normal VNull)
  ∧ (∀ content props,
       files σ !! statePath = Some content →
       JSON_parse content = Normal (VObj props) →
       valid_record props →
       readEngineState σ = Normal (VObj props)).
Proof.
  split; [rewrite readEngineState_at_content; by eexists|].
  split; [intros H; by rewrite readEngineState_content, H|].
  split; [intros content e Hf Hp;
          rewrite readEngineState_content, Hf; unfold decode; by rewrite Hp|].
  split.
  - intros content props Hf Hp Hmiss.
    rewrite readEngineState_content, Hf. unfold decode. rewrite Hp. cbn.
    destruct Hmiss as [-> | ->]; cbn; [done|].
    by rewrite andb_false_r.
  - intros content props Hf Hp ((n & Hpid & Hn) & Hport & _ & _).
    rewrite readEngineState_content, Hf. unfold decode. rewrite Hp. cbn.
    by rewrite Hpid, Hn, Hport.
Qed.

(** *** The polling fallback *)

Lemma poll_eq (state lastTimestamp : jsval) :
  poll state lastTimestamp
  = Normal (if truthy state then
              if strict_eq (timestamp_of state) lastTimestamp
              then (lastTimestamp, [])
              else (timestamp_of state, [state])
            else if strict_eq lastTimestamp (VNum 0%float)
                 then (lastTimestamp, [])
                 else (VNum 0%float, [VNull])).
Proof.
  unfold poll, timestamp_of.
  destruct (truthy state) eqn:Ht.
  - destruct state as [| |b|x|s|items|props]; try discriminate Ht;
      cbn -[strict_eq];
      match goal with |- context [strict_eq ?a ?b] => destruct (strict_eq a b) end;
      reflexivity.
  - cbn. by destruct (strict_eq lastTimestamp (VNum 0%float)).
Qed.

(** After a tick the closure's variable is what the tick's notification
    leaves behind, and is unchanged when the tick notified nothing. *)
Lemma poll_remembered (state lastTimestamp : jsval) :
  ∃ last invoked,
    poll state lastTimestamp = Normal (last, invoked)
    ∧ ((invoked = [] ∧ last = lastTimestamp)
       ∨ (∃ v, invoked = [v] ∧ last = remembered [v])).
Proof.
  rewrite poll_eq. unfold remembered.
  destruct (truthy state) eqn:Ht.
  - destruct (strict_eq (timestamp_of state) lastTimestamp).
    + eexists _, _. split; [reflexivity|]. by left.
    + eexists _, _. split; [reflexivity|]. right. exists state. cbn. by rewrite Ht.
  - destruct (strict_eq lastTimestamp (VNum 0%float)).
    + eexists _, _. split; [reflexivity|]. by left.
    + eexists _, _. split; [reflexivity|]. right. by exists VNull.
Qed.

Lemma remembered_app (notified more : list jsval) :
  more ≠ [] → remembered (notified ++ more) = remembered more.
Proof.
  intros Hne. unfold remembered. rewrite last_app.
  destruct (last more) eqn:E; [done|].
  apply last_None in E. done.
Qed.

Lemma poll_all_remembered (reads : list jsval) (lastTimestamp : jsval) :
  ∃ last notified,
    poll_all reads lastTimestamp = Normal (last, notified)
    ∧ last = (if decide (notified = []) then lastTimestamp else remembered notified).
Proof.
  revert lastTimestamp. induction reads as [|state rest IH]; intros lastTimestamp.
  - exists lastTimestamp, []. by split.
  - cbn [poll_all].
    destruct (poll_remembered state lastTimestamp) as (l1 & o1 & Hp & Ho1).
    destruct (IH l1) as (l2 & o2 & Hr & Hl2).
    exists l2, (o1 ++ o2). split; [rewrite Hp; cbn; by rewrite Hr|].
    destruct Ho1 as [[-> ->] | (v & -> & ->)]; cbn.
    + exact Hl2.
    + rewrite Hl2. destruct (decide (o2 = [])) as [-> | Hne]; [done|].
      change (v :: o2) with ([v] ++ o2). by rewrite remembered_app.
Qed.

Lemma poll_all_app (reads more : list jsval) (lastTimestamp : jsval) :
  poll_all (reads ++ more) lastTimestamp
  = (r ← poll_all reads lastTimestamp;
     r' ← poll_all more (fst r);
     Normal (fst r', snd r ++ snd r')).
Proof.
  revert lastTimestamp. induction reads as [|state rest IH]; intros lastTimestamp.
  - cbn. destruct (poll_all_remembered more lastTimestamp) as (l & o & -> & _).
    reflexivity.
  - cbn [app poll_all].
    destruct (poll_remembered state lastTimestamp) as (l1 & o1 & -> & _).
    cbn. rewrite IH.
    destruct (poll_all_remembered rest l1) as (l2 & o2 & -> & _). cbn.
    destruct (poll_all_remembered more l2) as (l3 & o3 & -> & _). cbn.
    by rewrite (assoc_L (++)).
Qed.

(** C9 (amended).  Whatever the earlier reads were, the polling closure
    never throws, its variable is the timestamp remembered from the
    notifications made so far (that of the last notified record; [0]
    before any notification and again after the absent result was
    notified), and the next tick invokes the callback: with the record
    read, exactly when its timestamp differs from the remembered one; with
    the absent result, exactly when nothing is read and the remembered
    timestamp is not [0]; and not at all otherwise. *)
Theorem pollEngineState_notifies_on_change (reads : list jsval) (state : jsval) :
  ∃ last notified last' invoked,
    pollEngineState reads = Normal (last, notified)
    ∧ last = remembered notified
    ∧ pollEngineState (reads ++ [state]) = Normal (last', notified ++ invoked)
    ∧ invoked =
        (if truthy state then
           if strict_eq (timestamp_of state) (remembered notified)
           then [] else [state]
         else if strict_eq (remembered notified) (VNum 0%float)
              then [] else [VNull]).
Proof.
  unfold pollEngineState. rewrite poll_all_app.
  destruct (poll_all_remembered reads (VNum 0%float)) as (l & o & -> & Hl).
  assert (Hrem : l = remembered o).
  { rewrite Hl. by destruct (decide (o = [])) as [-> | ?]. }
  cbn. rewrite poll_eq. cbn.
  eexists l, o, _, _. split; [reflexivity|]. split; [exact Hrem|].
  rewrite <- Hrem. split; [reflexivity|].
  destruct (truthy state).
  - by destruct (strict_eq (timestamp_of state) l).
  - by destruct (strict_eq l (VNum 0%float)).
Qed.

(** *** [clearEngineState] *)

(** [fs.unlinkSync] removes a regular file and throws for a path that is
    missing or names a directory. *)
Definition unlinkSync (path : string) (σ : fs) : completion fs :=
  match files σ !! path with
  | Some _ => Normal {| dirs := dirs σ; files := delete path (files σ) |}
  | None => Throw (HostError "ENOENT")
  end.

(** [clearEngineState]: the file system when the call returns.  As for
    the read, [seen] is the file system at the [existsSync] test and [σ]
    the one at the removal. *)
Definition clearEngineState_at (seen σ : fs) : completion fs :=
  try_catch
    (if existsSync statePath seen then unlinkSync statePath σ else Normal σ)
    (fun _ => Normal σ).

Definition clearEngineState (σ : fs) : completion fs := clearEngineState_at σ σ.

Lemma fs_eq (σ σ' : fs) : dirs σ = dirs σ' → files σ = files σ' → σ = σ'.
Proof. destruct σ, σ'. cbn. by intros -> ->. Qed.

Lemma clearEngineState_at_files (seen σ : fs) :
  ∃ σ', clearEngineState_at seen σ = Normal σ'
        ∧ dirs σ' = dirs σ
        ∧ files σ' = (if existsSync statePath seen
                      then delete statePath (files σ) else files σ).
Proof.
  unfold clearEngineState_at, unlinkSync.
  destruct (existsSync statePath seen); [|by exists σ].
  destruct (files σ !! statePath) as [content|] eqn:Hfile; cbn.
  - by eexists.
  - exists σ. by rewrite delete_id.
Qed.

(** Without a change of the file system during the call, the state path
    holds no file afterwards and a read gives the absent result. *)
Lemma clearEngineState_gone (σ : fs) :
  ∃ σ', clearEngineState σ = Normal σ'
        ∧ dirs σ' = dirs σ
        ∧ files σ' = delete statePath (files σ)
        ∧ readEngineState σ' = Normal VNull.
Proof.
  destruct (clearEngineState_at_files σ σ) as (σ' & Hclear & Hdirs & Hfiles).
  assert (Hgone : files σ' = delete statePath (files σ)).
  { rewrite Hfiles. destruct (existsSync statePath σ) eqn:Hex; [done|].
    symmetry. apply delete_id.
    destruct (files σ !! statePath) as [content|] eqn:Hfile; [|done].
    by rewrite (existsSync_file _ _ _ Hfile) in Hex. }
  exists σ'. split; [exact Hclear|]. split; [exact Hdirs|]. split; [exact Hgone|].
  rewrite readEngineState_content, Hgone. by rewrite lookup_delete_eq.
Qed.

(** X1.  [clearEngineState] never throws, whatever is at the state path
    and even when the file appears or disappears between the existence
    test and the removal; it touches no directory and no other file; and
    when the file system does not change during the call, the state path
    holds no file afterwards, a read gives the absent result, and a second
    call changes nothing. *)
Theorem clearEngineState_removes_the_record (seen σ : fs) :
  (∃ σ', clearEngineState_at seen σ = Normal σ'
         ∧ dirs σ' = dirs σ
         ∧ ∀ path, path ≠ statePath → files σ' !! path = files σ !! path)
  ∧ ∃ σ', clearEngineState σ = Normal σ'
          ∧ files σ' = delete statePath (files σ)
          ∧ readEngineState σ' = Normal VNull
          ∧ clearEngineState σ' = Normal σ'.
Proof.
  split.
  - destruct (clearEngineState_at_files seen σ) as (σ' & Hclear & Hdirs & Hfiles).
    exists σ'. split; [done|]. split; [done|].
    intros path Hpath. rewrite Hfiles.
    destruct (existsSync statePath seen); [|done].
    by rewrite lookup_delete_ne.
  - destruct (clearEngineState_gone σ) as (σ' & Hclear & Hdirs & Hgone & Hread).
    exists σ'. split; [exact Hclear|]. split; [exact Hgone|]. split; [exact Hread|].
    destruct (clearEngineState_gone σ') as (σ'' & Hclear' & Hdirs' & Hgone' & _).
    rewrite Hclear'. f_equal. apply fs_eq; [done|]. rewrite Hgone', Hgone.
    apply delete_id, lookup_delete_eq.
Qed.

(** *** The write, read back *)


(** *** [watchEngineState] *)

(** A [setTimeout(..., debounceMs)] timer of [handleChange]. *)
Record timeout : Type := { due : nat; armed : bool }.

(** The variables of the closure.  A timer is known by its position in
    [timeouts]; [watcher] is [None] when [fs.watch] threw, and otherwise
    tells whether the [FSWatcher] is still open. *)
Record watching : Type := {
  debounceTimer : option nat;
  watcher : option bool;
  timeouts : list timeout
}.

Inductive notice : Type :=
  | Callback (state : jsval)    (* callback(state) *)
  | Uncaught (e : exn)          (* thrown out of the timer's callback *)
  | Warn.                       (* console.warn(...) *)

(** What the runtime delivers to the watcher. *)
Inductive watch_event : Type :=
  | Changed (filename : option string)   (* the listener given to [fs.watch] *)
  | Failed                               (* the ['error'] event of the watcher *)
  | Expired (id : nat) (σ : fs)          (* the callback of timer [id], run on [σ] *)
  | Stop.                                (* the function [watchEngineState] returned *)

(** [options?.debounceMs ?? 100] *)
Definition debounce_of (options : option nat) : nat := default 100 options.

Definition clearTimeout (id : nat) (l : list timeout) : list timeout :=
  match l !! id with
  | Some t => <[id := {| due := due t; armed := false |}]> l
  | None => l
  end.

(** [if (debounceTimer) clearTimeout(debounceTimer)] *)
Definition clear_pending (w : watching) : list timeout :=
  match debounceTimer w with
  | Some id => clearTimeout id (timeouts w)
  | None => timeouts w
  end.

(** The delay [setTimeout] gives a timer, for a whole number of
    milliseconds: a delay below [1] or above [TIMEOUT_MAX] is replaced by
    [1]. *)
Definition TIMEOUT_MAX : Z := 2147483647.

Definition setTimeout_delay (ms : nat) : nat :=
  if (1 <=? ms) && (Z.of_nat ms <=? TIMEOUT_MAX)%Z then ms else 1.

Definition handleChange (debounceMs now : nat) (w : watching) : watching :=
  let timeouts1 := clear_pending w in
  {| debounceTimer := Some (length timeouts1);
     watcher := watcher w;
     timeouts := timeouts1
                 ++ [{| due := now + setTimeout_delay debounceMs; armed := true |}] |}.

(** [watchEngineState] up to its [return]; [watch_ok] tells whether
    [fs.watch] returned a watcher. *)
Definition watchEngineState (watch_ok : bool) (σ : fs) : fs * watching * list notice :=
  (ensure_dir σ,
   {| debounceTimer := None;
      watcher := if watch_ok then Some true else None;
      timeouts := [] |},
   if watch_ok then [] else [Warn]).

Definition notice_of (read : completion jsval) : notice :=
  match read with
  | Normal state => Callback state
  | Throw e => Uncaught e
  end.

(** One callback run at time [now].  The runtime delivers a change or an
    error only while the watcher is open, and runs the callback of a timer
    once, when the timer is armed and due. *)
Definition watch_step (debounceMs now : nat) (e : watch_event) (w : watching)
  : watching * list notice :=
  match e with
  | Changed filename =>
      match watcher w with
      | Some true =>
          if decide (filename = Some "engine-state.json")
          then (handleChange debounceMs now w, [])
          else (w, [])
      | _ => (w, [])
      end
  | Failed =>
      match watcher w with
      | Some true => (w, [Warn])
      | _ => (w, [])
      end
  | Expired id σ =>
      match timeouts w !! id with
      | Some t =>
          if armed t && (due t <=? now) then
            ({| debounceTimer := debounceTimer w; watcher := watcher w;
                timeouts := clearTimeout id (timeouts w) |},
             [notice_of (readEngineState σ)])
          else (w, [])
      | None => (w, [])
      end
  | Stop =>
      ({| debounceTimer := debounceTimer w;
          watcher := (fun _ => false) <$> watcher w;
          timeouts := clear_pending w |}, [])
  end.

Fixpoint watch_run (debounceMs : nat) (events : list (nat * watch_event))
    (w : watching) : watching * list notice :=
  match events with
  | [] => (w, [])
  | (now, e) :: rest =>
      let '(w1, out1) := watch_step debounceMs now e w in
      let '(w2, out2) := watch_run debounceMs rest w1 in
      (w2, out1 ++ out2)
  end.

Definition is_callback (n : notice) : bool :=
  match n with Callback _ => true | _ => false end.

(** At most one timer is pending, the one [debounceTimer] holds. *)
Definition one_pending (w : watching) : Prop :=
  ∀ id t, timeouts w !! id = Some t → armed t = true → debounceTimer w = Some id.

Definition quiet (l : list timeout) : Prop := Forall (fun t => armed t = false) l.

Lemma clearTimeout_lookup (id id' : nat) (l : list timeout) (t : timeout) :
  clearTimeout id l !! id' = Some t → armed t = true →
  id' ≠ id ∧ l !! id' = Some t.
Proof.
  unfold clearTimeout. destruct (l !! id) as [t0|] eqn:Hid.
  - destruct (decide (id = id')) as [<- | Hne].
    + rewrite list_lookup_insert_eq by (by apply lookup_lt_Some in Hid).
      by intros [= <-].
    + rewrite list_lookup_insert_ne by done. intros H _. by split; [intros ->|].
  - intros H _. split; [|done]. intros ->. by rewrite Hid in H.
Qed.

Lemma clear_pending_quiet (w : watching) : one_pending w → quiet (clear_pending w).
Proof.
  intros Hone. apply Forall_lookup_2. intros id t Ht.
  destruct (armed t) eqn:Harmed; [|done]. exfalso.
  unfold clear_pending in Ht. destruct (debounceTimer w) as [id0|] eqn:Hd.
  - apply clearTimeout_lookup in Ht as [Hne Ht]; [|done].
    specialize (Hone id t Ht Harmed). rewrite Hd in Hone. by injection Hone as ->.
  - specialize (Hone id t Ht Harmed). by rewrite Hd in Hone.
Qed.

Lemma length_clearTimeout (id : nat) (l : list timeout) :
  length (clearTimeout id l) = length l.
Proof. unfold clearTimeout. destruct (l !! id); [apply length_insert | done]. Qed.

Lemma length_clear_pending (w : watching) :
  length (clear_pending w) = length (timeouts w).
Proof. unfold clear_pending. destruct (debounceTimer w); [apply length_clearTimeout | done]. Qed.

Lemma quiet_lookup (l : list timeout) (id : nat) (t : timeout) :
  quiet l → l !! id = Some t → armed t = false.
Proof. intros Hq Ht. by apply (Forall_lookup_1 _ _ _ _ Hq Ht). Qed.

Lemma handleChange_one_pending (debounceMs now : nat) (w : watching) :
  one_pending w → one_pending (handleChange debounceMs now w).
Proof.
  intros Hone id t Ht Harmed. cbn in Ht |- *.
  apply clear_pending_quiet in Hone.
  destruct (decide (id < length (clear_pending w))) as [Hlt | Hge].
  - rewrite lookup_app_l in Ht by done.
    by rewrite (quiet_lookup _ _ _ Hone Ht) in Harmed.
  - apply lookup_lt_Some in Ht. rewrite length_app in Ht. cbn in Ht.
    f_equal. lia.
Qed.

Lemma watch_step_one_pending (debounceMs now : nat) (e : watch_event) (w : watching) :
  one_pending w → one_pending (fst (watch_step debounceMs now e w)).
Proof.
  intros Hone. destruct e as [filename| |id σ|]; cbn [watch_step].
  - destruct (watcher w) as [[|]|]; [|done..].
    destruct (decide (filename = Some "engine-state.json")); [|done].
    by apply handleChange_one_pending.
  - by destruct (watcher w) as [[|]|].
  - destruct (timeouts w !! id) as [t|]; [|done].
    destruct (armed t && (due t <=? now)); [|done].
    intros id' t' Ht' Harmed. cbn in Ht' |- *.
    apply clearTimeout_lookup in Ht' as [_ Ht']; [|done]. by apply (Hone id' t').
  - intros id t Ht Harmed. cbn in Ht |- *.
    by rewrite (quiet_lookup _ _ _ (clear_pending_quiet w Hone) Ht) in Harmed.
Qed.

Lemma watch_run_app (debounceMs : nat) (events later : list (nat * watch_event))
    (w : watching) :
  watch_run debounceMs (events ++ later) w
  = let '(w1, out1) := watch_run debounceMs events w in
    let '(w2, out2) := watch_run debounceMs later w1 in
    (w2, out1 ++ out2).
Proof.
  revert w. induction events as [|[now e] events IH]; intros w; cbn [app watch_run].
  - by destruct (watch_run debounceMs later w).
  - destruct (watch_step debounceMs now e w) as [w1 out1]. rewrite IH.
    destruct (watch_run debounceMs events w1) as [w2 out2].
    destruct (watch_run debounceMs later w2) as [w3 out3].
    by rewrite (assoc_L (++)).
Qed.

Lemma watch_run_one_pending (debounceMs : nat) (events : list (nat * watch_event))
    (w : watching) :
  one_pending w → one_pending (fst (watch_run debounceMs events w)).
Proof.
  revert w. induction events as [|[now e] events IH]; intros w Hone; [done|].
  cbn [watch_run].
  pose proof (watch_step_one_pending debounceMs now e w Hone) as Hstep.
  destruct (watch_step debounceMs now e w) as [w1 out1]. cbn [fst] in Hstep.
  specialize (IH w1 Hstep). by destruct (watch_run debounceMs events w1).
Qed.

Lemma watchEngineState_one_pending (watch_ok : bool) (σ : fs) :
  one_pending (snd (fst (watchEngineState watch_ok σ))).
Proof. intros id t Ht. by cbn in Ht. Qed.

(** Once stopped, the watcher stays closed with no timer armed, and no
    callback runs. *)
Definition stopped (w : watching) : Prop :=
  watcher w ≠ Some true ∧ quiet (timeouts w).

Lemma clearTimeout_quiet (id : nat) (l : list timeout) :
  quiet l → quiet (clearTimeout id l).
Proof.
  intros H. unfold clearTimeout. destruct (l !! id) as [t|]; [|done].
  by apply Forall_insert.
Qed.

Lemma watch_step_stopped (debounceMs now : nat) (e : watch_event) (w : watching) :
  stopped w →
  stopped (fst (watch_step debounceMs now e w))
  ∧ snd (watch_step debounceMs now e w) = [].
Proof.
  intros Hw. pose proof Hw as [Hclosed Hquiet].
  destruct e as [filename| |id σ|]; cbn [watch_step].
  - destruct (watcher w) as [[|]|] eqn:Hopen; [done | by split..].
  - destruct (watcher w) as [[|]|] eqn:Hopen; [done | by split..].
  - destruct (timeouts w !! id) as [t|] eqn:Ht; [|by split].
    rewrite (quiet_lookup _ _ _ Hquiet Ht). by split.
  - split; [|done]. split; cbn.
    + by destruct (watcher w).
    + unfold clear_pending. destruct (debounceTimer w); [|done].
      by apply clearTimeout_quiet.
Qed.

Lemma watch_run_stopped (debounceMs : nat) (events : list (nat * watch_event))
    (w : watching) :
  stopped w → snd (watch_run debounceMs events w) = [].
Proof.
  revert w. induction events as [|[now e] events IH]; intros w Hw; [done|].
  cbn [watch_run].
  destruct (watch_step_stopped debounceMs now e w Hw) as [Hw1 Hout].
  destruct (watch_step debounceMs now e w) as [w1 out1]. cbn [fst snd] in Hw1, Hout |- *.
  specialize (IH w1 Hw1). destruct (watch_run debounceMs events w1) as [w2 out2].
  cbn [snd] in IH |- *. by rewrite Hout, IH.
Qed.

(** X3.  Debouncing in [watchEngineState].  The delay of the timers is
    [debounceMs] ([100] when none is given) when that is at least [1] and
    at most [2147483647], and [1] otherwise.  Whatever happened before, at
    most one timer is pending; and after a change of the state file is
    reported at time [now] while the watcher is open, a timer's callback
    runs only for the timer set by that change and only from [now] plus
    the delay on: it then invokes the callback once, with what
    [readEngineState] gives at that later time. *)
Theorem watchEngineState_debounces
    (options : option nat) (watch_ok : bool) (σ0 : fs)
    (events : list (nat * watch_event)) (now now' id : nat) (σ : fs) :
  let debounceMs := debounce_of options in
  let delay := setTimeout_delay debounceMs in
  let w := fst (watch_run debounceMs events
                  (snd (fst (watchEngineState watch_ok σ0)))) in
  let w' := fst (watch_step debounceMs now (Changed (Some "engine-state.json")) w) in
  watcher w = Some true →
  (delay = if decide (1 ≤ debounceMs ∧ (Z.of_nat debounceMs ≤ 2147483647)%Z)
           then debounceMs else 1)
  ∧ one_pending w
  ∧ (∃ state, readEngineState σ = Normal state
              ∧ snd (watch_step debounceMs now' (Expired id σ) w')
                = if decide (id = length (timeouts w) ∧ now + delay ≤ now')
                  then [Callback state] else [])
  ∧ ∀ id' σ' later,
      snd (watch_step debounceMs later (Expired id' σ')
             (fst (watch_step debounceMs now' (Expired id σ) w')))
      = if decide (id' = length (timeouts w) ∧ now + delay ≤ later
                   ∧ ¬ (id = length (timeouts w) ∧ now + delay ≤ now'))
        then [notice_of (readEngineState σ')] else [].
Proof using stateDir statePath JSON_parse.
  clear JSON_stringify. intros debounceMs delay w w' Hopen.
  split.
  { subst delay. unfold setTimeout_delay, TIMEOUT_MAX.
    destruct (Nat.leb_spec 1 debounceMs);
      destruct (Z.leb_spec (Z.of_nat debounceMs) 2147483647);
      cbn [andb]; case_decide; (done || lia). }
  assert (Hone : one_pending w).
  { apply watch_run_one_pending, watchEngineState_one_pending. }
  split; [exact Hone|].
  pose proof (clear_pending_quiet w Hone) as Hquiet.
  pose proof (length_clear_pending w) as Hlen.
  assert (Hw' : w' = handleChange debounceMs now w).
  { subst w'. cbn [watch_step]. rewrite Hopen. by rewrite decide_True. }
  assert (Hfire : ∀ id0 later0 tms,
            tms = timeouts w' →
            match tms !! id0 with
            | Some t => armed t && (due t <=? later0)
            | None => false
            end = bool_decide (id0 = length (timeouts w) ∧ now + delay ≤ later0)).
  { intros id0 later0 tms ->. rewrite Hw'. cbn [timeouts handleChange].
    destruct (decide (id0 < length (clear_pending w))) as [Hlt | Hge].
    - rewrite lookup_app_l by done.
      destruct (clear_pending w !! id0) as [t|] eqn:Ht.
      + rewrite (quiet_lookup _ _ _ Hquiet Ht). cbn.
        symmetry. apply bool_decide_eq_false. lia.
      + symmetry. apply bool_decide_eq_false. lia.
    - destruct (decide (id0 = length (clear_pending w))) as [-> | Hne].
      + rewrite list_lookup_middle by done. cbn [armed due andb]. fold delay.
        destruct (Nat.leb_spec (now + delay) later0).
        * symmetry. apply bool_decide_eq_true. lia.
        * symmetry. apply bool_decide_eq_false. lia.
      + rewrite lookup_ge_None_2 by (rewrite length_app; cbn; lia).
        symmetry. apply bool_decide_eq_false. lia. }
  pose proof (readEngineState_content σ) as Hread.
  set (state := match files σ !! statePath with
                | Some content => decode content
                | None => VNull
                end) in Hread.
  split.
  - exists state. split; [done|]. cbn [watch_step].
    pose proof (Hfire id now' _ eq_refl) as H.
    destruct (timeouts w' !! id) as [t|].
    + rewrite H. destruct (decide (id = length (timeouts w) ∧ now + delay ≤ now')).
      * rewrite bool_decide_eq_true_2 by done. cbn. by rewrite Hread.
      * by rewrite bool_decide_eq_false_2.
    + by rewrite decide_False by (intros ?; by rewrite bool_decide_eq_true_2 in H).
  - intros id' σ' later. cbn [watch_step].
    pose proof (Hfire id now' _ eq_refl) as H.
    destruct (timeouts w' !! id) as [t|] eqn:Ht.
    + rewrite H.
      destruct (decide (id = length (timeouts w) ∧ now + delay ≤ now')) as [[-> Hdue] | Hno].
      * rewrite bool_decide_eq_true_2 by done. cbn [fst timeouts].
        rewrite decide_False by tauto.
        assert (Hq : quiet (clearTimeout (length (timeouts w)) (timeouts w'))).
        { rewrite Hw'. cbn [timeouts handleChange]. unfold clearTimeout.
          rewrite <- Hlen, list_lookup_middle by done.
          replace (length (clear_pending w)) with (length (clear_pending w) + 0) at 1 by lia.
          rewrite insert_app_r. cbn. apply Forall_app_2; [done|]. by constructor. }
        destruct (clearTimeout _ _ !! id') as [t'|] eqn:Ht'; [|done].
        by rewrite (quiet_lookup _ _ _ Hq Ht').
      * rewrite bool_decide_eq_false_2 by done. cbn [fst].
        pose proof (Hfire id' later _ eq_refl) as H'.
        destruct (timeouts w' !! id') as [t'|].
        -- rewrite H'.
           destruct (decide (id' = length (timeouts w) ∧ now + delay ≤ later)).
           ++ rewrite bool_decide_eq_true_2 by done. by rewrite decide_True by tauto.
           ++ rewrite bool_decide_eq_false_2 by done. by rewrite decide_False by tauto.
        -- rewrite decide_False; [done|]. intros (? & ? & _).
           by rewrite bool_decide_eq_true_2 in H'.
    + cbn [fst]. pose proof (Hfire id' later _ eq_refl) as H'.
      assert (Hno : ¬ (id = length (timeouts w) ∧ now + delay ≤ now'))
        by (intros ?; by rewrite bool_decide_eq_true_2 in H).
      destruct (timeouts w' !! id') as [t'|].
      * rewrite H'.
        destruct (decide (id' = length (timeouts w) ∧ now + delay ≤ later)).
        -- rewrite bool_decide_eq_true_2 by done. by rewrite decide_True by tauto.
        -- rewrite bool_decide_eq_false_2 by done. by rewrite decide_False by tauto.
      * rewrite decide_False; [done|]. intros (? & ? & _).
        by rewrite bool_decide_eq_true_2 in H'.
Qed.

(** X4.  The function [watchEngineState] returns cancels the pending
    notification: whatever happened before it is called and whatever the
    runtime delivers afterwards, nothing is notified from the call on. *)
Theorem watchEngineState_stop_cancels
    (options : option nat) (watch_ok : bool) (σ0 : fs)
    (events later : list (nat * watch_event)) (now : nat) :
  let ms := debounce_of options in
  let w0 := snd (fst (watchEngineState watch_ok σ0)) in
  snd (watch_run ms (events ++ (now, Stop) :: later) w0)
  = snd (watch_run ms events w0).
Proof.
  intros ms w0. rewrite watch_run_app.
  pose proof (watch_run_one_pending ms events w0
                (watchEngineState_one_pending watch_ok σ0)) as Hone.
  destruct (watch_run ms events w0) as [w1 out1]. cbn [fst snd] in Hone |- *.
  cbn [watch_run watch_step].
  pose proof (watch_run_stopped ms later
                {| debounceTimer := debounceTimer w1;
                   watcher := (fun _ => false) <$> watcher w1;
                   timeouts := clear_pending w1 |}) as Hlater.
  destruct (watch_run ms later _) as [w2 out2]. cbn [snd] in Hlater |- *.
  rewrite Hlater; [by rewrite app_nil_r|].
  split; cbn; [by destruct (watcher w1) | by apply clear_pending_quiet].
Qed.

End StateFile.

(** *** Concrete state files *)

Definition quote : string := String (ascii_of_nat 34) EmptyString.

Definition sample_path : string := "/home/user/.local/state/strudel/engine-state.json".

Definition holding (path text : string) : fs :=
  {| dirs := ∅; files := {[path := text]} |}.

(** The text [{ pid: 1234, port: 9000 }] as [JSON.stringify] writes it
    without indentation, and the value [JSON.parse] makes of it: a record
    without timestamp and version. *)
Definition endpoint_only_text : string :=
  "{" +:+ quote +:+ "pid" +:+ quote +:+ ":1234,"
      +:+ quote +:+ "port" +:+ quote +:+ ":9000}".

Definition endpoint_only : jsval :=
  VObj [("pid", VNum 1234%float); ("port", VNum 9000%float)].

(** A record whose pid, timestamp and version have the wrong type: the
    text [{ pid: "1234", port: 9000, timestamp: "yesterday", version: 7 }]
    and its value. *)
Definition ill_typed_text : string :=
  "{" +:+ quote +:+ "pid" +:+ quote +:+ ":" +:+ quote +:+ "1234" +:+ quote +:+ ","
      +:+ quote +:+ "port" +:+ quote +:+ ":9000,"
      +:+ quote +:+ "timestamp" +:+ quote +:+ ":" +:+ quote +:+ "yesterday" +:+ quote +:+ ","
      +:+ quote +:+ "version" +:+ quote +:+ ":7}".

Definition ill_typed : jsval :=
  VObj [("pid", VStr "1234"); ("port", VNum 9000%float);
        ("timestamp", VStr "yesterday"); ("version", VNum 7%float)].

Definition sample_record (ts : float) : jsval :=
  VObj [("pid", VNum 1234%float); ("port", VNum 9000%float);
        ("timestamp", VNum ts); ("version", VStr "1.0.0")].

(** A write in three pieces, seen from outside: the temporary file holds
    nothing, then [REC], [RECO] and [RECORD], while the state path holds
    nothing until the rename. *)
Example writeEngineState_trace_sample :
  let trace :=
    writeEngineState_trace "/state" "/state/engine-state.json" (fun _ => "RECORD")
      {| pid := 1234%float; port := 9000%float |} 1700000000000%float [3; 4]
      {| dirs := ∅; files := ∅ |} in
  map (fun σ => files σ !! "/state/engine-state.json.tmp") trace
  = [None; None; Some ""; Some "REC"; Some "RECO"; Some "RECORD"; None]
  ∧ map (fun σ => files σ !! "/state/engine-state.json") trace
    = [None; None; None; None; None; None; Some "RECORD"].
Proof. split; vm_compute; reflexivity. Qed.

(** C5, as stated, fails: whatever [JSON.parse] is, as long as it reads
    the first text as the record without timestamp and version (and the
    second as the record with an ill-typed pid, timestamp and version),
    [readEngineState] does not report the absent result for a state file
    with that text. *)
Lemma readEngineState_accepts_partial_records :
  ¬ (∃ JSON_parse,
       JSON_parse endpoint_only_text = Normal endpoint_only
       ∧ readEngineState sample_path JSON_parse (holding sample_path endpoint_only_text)
         = Normal VNull)
  ∧ ¬ (∃ JSON_parse,
         JSON_parse ill_typed_text = Normal ill_typed
         ∧ readEngineState sample_path JSON_parse (holding sample_path ill_typed_text)
           = Normal VNull).
Proof.
  split; intros (JSON_parse & Hparse & Hread);
    rewrite readEngineState_content in Hread;
    unfold holding in Hread; cbn [files] in Hread;
    rewrite lookup_singleton_eq in Hread;
    unfold decode in Hread; rewrite Hparse in Hread;
    vm_compute in Hread; discriminate.
Qed.

(** The theorem at the state file that holds the record without timestamp
    and version. *)
Lemma readEngineState_checks_pid_and_port_witness :
  readEngineState sample_path (fun _ => Normal endpoint_only)
                  (holding sample_path endpoint_only_text)
  = Normal (if accepted endpoint_only then endpoint_only else VNull)
  ∧ (accepted endpoint_only = true
     ↔ ∃ props, endpoint_only = VObj props
                ∧ truthy (prop "pid" props) = true
                ∧ is_number (prop "port" props) = true).
Proof.
  apply (readEngineState_checks_pid_and_port sample_path
           (fun _ => Normal endpoint_only)
           (holding sample_path endpoint_only_text) endpoint_only_text).
  - unfold holding. cbn [files]. apply lookup_singleton_eq.
  - reflexivity.
Defined.

(** A complete record is read back as it is. *)
Example readEngineState_valid_record (JSON_parse : string → completion jsval) (text : string) :
  JSON_parse text = Normal (sample_record 1700000000000%float) →
  readEngineState sample_path JSON_parse (holding sample_path text)
  = Normal (sample_record 1700000000000%float).
Proof.
  intros Hparse. rewrite readEngineState_content.
  unfold holding. cbn [files]. rewrite lookup_singleton_eq.
  unfold decode. by rewrite Hparse.
Qed.

(** C9, as stated, fails: a record with timestamp [5] is notified, then
    the file is found absent (which is notified too), then the same record
    is read again.  Its timestamp equals that of the last record the
    callback was invoked for, and the callback is invoked again. *)
Lemma pollEngineState_renotifies_after_absence :
  pollEngineState [sample_record 5%float; VNull]
  = Normal (VNum 0%float, [sample_record 5%float; VNull])
  ∧ last_record [sample_record 5%float; VNull] = Some (sample_record 5%float)
  ∧ strict_eq (timestamp_of (sample_record 5%float))
              (timestamp_of (sample_record 5%float)) = true
  ∧ pollEngineState [sample_record 5%float; VNull; sample_record 5%float]
    = Normal (VNum 5%float,
              [sample_record 5%float; VNull; sample_record 5%float]).
Proof. repeat split; vm_compute; reflexivity. Qed.

(** The round trip of the record for pid 1234 and port 9000, on an empty
    file system, with a [JSON.parse] that reads the written text back. *)
Definition sample_endpoint : Endpoint := {| pid := 1234%float; port := 9000%float |}.

Definition nothing : fs := {| dirs := ∅; files := ∅ |}.

Definition sample_dir : string := "/home/user/.local/state/strudel".


(** The write with a directory at the state path: the rename throws and
    the temporary file stays, holding the whole record.  With a regular
    file in place of the state directory: the temporary file cannot be
    opened and nothing is written. *)
Example writeEngineState_throws :
  let blocked := {| dirs := {[sample_dir; sample_path]}; files := ∅ |} in
  let no_directory := {| dirs := ∅; files := {[sample_dir := "text"]} |} in
  let write := writeEngineState sample_dir sample_path (fun _ => "RECORD")
                                sample_endpoint 5%float in
  (snd (write blocked) = Throw (HostError "EISDIR")
   ∧ files (fst (write blocked)) !! tempPath sample_path = Some "RECORD"
   ∧ files (fst (write blocked)) !! sample_path = None)
  ∧ (snd (write no_directory) = Throw (HostError "ENOTDIR")
     ∧ files (fst (write no_directory)) !! tempPath sample_path = None
     ∧ files (fst (write no_directory)) !! sample_path = None).
Proof. repeat split; vm_compute; reflexivity. Qed.

(** The delays of the timers: the default one, and the one millisecond
    that stands in for a delay of zero or of more than [TIMEOUT_MAX]. *)
Lemma setTimeout_delay_sample :
  setTimeout_delay (debounce_of None) = 100
  ∧ setTimeout_delay (debounce_of (Some 0)) = 1
  ∧ ∀ ms, (TIMEOUT_MAX < Z.of_nat ms)%Z → setTimeout_delay (debounce_of (Some ms)) = 1.
Proof.
  split; [reflexivity|]. split; [reflexivity|].
  intros ms Hms. unfold debounce_of.
  change (default 100 (Some ms)) with ms. unfold setTimeout_delay.
  destruct (Z.leb_spec (Z.of_nat ms) TIMEOUT_MAX) as [Hle | _]; [lia|].
  by destruct (1 <=? ms).
Qed.

(** A change of the state file reported at 50 ms to a watcher that has
    just been installed with the default delay: the timer it sets is
    timer 0, and its callback, run at 150 ms on a file system without a
    state file, notifies the absent result. *)
Lemma watchEngineState_debounces_witness :
  let parse := fun _ : string => @Throw jsval SyntaxError in
  let w := snd (fst (watchEngineState "/state" true nothing)) in
  let w' := fst (watch_step sample_path parse 100 50
                   (Changed (Some "engine-state.json")) w) in
  snd (watch_step sample_path parse 100 150 (Expired 0 nothing) w') = [Callback VNull]
  ∧ snd (watch_step sample_path parse 100 149 (Expired 0 nothing) w') = [].
Proof.
  intros parse w w'. split.
  - destruct (watchEngineState_debounces "/state" sample_path parse None true nothing
                [] 50 150 0 nothing eq_refl) as (_ & _ & (state & Hread & Hstep) & _).
    injection Hread as <-. exact Hstep.
  - reflexivity.
Defined.

End EngineState.

(** ** The SuperDirt relay ([osc-output.ts]) *)

Module OscOutput.
Import JS.

(** A hap as the relay reads it: [value] is [hap.value]; [begin] is
    [hap.wholeOrPart?.()?.begin?.valueOf?.()] and [duration] is
    [hap.duration?.valueOf?.()], [None] when the chain gives [undefined]
    or [null]. *)
Record Hap : Type := {
  value : jsval;
  begin : option float;
  duration : option float
}.

Inductive osc_arg : Type :=
  | OscS (s : string)   (* { type: 's', value: s } *)
  | OscF (x : float).   (* { type: 'f', value: x } *)

Section Relay.

(** [isNote] and [noteToMidi] come from [@strudel/core/util.mjs];
    [Number_toString] and [StringToNumber] are the built-in conversions
    between numbers and strings. *)
Variable isNote : jsval -> bool.
Variable noteToMidi : jsval -> jsval -> completion jsval.
Variable Number_toString : float -> string.
Variable StringToNumber : string -> float.

(** [String(v)] *)
Fixpoint ToString (v : jsval) : string :=
  match v with
  | VUndefined => "undefined"
  | VNull => "null"
  | VBool true => "true"
  | VBool false => "false"
  | VNum x => Number_toString x
  | VStr s => s
  | VArr items =>
      (fix join (l : list jsval) : string :=
         match l with
         | [] => ""
         | x :: rest =>
             match x with VUndefined | VNull => "" | _ => ToString x end
             +:+ match rest with [] => "" | _ => "," +:+ join rest end
         end) items
  | VObj _ => "[object Object]"
  end.

(** ToPrimitive: arrays and plain objects convert through [toString]. *)
Definition ToPrimitive (v : jsval) : jsval :=
  match v with
  | VArr _ | VObj _ => VStr (ToString v)
  | _ => v
  end.

Definition ToNumber (v : jsval) : float :=
  match ToPrimitive v with
  | VUndefined => nan
  | VNull => 0%float
  | VBool true => 1%float
  | VBool false => 0%float
  | VNum x => x
  | VStr s => StringToNumber s
  | _ => nan
  end.

(** [a + b] *)
Definition js_add (a b : jsval) : jsval :=
  let pa := ToPrimitive a in
  let pb := ToPrimitive b in
  if is_string pa || is_string pb
  then VStr (ToString pa +:+ ToString pb)
  else VNum (ToNumber pa + ToNumber pb)%float.

(** [a / y] for a number [y] *)
Definition js_div (a : jsval) (y : float) : jsval :=
  VNum (ToNumber a / y)%float.

(** The transport fields the control map starts from. *)
Definition transport (hap : Hap) (cps : float) : list (string * jsval) :=
  let begin := default 0%float (begin hap) in
  let duration := default 1%float (duration hap) in
  let delta := (duration / cps)%float in
  [("cps", VNum cps); ("cycle", VNum begin); ("delta", VNum delta)].

(** The [controls] object of [hapToOscArgs] when the loop starts. *)
Definition controls_of (hap : Hap) (cps : float)
  : completion (list (string * jsval)) :=
  let value := js_or (value hap) (VObj []) in
  let controls := spread (transport hap cps) value in
  (* Handle note/midi conversion *)
  controls ←
    (if negb (is_undefined (prop "note" controls)) then
       if isNote (prop "note" controls) then
         (midi ← noteToMidi (prop "note" controls)
                            (js_or (prop "octave" controls) (VNum 3%float));
          Normal (set_prop "midinote" midi controls))
       else if is_number (prop "note" controls) then
         Normal (set_prop "midinote" (prop "note" controls) controls)
       else Normal controls
     else Normal controls);
  (* Handle bank prefix *)
  let controls :=
    if truthy (prop "bank" controls) && truthy (prop "s" controls)
    then set_prop "s" (js_add (prop "bank" controls) (prop "s" controls)) controls
    else controls in
  (* Handle roomsize -> size alias *)
  let controls :=
    if truthy (prop "roomsize" controls)
    then set_prop "size" (prop "roomsize" controls) controls
    else controls in
  (* Handle speed adjustment for unit=c *)
  let controls :=
    if strict_eq (prop "unit" controls) (VStr "c")
       && not_nullish (prop "speed" controls)
    then set_prop "speed" (js_div (prop "speed" controls) cps) controls
    else controls in
  Normal controls.

(** The OSC value of a control. *)
Definition osc_value (val : jsval) : osc_arg :=
  match val with
  | VNum x => OscF x
  | VStr s => OscS s
  | _ => OscS (ToString val)
  end.

(** Flatten to [[key, value, key, value, ...]]. *)
Definition flatten (controls : list (string * jsval)) : list osc_arg :=
  flat_map (fun kv =>
              if not_nullish (snd kv)
              then [OscS (fst kv); osc_value (snd kv)]
              else [])
           (own_entries (VObj controls)).

Definition hapToOscArgs (hap : Hap) (cps : float) : completion (list osc_arg) :=
  controls ← controls_of hap cps;
  Normal (flatten controls).

(** *** [sendHapToSuperDirt] *)

(** The UDP port object of the [osc] package and its time tags are
    opaque; [udp_send] is [udpPort.send], which may throw. *)
Variable UDPPort : Type.
Variable TimeTag : Type.
Variable osc_timeTag : float -> float -> completion TimeTag.

Record Bundle : Type := {
  timeTag : TimeTag;
  address : string;
  args : list osc_arg
}.

Variable udp_send : UDPPort -> Bundle -> completion unit.

(** The module's variables. *)
Record relay : Type := {
  udpPort : option UDPPort;
  isOpen : bool;
  oscDebug : bool
}.

Inductive effect : Type :=
  | Sent (port : UDPPort) (msg : Bundle)
  | ConsoleLog (sound : jsval) (deadline : float)
  | ConsoleError (err : exn).

(** [hap.value?.k] *)
Definition optional_get (v : jsval) (k : string) : jsval :=
  match get v k with
  | Normal x => x
  | Throw _ => VUndefined
  end.

(** The body of the [try] block: its completion and what it did before
    completing. *)
Definition send_body (port : UDPPort) (debug : bool)
    (hap : Hap) (deadline cps : float) : completion unit * list effect :=
  match hapToOscArgs hap cps with
  | Throw e => (Throw e, [])
  | Normal args =>
      let timestampMs := (deadline * 1000)%float in
      match osc_timeTag 0%float timestampMs with
      | Throw e => (Throw e, [])
      | Normal tag =>
          let msg := {| timeTag := tag; address := "/dirt/play"; args := args |} in
          match udp_send port msg with
          | Throw e => (Throw e, [])
          | Normal _ =>
              if debug then
                let sound := js_or (js_or (optional_get (value hap) "s")
                                          (optional_get (value hap) "note"))
                                   (VStr "?") in
                (Normal (), [Sent port msg; ConsoleLog sound deadline])
              else (Normal (), [Sent port msg])
          end
      end
  end.

(** [sendHapToSuperDirt]: how the call completes, the module's variables
    afterwards, and what the call did. *)
Definition sendHapToSuperDirt (st : relay) (hap : Hap) (deadline cps : float)
  : completion unit * relay * list effect :=
  match udpPort st with
  | Some port =>
      if negb (isOpen st) then (Normal (), st, [])
      else
        let '(outcome, effects) := send_body port (oscDebug st) hap deadline cps in
        match outcome with
        | Normal _ => (Normal (), st, effects)
        | Throw err => (Normal (), st, effects ++ [ConsoleError err])
        end
  | None => (Normal (), st, [])
  end.

(** *** What the datagram carries *)

(** The control map before the transforms: the transport fields
    overridden by the own fields of the hap's value. *)
Definition merged (hap : Hap) (cps : float) : list (string * jsval) :=
  spread (transport hap cps) (js_or (value hap) (VObj [])).

(** The MIDI number the note transform stores, if any. *)
Definition midinote_of (controls : list (string * jsval))
  : completion (option jsval) :=
  let note := prop "note" controls in
  if is_undefined note then Normal None
  else if isNote note then
    (midi ← noteToMidi note (js_or (prop "octave" controls) (VNum 3%float));
     Normal (Some midi))
  else if is_number note then Normal (Some note)
  else Normal None.

(** The name and OSC value of every field that is sent, in order. *)
Definition datagram_fields (controls : list (string * jsval))
  : list (string * osc_arg) :=
  omap (fun kv => if not_nullish (snd kv)
                  then Some (fst kv, osc_value (snd kv))
                  else None)
       (own_entries (VObj controls)).

Lemma flatten_fields (controls : list (string * jsval)) :
  flatten controls
  = flat_map (fun p => [OscS (fst p); snd p]) (datagram_fields controls).
Proof.
  unfold flatten, datagram_fields.
  induction (own_entries (VObj controls)) as [|[k v] l IH]; [done|].
  cbn. destruct (not_nullish v); cbn; by rewrite IH.
Qed.

Lemma datagram_fields_spec (controls : list (string * jsval)) (k : string) (a : osc_arg) :
  NoDup (map fst controls) →
  ((k, a) ∈ datagram_fields controls
   ↔ not_nullish (prop k controls) = true ∧ a = osc_value (prop k controls)).
Proof.
  intros Hnd. unfold datagram_fields. rewrite list_elem_of_omap. cbn [own_entries].
  split.
  - intros ([k' v] & Hin & Hsome). cbn in Hsome.
    destruct (not_nullish v) eqn:Hv; [|done].
    injection Hsome as Hk Ha. subst k' a.
    rewrite ordered_Permutation in Hin.
    apply (elem_of_props _ _ _ Hnd) in Hin as [_ <-]. done.
  - intros [Hv ->]. exists (k, prop k controls). split.
    + rewrite ordered_Permutation. apply (elem_of_props _ _ _ Hnd). split; [|done].
      destruct (has_prop k controls) eqn:E; [done|].
      rewrite (prop_no_key _ _ E) in Hv. done.
    + cbn. by rewrite Hv.
Qed.

Lemma NoDup_transport (hap : Hap) (cps : float) :
  NoDup (map fst (transport hap cps)).
Proof.
  cbn. repeat (apply NoDup_cons; split;
                 [rewrite ?not_elem_of_cons; repeat split; (done || apply not_elem_of_nil)|]).
  apply NoDup_nil_2.
Qed.

(** The control map after the transforms, given what the note transform
    stored. *)
Definition transformed (cps : float) (mid : option jsval)
    (base : list (string * jsval)) (k : string) : jsval :=
  if String.eqb k "speed" then
    if strict_eq (prop "unit" base) (VStr "c") && not_nullish (prop "speed" base)
    then js_div (prop "speed" base) cps else prop "speed" base
  else if String.eqb k "size" then
    if truthy (prop "roomsize" base) then prop "roomsize" base else prop "size" base
  else if String.eqb k "s" then
    if truthy (prop "bank" base) && truthy (prop "s" base)
    then js_add (prop "bank" base) (prop "s" base) else prop "s" base
  else if String.eqb k "midinote" then
    match mid with Some midi => midi | None => prop "midinote" base end
  else prop k base.

Lemma controls_of_transformed (hap : Hap) (cps : float) :
  match midinote_of (merged hap cps) with
  | Throw e => controls_of hap cps = Throw e
  | Normal mid =>
      ∃ controls,
        controls_of hap cps = Normal controls
        ∧ NoDup (map fst controls)
        ∧ ∀ k, prop k controls = transformed cps mid (merged hap cps) k
  end.
Proof.
  unfold controls_of, midinote_of. fold (merged hap cps).
  set (base := merged hap cps).
  assert (Hbase : NoDup (map fst base))
    by apply NoDup_spread, NoDup_transport.
  set (c1 := fun mid : option jsval =>
               match mid with Some midi => set_prop "midinote" midi base | None => base end).
  assert (Hc1 : ∀ mid, NoDup (map fst (c1 mid))).
  { intros [midi|]; cbn; [by apply NoDup_set_prop | done]. }
  assert (Hget : ∀ mid k, String.eqb k "midinote" = false →
                          prop k (c1 mid) = prop k base).
  { intros [midi|] k Hk; cbn; [|done]. by rewrite prop_set_prop, Hk. }
  assert (Hmid : ∀ mid, prop "midinote" (c1 mid)
                        = match mid with
                          | Some midi => midi
                          | None => prop "midinote" base
                          end).
  { intros [midi|]; cbn; [|done]. by rewrite prop_set_prop. }
  assert (Hfinish : ∀ mid,
    ∃ controls,
      (let controls := c1 mid in
       let controls :=
         if truthy (prop "bank" controls) && truthy (prop "s" controls)
         then set_prop "s" (js_add (prop "bank" controls) (prop "s" controls)) controls
         else controls in
       let controls :=
         if truthy (prop "roomsize" controls)
         then set_prop "size" (prop "roomsize" controls) controls
         else controls in
       let controls :=
         if strict_eq (prop "unit" controls) (VStr "c")
            && not_nullish (prop "speed" controls)
         then set_prop "speed" (js_div (prop "speed" controls) cps) controls
         else controls in
       @Normal (list (string * jsval)) controls) = Normal controls
      ∧ NoDup (map fst controls)
      ∧ ∀ k, prop k controls = transformed cps mid base k).
  { intros mid. eexists. split; [reflexivity|]. cbn zeta.
    rewrite !(Hget mid) by reflexivity.
    set (c2 := if truthy (prop "bank" base) && truthy (prop "s" base)
               then set_prop "s" (js_add (prop "bank" base) (prop "s" base)) (c1 mid)
               else c1 mid).
    assert (H2 : ∀ k, prop k c2
                      = if String.eqb k "s" then
                          if truthy (prop "bank" base) && truthy (prop "s" base)
                          then js_add (prop "bank" base) (prop "s" base)
                          else prop "s" base
                        else prop k (c1 mid)).
    { intros k. subst c2.
      destruct (truthy (prop "bank" base) && truthy (prop "s" base)).
      - by rewrite prop_set_prop.
      - destruct (String.eqb_spec k "s") as [-> | ?]; [|done].
        by apply Hget. }
    assert (N2 : NoDup (map fst c2)).
    { subst c2. destruct (truthy (prop "bank" base) && truthy (prop "s" base));
        [by apply NoDup_set_prop | done]. }
    rewrite !H2. cbn [String.eqb Ascii.eqb Bool.eqb]. rewrite !(Hget mid) by reflexivity.
    set (c3 := if truthy (prop "roomsize" base)
               then set_prop "size" (prop "roomsize" base) c2 else c2).
    assert (H3 : ∀ k, prop k c3
                      = if String.eqb k "size" then
                          if truthy (prop "roomsize" base)
                          then prop "roomsize" base else prop "size" base
                        else prop k c2).
    { intros k. subst c3. destruct (truthy (prop "roomsize" base)).
      - by rewrite prop_set_prop.
      - destruct (String.eqb_spec k "size") as [-> | ?]; [|done].
        rewrite H2. cbn [String.eqb Ascii.eqb Bool.eqb]. by apply Hget. }
    assert (N3 : NoDup (map fst c3)).
    { subst c3. destruct (truthy (prop "roomsize" base));
        [by apply NoDup_set_prop | done]. }
    rewrite !H3. cbn [String.eqb Ascii.eqb Bool.eqb].
    rewrite !H2. cbn [String.eqb Ascii.eqb Bool.eqb]. rewrite !(Hget mid) by reflexivity.
    split.
    - destruct (strict_eq (prop "unit" base) (VStr "c")
                && not_nullish (prop "speed" base));
        [by apply NoDup_set_prop | done].
    - intros k. unfold transformed.
      destruct (strict_eq (prop "unit" base) (VStr "c")
                && not_nullish (prop "speed" base)).
      + rewrite prop_set_prop.
        destruct (String.eqb_spec k "speed") as [-> | ?]; [done|].
        rewrite H3. destruct (String.eqb_spec k "size") as [-> | ?]; [done|].
        rewrite H2. destruct (String.eqb_spec k "s") as [-> | ?]; [done|].
        destruct (String.eqb_spec k "midinote") as [-> | Hk]; [exact (Hmid mid)|].
        apply Hget. by apply String.eqb_neq.
      + destruct (String.eqb_spec k "speed") as [-> | ?].
        { rewrite H3. cbn [String.eqb Ascii.eqb Bool.eqb].
          rewrite H2. cbn [String.eqb Ascii.eqb Bool.eqb]. by apply Hget. }
        rewrite H3. destruct (String.eqb_spec k "size") as [-> | ?]; [done|].
        rewrite H2. destruct (String.eqb_spec k "s") as [-> | ?]; [done|].
        destruct (String.eqb_spec k "midinote") as [-> | Hk]; [exact (Hmid mid)|].
        apply Hget. by apply String.eqb_neq. }
  destruct (is_undefined (prop "note" base)); cbn [negb].
  { exact (Hfinish None). }
  destruct (isNote (prop "note" base)).
  { change (mbind ?f ?c) with (bind c f).
    destruct (noteToMidi (prop "note" base)
                (js_or (prop "octave" base) (VNum 3%float))) as [midi|e];
      cbn [bind]; [|reflexivity].
    exact (Hfinish (Some midi)). }
  destruct (is_number (prop "note" base)).
  { exact (Hfinish (Some (prop "note" base))). }
  exact (Hfinish None).
Qed.

(** C4 (amended).  The control map of the datagram: the transport fields
    [cps], [cycle] (the hap's begin, [0] without one) and [delta]
    (duration / cps, duration [1] without one), each replaced by the
    value's own field of the same name when there is one, together with
    the value's other fields; then [midinote] is what the note transform
    stores ([noteToMidi(note, octave || 3)] when [isNote(note)], the note
    itself when it is a number, nothing otherwise, and the whole call fails
    when [noteToMidi] throws); [s] is [bank + s] when both are truthy;
    [size] is [roomsize] when that is truthy; [speed] is [speed / cps]
    when [unit === 'c'] and [speed] is neither [null] nor [undefined].
    The datagram lists, for every field that is neither [null] nor
    [undefined], its name followed by its OSC value. *)
Theorem hapToOscArgs_control_map (hap : Hap) (cps : float) :
  let own := own_entries (js_or (value hap) (VObj [])) in
  let base := merged hap cps in
  (prop "cps" (transport hap cps) = VNum cps
   ∧ prop "cycle" (transport hap cps) = VNum (default 0%float (begin hap))
   ∧ prop "delta" (transport hap cps)
     = VNum (default 1%float (duration hap) / cps)%float)
  ∧ (∀ k, prop k base
          = if has_prop k own then latest k own else prop k (transport hap cps))
  ∧ match midinote_of base with
    | Throw e => hapToOscArgs hap cps = Throw e
    | Normal mid =>
        ∃ controls,
          controls_of hap cps = Normal controls
          ∧ hapToOscArgs hap cps = Normal (flatten controls)
          ∧ (∀ k, prop k controls = transformed cps mid base k)
          ∧ flatten controls
            = flat_map (fun p => [OscS (fst p); snd p]) (datagram_fields controls)
          ∧ (∀ k a, (k, a) ∈ datagram_fields controls
                    ↔ not_nullish (prop k controls) = true
                      ∧ a = osc_value (prop k controls))
    end.
Proof.
  intros own base. split; [by repeat split|].
  split; [intros k; apply prop_spread|].
  pose proof (controls_of_transformed hap cps) as H. fold base in H.
  unfold hapToOscArgs.
  destruct (midinote_of base) as [mid|e].
  - destruct H as (controls & Hc & Hnd & Hk).
    exists controls. rewrite Hc. split; [done|]. split; [done|].
    split; [exact Hk|]. split; [apply flatten_fields|].
    intros k a. by apply datagram_fields_spec.
  - by rewrite H.
Qed.

(** *** Silent degradation *)

Lemma send_body_sent (port : UDPPort) (debug : bool)
    (hap : Hap) (deadline cps : float) (port' : UDPPort) (msg : Bundle) :
  Sent port' msg ∈ snd (send_body port debug hap deadline cps) →
  port' = port ∧ udp_send port msg = Normal ().
Proof.
  unfold send_body.
  destruct (hapToOscArgs hap cps) as [args0|e]; cbn; [|by intros ?%elem_of_nil].
  destruct (osc_timeTag 0%float (deadline * 1000)%float) as [tag|e]; cbn;
    [|by intros ?%elem_of_nil].
  destruct (udp_send port _) as [[]|e] eqn:Hsend; cbn; [|by intros ?%elem_of_nil].
  destruct debug; cbn.
  - intros [[= -> ->] | Hin]%elem_of_cons; [done|].
    apply elem_of_cons in Hin as [? | Hin]; [done|]. by apply elem_of_nil in Hin.
  - intros [[= -> ->] | Hin]%elem_of_cons; [done|]. by apply elem_of_nil in Hin.
Qed.

(** C7.  [sendHapToSuperDirt] never throws and leaves the module's
    variables as they were; without a port, or with a port that is not
    open, it does nothing at all; when [udpPort.send] throws, the error is
    caught and only reported on the console; and a datagram counts as sent
    only when the port is bound and open and [udpPort.send] returned. *)
Theorem sendHapToSuperDirt_silent
    (st : relay) (hap : Hap) (deadline cps : float) :
  ∃ effects,
    sendHapToSuperDirt st hap deadline cps = (Normal (), st, effects)
    ∧ (udpPort st = None ∨ isOpen st = false → effects = [])
    ∧ (∀ port args tag err,
         udpPort st = Some port →
         isOpen st = true →
         hapToOscArgs hap cps = Normal args →
         osc_timeTag 0%float (deadline * 1000)%float = Normal tag →
         udp_send port {| timeTag := tag; address := "/dirt/play"; args := args |}
         = Throw err →
         effects = [ConsoleError err])
    ∧ (∀ port msg,
         Sent port msg ∈ effects →
         udpPort st = Some port ∧ isOpen st = true
         ∧ udp_send port msg = Normal ()).
Proof.
  unfold sendHapToSuperDirt.
  destruct (udpPort st) as [port|] eqn:Hport.
  2:{ exists []. split; [done|]. split; [done|]. split; [done|].
      by intros ? ? ?%elem_of_nil. }
  destruct (isOpen st) eqn:Hopen; cbn [negb].
  2:{ exists []. split; [done|]. split; [done|]. split; [done|].
      by intros ? ? ?%elem_of_nil. }
  pose proof (send_body_sent port (oscDebug st) hap deadline cps) as Hsent.
  destruct (send_body port (oscDebug st) hap deadline cps) as [outcome effects] eqn:Hbody.
  cbn [snd] in Hsent.
  exists (match outcome with
          | Normal _ => effects
          | Throw err => effects ++ [ConsoleError err]
          end).
  split; [by destruct outcome as [[]|]|].
  split; [by intros [? | ?]|].
  split.
  - intros port' args0 tag err [= <-] _ Hargs Htag Hsend.
    unfold send_body in Hbody. rewrite Hargs, Htag, Hsend in Hbody.
    by injection Hbody as <- <-.
  - intros port' msg Hin.
    assert (Hin' : Sent port' msg ∈ effects).
    { destruct outcome; [done|].
      apply elem_of_app in Hin as [? | Hin]; [done|].
      apply list_elem_of_singleton in Hin. done. }
    destruct (Hsent _ _ Hin') as [-> ?]. done.
Qed.

(** *** The names in the datagram *)

Lemma not_nullish_truthy (v : jsval) : truthy v = true → not_nullish v = true.
Proof. by destruct v. Qed.

(** A field of the merged map that holds a value is a transport field or
    an own field of the hap's value. *)
Lemma merged_named (hap : Hap) (cps : float) (k : string) :
  not_nullish (prop k (merged hap cps)) = true →
  k ∈ ["cps"; "cycle"; "delta"]
  ∨ has_prop k (own_entries (js_or (value hap) (VObj []))) = true.
Proof.
  unfold merged. rewrite prop_spread.
  destruct (has_prop k (own_entries (js_or (value hap) (VObj [])))); [by right|].
  intros Hk. left. cbn in Hk.
  destruct (String.eqb_spec k "cps") as [Heq | _];
    [rewrite Heq; repeat constructor|].
  destruct (String.eqb_spec k "cycle") as [Heq | _];
    [rewrite Heq; repeat constructor|].
  destruct (String.eqb_spec k "delta") as [Heq | _];
    [rewrite Heq; repeat constructor|].
  done.
Qed.

Lemma datagram_fields_names (controls : list (string * jsval)) :
  NoDup (map fst controls) → NoDup (map fst (datagram_fields controls)).
Proof.
  intros Hnd. unfold datagram_fields. cbn [own_entries].
  assert (Hordered : NoDup (map fst (ordered controls)))
    by (by rewrite ordered_Permutation).
  induction (ordered controls) as [|[k v] l IH]; cbn; [constructor|].
  apply NoDup_cons in Hordered as [Hk Hl].
  destruct (not_nullish v); cbn; [|by apply IH].
  apply NoDup_cons. split; [|by apply IH].
  intros Hin. apply Hk. clear -Hin.
  induction l as [|[k' v'] l IH]; cbn in Hin |- *; [done|].
  destruct (not_nullish v'); cbn in Hin |- *.
  - apply elem_of_cons in Hin as [-> | Hin]; [by left|]. right. by apply IH.
  - right. by apply IH.
Qed.

Lemma length_pairs (fields : list (string * osc_arg)) :
  length (flat_map (fun p => [OscS (fst p); snd p]) fields) = 2 * length fields.
Proof. induction fields as [|p fields IH]; [done|]. cbn in IH |- *. lia. Qed.

(** X5.  Every datagram [hapToOscArgs] builds is a list of name and value
    pairs in which no name occurs twice, and every name in it is one of
    the transport names [cps], [cycle] and [delta], one of the derived
    names [midinote] and [size], or the name of an own field of the hap's
    value: the relay adds no other control. *)
Theorem hapToOscArgs_names_once (hap : Hap) (cps : float) (args : list osc_arg) :
  hapToOscArgs hap cps = Normal args →
  ∃ fields,
    args = flat_map (fun p => [OscS (fst p); snd p]) fields
    ∧ length args = 2 * length fields
    ∧ NoDup (map fst fields)
    ∧ ∀ k, k ∈ map fst fields →
           k ∈ ["cps"; "cycle"; "delta"; "midinote"; "size"]
           ∨ has_prop k (own_entries (js_or (value hap) (VObj []))) = true.
Proof using isNote noteToMidi Number_toString StringToNumber.
  intros Hargs. unfold hapToOscArgs in Hargs.
  pose proof (controls_of_transformed hap cps) as H.
  destruct (midinote_of (merged hap cps)) as [mid|e]; [|by rewrite H in Hargs].
  destruct H as (controls & Hc & Hnd & Hk).
  rewrite Hc in Hargs. injection Hargs as <-.
  exists (datagram_fields controls).
  split; [apply flatten_fields|].
  split; [rewrite flatten_fields; apply length_pairs|].
  split; [by apply datagram_fields_names|].
  intros k Hin. apply list_elem_of_fmap in Hin as ([k' a] & -> & Hin). cbn [fst].
  apply (datagram_fields_spec _ _ _ Hnd) in Hin as [Hv _].
  rewrite Hk in Hv. unfold transformed in Hv.
  assert (Hbase : not_nullish (prop k' (merged hap cps)) = true →
                  k' ∈ ["cps"; "cycle"; "delta"; "midinote"; "size"]
                  ∨ has_prop k' (own_entries (js_or (value hap) (VObj []))) = true).
  { intros Hb. destruct (merged_named hap cps k' Hb) as [Hin | Hown]; [|by right].
    left. rewrite !elem_of_cons in Hin.
    destruct Hin as [-> | [-> | [-> | Hin]]];
      [repeat constructor.. | by apply elem_of_nil in Hin]. }
  destruct (String.eqb_spec k' "speed") as [-> | _].
  { apply Hbase. revert Hv.
    destruct (strict_eq (prop "unit" (merged hap cps)) (VStr "c")); cbn [andb]; [|done].
    destruct (not_nullish (prop "speed" (merged hap cps))) eqn:Hspeed; [done|].
    by rewrite Hspeed. }
  destruct (String.eqb_spec k' "size") as [-> | _];
    [left; repeat constructor|].
  destruct (String.eqb_spec k' "s") as [-> | _].
  { apply Hbase. revert Hv.
    destruct (truthy (prop "bank" (merged hap cps))); cbn [andb]; [|done].
    destruct (truthy (prop "s" (merged hap cps))) eqn:Hs; [|done].
    intros _. by apply not_nullish_truthy. }
  destruct (String.eqb_spec k' "midinote") as [-> | _];
    [left; repeat constructor|].
  by apply Hbase.
Qed.

End Relay.

(** *** Concrete haps *)

(** [s("bd").cps(2)] at cycle 3, a quarter of a cycle long. *)
Definition hap_with_cps : Hap :=
  {| value := VObj [("s", VStr "bd"); ("cps", VNum 2%float)];
     begin := Some 3%float; duration := Some 0.25%float |}.

(** [s("bd").roomsize(0.75)] *)
Definition hap_with_roomsize : Hap :=
  {| value := VObj [("s", VStr "bd"); ("roomsize", VNum 0.75%float)];
     begin := Some 3%float; duration := Some 0.25%float |}.

(** A note that is neither a note name nor a number. *)
Definition hap_with_odd_note : Hap :=
  {| value := VObj [("note", VStr "hello")];
     begin := Some 3%float; duration := Some 0.25%float |}.

(** C4, as stated, fails, whatever the library functions are: at tempo
    [0.5] the control map of [hap_with_cps] does not hold the tempo under
    [cps] (the value's own [cps] replaces it); the control map of
    [hap_with_roomsize] holds a [size] that is neither in the value nor a
    transport field; and when ["hello"] is not a note name the control map
    of [hap_with_odd_note] has a note and no [midinote]. *)
Lemma hapToOscArgs_beyond_the_listed_transforms :
  ¬ (∃ isNote noteToMidi Number_toString StringToNumber controls,
       controls_of isNote noteToMidi Number_toString StringToNumber
                   hap_with_cps 0.5%float = Normal controls
       ∧ prop "cps" controls = VNum 0.5%float)
  ∧ ¬ (∃ isNote noteToMidi Number_toString StringToNumber controls,
         controls_of isNote noteToMidi Number_toString StringToNumber
                     hap_with_roomsize 0.5%float = Normal controls
         ∧ prop "size" controls = VUndefined)
  ∧ ¬ (∃ isNote noteToMidi Number_toString StringToNumber controls,
         isNote (VStr "hello") = false
         ∧ controls_of isNote noteToMidi Number_toString StringToNumber
                       hap_with_odd_note 0.5%float = Normal controls
         ∧ prop "midinote" controls ≠ VUndefined).
Proof.
  split; [|split].
  - intros (isNote & noteToMidi & N2S & S2N & controls & Hc & Hcps).
    vm_compute in Hc. injection Hc as <-. vm_compute in Hcps. discriminate.
  - intros (isNote & noteToMidi & N2S & S2N & controls & Hc & Hsize).
    vm_compute in Hc. injection Hc as <-. vm_compute in Hsize. discriminate.
  - intros (isNote & noteToMidi & N2S & S2N & controls & Hnote & Hc & Hmid).
    vm_compute in Hc. rewrite Hnote in Hc. vm_compute in Hc.
    injection Hc as <-. by apply Hmid.
Qed.

(** A hap that goes through every transform but the note one:
    [s("sd").bank("tr909_").unit("c").speed(2).roomsize(0.5)] at tempo
    [0.5]. *)
Example hapToOscArgs_sample
    (isNote : jsval → bool) (noteToMidi : jsval → jsval → completion jsval)
    (Number_toString : float → string) (StringToNumber : string → float) :
  hapToOscArgs isNote noteToMidi Number_toString StringToNumber
    {| value := VObj [("s", VStr "sd"); ("bank", VStr "tr909_");
                      ("unit", VStr "c"); ("speed", VNum 2%float);
                      ("roomsize", VNum 0.5%float)];
       begin := Some 3%float; duration := Some 0.25%float |} 0.5%float
  = Normal [OscS "cps"; OscF 0.5%float; OscS "cycle"; OscF 3%float;
            OscS "delta"; OscF 0.5%float; OscS "s"; OscS "tr909_sd";
            OscS "bank"; OscS "tr909_"; OscS "unit"; OscS "c";
            OscS "speed"; OscF 4%float; OscS "roomsize"; OscF 0.5%float;
            OscS "size"; OscF 0.5%float].
Proof. reflexivity. Qed.

(** The datagram of [hap_with_roomsize] at tempo [0.5], with library
    functions that know no note. *)
Lemma hapToOscArgs_names_once_witness :
  ∃ fields,
    [OscS "cps"; OscF 0.5%float; OscS "cycle"; OscF 3%float;
     OscS "delta"; OscF 0.5%float; OscS "s"; OscS "bd";
     OscS "roomsize"; OscF 0.75%float; OscS "size"; OscF 0.75%float]
    = flat_map (fun p => [OscS (fst p); snd p]) fields
    ∧ 12 = 2 * length fields
    ∧ NoDup (map fst fields)
    ∧ ∀ k, k ∈ map fst fields →
           k ∈ ["cps"; "cycle"; "delta"; "midinote"; "size"]
           ∨ has_prop k (own_entries (js_or (value hap_with_roomsize) (VObj []))) = true.
Proof.
  apply (hapToOscArgs_names_once (fun _ => false) (fun _ _ => Normal VNull)
           (fun _ => "") (fun _ => 0%float) hap_with_roomsize 0.5%float).
  reflexivity.
Defined.

End OscOutput.

(** ** The process supervisor ([lua/strudel/utils.lua]) *)

Module Utils.

(** [line:match(pattern)] for a pattern without magic characters, such as
    ['listening on']: the line contains the pattern's text. *)
Fixpoint contains (pattern line : string) : bool :=
  String.prefix pattern line
  || match line with
     | EmptyString => false
     | String _ rest => contains pattern rest
     end.

Section StartServer.

(** The caller's [on_start]; [None] when it was not given. *)
Variable callback : Type.
Variable on_start : option callback.

(** What the [on_stdout] handler does that can be seen from outside. *)
Inductive event : Type :=
  | Debug (msg : string)        (* M.debug(msg) *)
  | Schedule (f : callback).    (* vim.schedule(f) *)

(** The locals of [M.start_server] that [on_stdout] closes over. *)
Record job : Type := {
  stdout_chunks : list string;
  started : bool
}.

Definition initial : job := {| stdout_chunks := []; started := false |}.

(** The body of the [for _, line in ipairs(data)] loop. *)
Definition on_line (st : job) (line : string) : job * list event :=
  if negb (String.eqb line "") then
    let st := {| stdout_chunks := stdout_chunks st ++ [line];
                 started := started st |} in
    let forwarded := Debug ("[server] " +:+ line) in
    (* Detect when server is ready *)
    if negb (started st) && contains "listening on" line then
      ({| stdout_chunks := stdout_chunks st; started := true |},
       forwarded :: match on_start with
                    | Some f => [Schedule f]
                    | None => []
                    end)
    else (st, [forwarded])
  else (st, []).

(** One call of [on_stdout(_, data)]. *)
Fixpoint on_stdout (st : job) (data : list string) : job * list event :=
  match data with
  | [] => (st, [])
  | line :: rest =>
      let '(st1, out1) := on_line st line in
      let '(st2, out2) := on_stdout st1 rest in
      (st2, out1 ++ out2)
  end.

(** The successive calls of [on_stdout] during the life of the job. *)
Fixpoint run (st : job) (calls : list (list string)) : job * list event :=
  match calls with
  | [] => (st, [])
  | data :: rest =>
      let '(st1, out1) := on_stdout st data in
      let '(st2, out2) := run st1 rest in
      (st2, out1 ++ out2)
  end.

(** *** Reading the events *)

Definition forwarded (line : string) : event := Debug ("[server] " +:+ line).

Definition nonempty (line : string) : bool := negb (String.eqb line "").

Definition ready (line : string) : bool := contains "listening on" line.

Definition is_schedule (e : event) : bool :=
  match e with Schedule _ => true | Debug _ => false end.

Definition is_debug (e : event) : bool :=
  match e with Debug _ => true | Schedule _ => false end.

Definition notify : list event :=
  match on_start with Some f => [Schedule f] | None => [] end.

Lemma on_stdout_app (st : job) (data more : list string) :
  on_stdout st (data ++ more)
  = let '(st1, out1) := on_stdout st data in
    let '(st2, out2) := on_stdout st1 more in
    (st2, out1 ++ out2).
Proof.
  revert st. induction data as [|line data IH]; intros st; cbn [on_stdout app].
  - by destruct (on_stdout st more).
  - destruct (on_line st line) as [st1 out1]. rewrite IH.
    destruct (on_stdout st1 data) as [st2 out2].
    destruct (on_stdout st2 more) as [st3 out3].
    by rewrite (assoc_L (++)).
Qed.

Lemma run_flat (st : job) (calls : list (list string)) :
  run st calls = on_stdout st (concat calls).
Proof.
  revert st. induction calls as [|data calls IH]; intros st; [done|].
  cbn [run concat]. rewrite on_stdout_app.
  destruct (on_stdout st data) as [st1 out1]. by rewrite IH.
Qed.

(** Once the flag is set, lines are only forwarded. *)
Lemma on_stdout_started (st : job) (lines : list string) :
  started st = true →
  snd (on_stdout st lines) = map forwarded (filter (fun l => nonempty l = true) lines).
Proof.
  revert st. induction lines as [|line lines IH]; intros st Hst; [done|].
  cbn [on_stdout]. unfold on_line.
  destruct (String.eqb line "") eqn:Hne; cbn [negb started].
  - rewrite filter_cons_False by (unfold nonempty; by rewrite Hne).
    specialize (IH st Hst). destruct (on_stdout st lines) as [st2 out2]. by cbn in *.
  - rewrite filter_cons_True by (unfold nonempty; by rewrite Hne).
    rewrite Hst. cbn [negb andb].
    specialize (IH {| stdout_chunks := stdout_chunks st ++ [line]; started := true |} eq_refl).
    destruct (on_stdout _ lines) as [st2 out2]. cbn in *. by rewrite IH.
Qed.

(** Before that, lines are forwarded until the first one that carries the
    marker, which is forwarded and followed by the notification. *)
Lemma on_stdout_waiting (st : job) (lines : list string) :
  started st = false →
  snd (on_stdout st lines)
  = match list_find (fun l => ready l = true)
                    (filter (fun l => nonempty l = true) lines) with
    | Some (i, line) =>
        map forwarded (take (S i) (filter (fun l => nonempty l = true) lines))
        ++ notify
        ++ map forwarded (drop (S i) (filter (fun l => nonempty l = true) lines))
    | None => map forwarded (filter (fun l => nonempty l = true) lines)
    end.
Proof.
  revert st. induction lines as [|line lines IH]; intros st Hst; [done|].
  cbn [on_stdout]. unfold on_line.
  destruct (String.eqb line "") eqn:Hne; cbn [negb started].
  - rewrite filter_cons_False by (unfold nonempty; by rewrite Hne).
    specialize (IH st Hst). destruct (on_stdout st lines) as [st2 out2]. by cbn in *.
  - rewrite filter_cons_True by (unfold nonempty; by rewrite Hne).
    rewrite Hst. cbn [negb andb]. fold (ready line).
    destruct (ready line) eqn:Hr.
    + cbn [list_find]. rewrite decide_True by done. cbn [take drop map app].
      pose proof (on_stdout_started
        {| stdout_chunks := stdout_chunks st ++ [line]; started := true |}
        lines eq_refl) as Hrest.
      destruct (on_stdout _ lines) as [st2 out2]. cbn in *. rewrite Hrest.
      unfold notify, forwarded. by destruct on_start.
    + cbn [list_find]. rewrite decide_False by (by rewrite Hr).
      specialize (IH {| stdout_chunks := stdout_chunks st ++ [line]; started := false |} eq_refl).
      destruct (on_stdout _ lines) as [st2 out2]. cbn [snd] in *. rewrite IH.
      destruct (list_find _ _) as [[i l]|]; cbn; done.
Qed.

Lemma filter_debug_forwarded (lines : list string) :
  filter (fun e => is_debug e = true) (map forwarded lines) = map forwarded lines.
Proof.
  induction lines as [|l lines IH]; [done|].
  cbn [map]. rewrite filter_cons_True by done. by rewrite IH.
Qed.

Lemma filter_schedule_forwarded (lines : list string) :
  filter (fun e => is_schedule e = true) (map forwarded lines) = [].
Proof.
  induction lines as [|l lines IH]; [done|].
  cbn [map]. by rewrite filter_cons_False.
Qed.

Lemma filter_debug_notify : filter (fun e => is_debug e = true) notify = [].
Proof. unfold notify. destruct on_start; [by rewrite filter_cons_False | done]. Qed.

Lemma filter_schedule_notify : filter (fun e => is_schedule e = true) notify = notify.
Proof. unfold notify. destruct on_start; [by rewrite filter_cons_True | done]. Qed.

Lemma list_find_first (lines after : list string) (line : string) :
  Forall (fun l => ready l = false) lines →
  ready line = true →
  list_find (fun l => ready l = true) (lines ++ line :: after)
  = Some (length lines, line).
Proof.
  intros Hbefore Hline. induction Hbefore as [|l lines Hl _ IH]; cbn [app list_find].
  - by rewrite decide_True.
  - rewrite decide_False by (by rewrite Hl). by rewrite IH.
Qed.

(** The handler takes every item of [data] for a line.  Whatever the
    calls of [on_stdout] are given: every non-empty item is forwarded to
    the debug sink, in order; the callback is scheduled once when some
    non-empty item carries the marker and never when none does; and it is
    scheduled right after the first such item was forwarded, all later
    items, marked or not, being forwarded only. *)
Theorem start_server_notifies_once (calls : list (list string)) :
  let lines := filter (fun l => nonempty l = true) (concat calls) in
  let events := snd (run initial calls) in
  filter (fun e => is_debug e = true) events = map forwarded lines
  ∧ filter (fun e => is_schedule e = true) events
    = (if decide (Exists (fun l => ready l = true) lines)
       then match on_start with Some f => [Schedule f] | None => [] end
       else [])
  ∧ (∀ before line after,
       lines = before ++ line :: after →
       Forall (fun l => ready l = false) before →
       ready line = true →
       events
       = map forwarded before ++ [forwarded line]
         ++ match on_start with Some f => [Schedule f] | None => [] end
         ++ map forwarded after).
Proof.
  intros lines events. subst events. rewrite run_flat.
  rewrite (on_stdout_waiting initial (concat calls) eq_refl). fold lines.
  fold notify.
  destruct (list_find (fun l => ready l = true) lines) as [[i line]|] eqn:Hfind.
  - split; [|split].
    + rewrite !filter_app, !filter_debug_forwarded, filter_debug_notify.
      cbn [app]. by rewrite <- map_app, take_drop.
    + rewrite !filter_app, !filter_schedule_forwarded, filter_schedule_notify.
      rewrite app_nil_r. cbn [app].
      rewrite decide_True; [done|].
      apply list_find_Some in Hfind as (Hi & Hr & _).
      apply Exists_exists. exists line. split; [|done].
      by apply list_elem_of_lookup_2 in Hi.
    + intros before line' after Hlines Hbefore Hline'.
      rewrite Hlines in Hfind |- *.
      rewrite (list_find_first _ _ _ Hbefore Hline') in Hfind.
      injection Hfind as <- <-.
      replace (before ++ line' :: after) with ((before ++ [line']) ++ after)
        by (by rewrite <- (assoc_L (++))).
      rewrite take_app_length', drop_app_length'
        by (rewrite length_app; cbn; lia).
      rewrite map_app. cbn [map]. by rewrite <- !(assoc_L (++)).
  - split; [|split].
    + apply filter_debug_forwarded.
    + rewrite filter_schedule_forwarded.
      rewrite decide_False; [done|].
      apply list_find_None in Hfind. intros Hex.
      apply Exists_exists in Hex as (l & Hl & Hr).
      rewrite Forall_forall in Hfind. by apply (Hfind l).
    + intros before line' after Hlines Hbefore Hline'.
      rewrite Hlines in Hfind.
      by rewrite (list_find_first _ _ _ Hbefore Hline') in Hfind.
Qed.

(** *** What [on_stdout] is given *)

Definition newline : ascii := "010"%char.

(** The job is started without [stdout_buffered]: [on_stdout] is called
    for every read of the job's output, with the pieces of that read
    between its newlines.  The last item is the beginning of a line whose
    rest comes first in the next call; it is empty when the read ends
    with a newline. *)
Fixpoint channel_lines (read : string) : list string :=
  match read with
  | EmptyString => [""]
  | String c rest =>
      if Ascii.eqb c newline then "" :: channel_lines rest
      else
        match channel_lines rest with
        | first :: others => String c first :: others
        | [] => [String c ""]
        end
  end.

(** What the job printed, the reads put together. *)
Definition output_of (reads : list string) : string := foldr String.append "" reads.

(** The marker test: the line holds the text of the pattern somewhere. *)
Lemma prefix_spec (pattern line : string) :
  String.prefix pattern line = true ↔ ∃ after, line = pattern +:+ after.
Proof.
  revert line. induction pattern as [|c pattern IH]; intros line.
  - split; [intros _; by exists line | by destruct line].
  - destruct line as [|c' line]; cbn [String.prefix].
    + split; [done | by intros [after ?]].
    + destruct (ascii_dec c c') as [<- | Hne].
      * rewrite IH. split; intros [after H]; exists after.
        -- by rewrite H.
        -- by injection H.
      * split; [done|]. intros [after H]. by injection H.
Qed.

Lemma contains_spec (pattern line : string) :
  contains pattern line = true
  ↔ ∃ before after, line = before +:+ pattern +:+ after.
Proof.
  induction line as [|c line IH]; cbn [contains].
  - rewrite orb_false_r, prefix_spec. split.
    + intros [after H]. by exists "", after.
    + intros (before & after & H). destruct before; [by exists after | done].
  - rewrite orb_true_iff, IH, prefix_spec. split.
    + intros [[after H] | (before & after & H)].
      * by exists "", after.
      * exists (String c before), after. by rewrite H.
    + intros (before & after & H). destruct before as [|c' before].
      * left. by exists after.
      * right. exists before, after. by injection H.
Qed.

Lemma channel_lines_cons (read : string) :
  ∃ first others, channel_lines read = first :: others.
Proof.
  induction read as [|c read (first & others & IH)]; cbn [channel_lines].
  - by eexists _, _.
  - destruct (Ascii.eqb c newline); [by eexists _, _|].
    rewrite IH. by eexists _, _.
Qed.

Lemma channel_lines_newline (before after : string) :
  channel_lines (before +:+ String newline after)
  = channel_lines before ++ channel_lines after.
Proof.
  induction before as [|c before IH].
  - done.
  - change (String c before +:+ String newline after)
      with (String c (before +:+ String newline after)).
    cbn [channel_lines]. rewrite IH.
    destruct (Ascii.eqb c newline); [done|].
    by destruct (channel_lines_cons before) as (first & others & ->).
Qed.

(** A read that ends where a line ends. *)
Definition whole_lines (read : string) : Prop :=
  ∃ body, read = body +:+ String newline "".

Lemma channel_lines_whole (reads : list string) :
  Forall whole_lines reads →
  filter (fun l => nonempty l = true) (concat (map channel_lines reads))
  = filter (fun l => nonempty l = true) (channel_lines (output_of reads)).
Proof.
  induction 1 as [|read reads [body ->] _ IH]; [done|].
  cbn [map concat output_of foldr]. fold (output_of reads).
  assert (Happ : (body +:+ String newline "") +:+ output_of reads
                 = body +:+ String newline (output_of reads)).
  { clear. induction body as [|c body IH]; [done|].
    change (String c ((body +:+ String newline "") +:+ output_of reads)
            = String c (body +:+ String newline (output_of reads))).
    by rewrite IH. }
  rewrite Happ, !channel_lines_newline, !filter_app, IH.
  cbn [channel_lines]. by rewrite filter_cons_False, filter_nil, app_nil_r.
Qed.

Lemma ready_spec (line : string) :
  ready line = true ↔ ∃ before after, line = before +:+ "listening on" +:+ after.
Proof. apply contains_spec. Qed.

(** When every read ends where a line ends, the items are the lines the
    job printed, and the callback is one-shot: every non-empty line is
    forwarded, and the callback is scheduled once, right after the first
    line that holds the marker was forwarded. *)
Lemma start_server_on_whole_lines (reads : list string) :
  Forall whole_lines reads →
  let lines := filter (fun l => nonempty l = true) (channel_lines (output_of reads)) in
  let events := snd (run initial (map channel_lines reads)) in
  filter (fun e => is_debug e = true) events = map forwarded lines
  ∧ filter (fun e => is_schedule e = true) events
    = (if decide (Exists (fun l => ready l = true) lines)
       then match on_start with Some f => [Schedule f] | None => [] end
       else [])
  ∧ (∀ before line after,
       lines = before ++ line :: after →
       Forall (fun l => ready l = false) before →
       ready line = true →
       events
       = map forwarded before ++ [forwarded line]
         ++ match on_start with Some f => [Schedule f] | None => [] end
         ++ map forwarded after).
Proof.
  intros Hwhole lines events. subst lines events.
  rewrite <- (channel_lines_whole reads Hwhole).
  apply (start_server_notifies_once (map channel_lines reads)).
Qed.
End StartServer.

(** The engine prints a banner, then the readiness line, and later another
    line with the marker: one notification, after the second line. *)
Example start_server_sample :
  snd (run nat (Some 7) initial
         [["strudel engine"; ""]; ["listening on 127.0.0.1:37812"];
          [""; "client connected"; "still listening on 37812"]])
  = [Debug nat "[server] strudel engine";
     Debug nat "[server] listening on 127.0.0.1:37812";
     Schedule nat 7;
     Debug nat "[server] client connected";
     Debug nat "[server] still listening on 37812"].
Proof. reflexivity. Qed.

(** C8 fails on the code at this input.  The engine prints a banner and
    the readiness line.  Read in one piece, the two lines are forwarded
    and the callback is scheduled.  Read in two pieces, the first of which
    ends inside the marker, the handler is given the two parts of the
    readiness line as two items: neither holds the marker, both are
    forwarded as lines of their own, and the callback is never scheduled,
    whatever is printed afterwards without the marker. *)
Theorem start_server_misses_a_split_line
    (callback : Type) (f : callback) (later : list string) :
  let output :=
    "strudel engine" +:+ String newline "listening on 127.0.0.1:37812"
    +:+ String newline "" in
  let first := "strudel engine" +:+ String newline "listen" in
  let second := "ing on 127.0.0.1:37812" +:+ String newline "" in
  first +:+ second = output
  ∧ channel_lines output = ["strudel engine"; "listening on 127.0.0.1:37812"; ""]
  ∧ snd (run callback (Some f) initial [channel_lines output])
    = [Debug callback "[server] strudel engine";
       Debug callback "[server] listening on 127.0.0.1:37812";
       Schedule callback f]
  ∧ channel_lines first = ["strudel engine"; "listen"]
  ∧ channel_lines second = ["ing on 127.0.0.1:37812"; ""]
  ∧ snd (run callback (Some f) initial [channel_lines first; channel_lines second])
    = [Debug callback "[server] strudel engine";
       Debug callback "[server] listen";
       Debug callback "[server] ing on 127.0.0.1:37812"]
  ∧ (Forall (fun l => ready l = false) later →
     filter (fun e => is_schedule callback e = true)
            (snd (run callback (Some f) initial
                    [channel_lines first; channel_lines second; later]))
     = []).
Proof.
  intros output first second.
  repeat (split; [vm_compute; reflexivity|]).
  intros Hlater.
  destruct (start_server_notifies_once callback (Some f)
              [channel_lines first; channel_lines second; later])
    as (_ & Hschedule & _).
  rewrite Hschedule. rewrite decide_False; [done|].
  intros Hex. apply Exists_exists in Hex as (l & Hl & Hr).
  apply list_elem_of_filter in Hl as [_ Hl].
  change (concat [channel_lines first; channel_lines second; later])
    with (channel_lines first ++ channel_lines second ++ later ++ []) in Hl.
  rewrite app_nil_r in Hl.
  rewrite Forall_forall in Hlater.
  assert (Hfirst : channel_lines first = ["strudel engine"; "listen"])
    by (vm_compute; reflexivity).
  assert (Hsecond : channel_lines second = ["ing on 127.0.0.1:37812"; ""])
    by (vm_compute; reflexivity).
  rewrite Hfirst, Hsecond in Hl. cbn [app] in Hl.
  repeat (apply elem_of_cons in Hl as [-> | Hl]; [by vm_compute in Hr|]).
  by rewrite (Hlater l Hl) in Hr.
Qed.

(** *** The job handle ([M._server_job]) *)

Section Supervisor.

(** Lua's conversion of a number to a string, for the exit code in the
    warning. *)
Variable tostring : Z → string.

(** What the supervisor does that can be seen from outside. *)
Inductive action : Type :=
  | Jobstart (cmd : list string)    (* vim.fn.jobstart(cmd, ...) *)
  | Jobstop (job : Z)               (* vim.fn.jobstop(job) *)
  | LogDebug (msg : string)         (* M.debug(msg) *)
  | LogInfo (msg : string)          (* M.log(msg) *)
  | LogWarn (msg : string)          (* M.warn(msg) *)
  | LogError (msg : string).        (* M.error(msg) *)

(** [M.start_server(cmd, on_start)] on the handle [server_job] ([None]
    for [nil]): the result, the handle afterwards and what was done.
    [job] is what [vim.fn.jobstart] returns when it is called: the id of
    the new job, or [0] or [-1] when it could not be started. *)
Definition start_server (cmd : option (list string)) (job : Z) (server_job : option Z)
  : bool * option Z * list action :=
  match server_job with
  | Some _ => (true, server_job, [LogDebug "Server already running"])
  | None =>
      match cmd with
      | None | Some [] => (false, None, [LogError "No server command configured"])
      | Some cmd =>
          let starting :=
            [LogInfo ("Starting server: " +:+ String.concat " " cmd); Jobstart cmd] in
          if (job <=? 0)%Z
          then (false, None, starting ++ [LogError "Failed to start server"])
          else (true, Some job, starting)
      end
  end.

(** [M.stop_server(signal)] *)
Definition stop_server (signal : option string) (server_job : option Z)
  : option Z * list action :=
  match server_job with
  | Some job =>
      let signal := default "term" signal in
      (None,
       (if String.eqb signal "kill" then [Jobstop job] else [Jobstop job])
       ++ [LogInfo "Server stopped"])
  | None => (None, [])
  end.

(** The [on_exit] handler of a job. *)
Definition on_exit (code : Z) (server_job : option Z) : option Z * list action :=
  (None,
   if negb (code =? 0)%Z
   then [LogWarn ("Server exited with code " +:+ tostring code)]
   else [LogDebug "Server stopped"]).

(** [M.is_server_running()]; [listening] is the outcome of the connection
    test, which is made only when no job is held. *)
Definition is_server_running (listening : bool) (server_job : option Z) : bool :=
  match server_job with
  | Some _ => true
  | None => listening
  end.

(** What happens to the supervisor, in order. *)
Inductive call : Type :=
  | Start (cmd : option (list string)) (job : Z)
  | Stop (signal : option string)
  | Exited (code : Z).

Definition supervise (c : call) (server_job : option Z) : option Z * list action :=
  match c with
  | Start cmd job =>
      let '(_, server_job, done) := start_server cmd job server_job in (server_job, done)
  | Stop signal => stop_server signal server_job
  | Exited code => on_exit code server_job
  end.

Fixpoint supervise_all (calls : list call) (server_job : option Z)
  : option Z * list action :=
  match calls with
  | [] => (server_job, [])
  | c :: rest =>
      let '(server_job, done) := supervise c server_job in
      let '(server_job, more) := supervise_all rest server_job in
      (server_job, done ++ more)
  end.

(** The handle is [nil] or the id of a job that [jobstart] started. *)
Definition started_by (calls : list call) (server_job : option Z) : Prop :=
  match server_job with
  | Some job => (0 < job)%Z ∧ ∃ cmd, cmd ≠ [] ∧ Start (Some cmd) job ∈ calls
  | None => True
  end.

Lemma supervise_started_by (before : list call) (c : call) (server_job : option Z) :
  started_by before server_job →
  started_by (before ++ [c]) (fst (supervise c server_job)).
Proof.
  intros Hh. destruct c as [cmd job|signal|code]; cbn [supervise].
  - unfold start_server. destruct server_job as [held|].
    + cbn. destruct Hh as (Hpos & cmd' & Hne & Hin). split; [done|].
      exists cmd'. split; [done|]. apply elem_of_app. by left.
    + destruct cmd as [[|arg cmd]|]; [done| |done].
      destruct (Z.leb_spec job 0); [done|]. cbn. split; [done|].
      exists (arg :: cmd). split; [done|]. apply elem_of_app. right.
      by apply list_elem_of_singleton.
  - unfold stop_server. by destruct server_job.
  - done.
Qed.

Lemma supervise_all_started_by (before calls : list call) (server_job : option Z) :
  started_by before server_job →
  started_by (before ++ calls) (fst (supervise_all calls server_job)).
Proof.
  revert before server_job. induction calls as [|c calls IH]; intros before h Hh.
  - by rewrite app_nil_r.
  - cbn [supervise_all].
    pose proof (supervise_started_by before c h Hh) as Hc.
    destruct (supervise c h) as [h1 done1]. cbn [fst] in Hc.
    specialize (IH (before ++ [c]) h1 Hc).
    destruct (supervise_all calls h1) as [h2 done2]. cbn [fst] in IH |- *.
    by rewrite <- (assoc_L (++)) in IH.
Qed.

(** X6.  The job handle of the supervisor.  After any sequence of starts,
    stops and job exits, the handle is [nil] or the positive id that
    [jobstart] returned for a non-empty command; a further
    [start_server] returns [true] exactly when a handle is held
    afterwards, in which case [is_server_running] is [true] without a
    connection test, and it calls [jobstart] only when no handle was held
    and the command is not empty; [stop_server] leaves no handle, stops
    the held job only, does the same for every signal, and does nothing
    when called again. *)
Theorem start_server_holds_started_jobs (calls : list call) :
  let server_job := fst (supervise_all calls None) in
  started_by calls server_job
  ∧ (∀ cmd job,
       let '(ok, held, done) := start_server cmd job server_job in
       ok = bool_decide (is_Some held)
       ∧ (ok = true → ∀ listening, is_server_running listening held = true)
       ∧ (∀ cmd', Jobstart cmd' ∈ done →
                  server_job = None ∧ cmd = Some cmd' ∧ cmd' ≠ []))
  ∧ (∀ signal,
       let '(held, done) := stop_server signal server_job in
       held = None
       ∧ (∀ job, Jobstop job ∈ done → server_job = Some job)
       ∧ (∀ signal', stop_server signal' server_job = (held, done))
       ∧ stop_server signal held = (None, [])).
Proof.
  intros server_job. split; [apply (supervise_all_started_by [] calls None I)|].
  split.
  - intros cmd job. unfold start_server. destruct server_job as [held|].
    + split; [by rewrite bool_decide_eq_true_2|]. split; [done|].
      intros cmd' Hin. apply list_elem_of_singleton in Hin. done.
    + destruct cmd as [[|arg cmd]|].
      * split; [by rewrite bool_decide_eq_false_2 by (by intros [? ?])|].
        split; [done|]. intros cmd' Hin. by apply list_elem_of_singleton in Hin.
      * destruct (Z.leb_spec job 0).
        -- split; [by rewrite bool_decide_eq_false_2 by (by intros [? ?])|].
           split; [done|]. intros cmd' Hin. cbn [app] in Hin.
           rewrite !elem_of_cons in Hin.
           destruct Hin as [Hin | [Hin | [Hin | Hin]]];
             [discriminate Hin | injection Hin as ->; by repeat split
             | discriminate Hin | by apply elem_of_nil in Hin].
        -- split; [by rewrite bool_decide_eq_true_2|]. split; [done|].
           intros cmd' Hin. rewrite !elem_of_cons in Hin.
           destruct Hin as [Hin | [Hin | Hin]];
             [discriminate Hin | injection Hin as ->; by repeat split
             | by apply elem_of_nil in Hin].
      * split; [by rewrite bool_decide_eq_false_2 by (by intros [? ?])|].
        split; [done|]. intros cmd' Hin. by apply list_elem_of_singleton in Hin.
  - intros signal. unfold stop_server. destruct server_job as [held|].
    + split; [done|]. split; [|split; [|done]].
      * intros job Hin. destruct (String.eqb _ "kill"); cbn [app] in Hin;
          rewrite !elem_of_cons in Hin;
          (destruct Hin as [Hin | [Hin | Hin]];
             [by injection Hin as <- | discriminate Hin | by apply elem_of_nil in Hin]).
      * intros signal'.
        by destruct (String.eqb (default "term" signal) "kill"),
                    (String.eqb (default "term" signal') "kill").
    + split; [done|]. split; [|done]. intros job Hin. by apply elem_of_nil in Hin.
Qed.

End Supervisor.

(** *** The log file *)

(** The table [LOG_LEVELS]; [None] for [nil]. *)
Definition LOG_LEVELS (name : string) : option nat :=
  if String.eqb name "debug" then Some 1
  else if String.eqb name "info" then Some 2
  else if String.eqb name "warn" then Some 3
  else if String.eqb name "error" then Some 4
  else None.

(** [vim.log.levels] *)
Module levels.
Definition TRACE : Z := 0.
Definition DEBUG : Z := 1.
Definition INFO : Z := 2.
Definition WARN : Z := 3.
Definition ERROR : Z := 4.
Definition OFF : Z := 5.
End levels.

(** [s:upper()] on the letters of the log levels. *)
Definition upper_char (c : ascii) : ascii :=
  let n := nat_of_ascii c in
  if (97 <=? n) && (n <=? 122) then ascii_of_nat (n - 32) else c.

Fixpoint upper (s : string) : string :=
  match s with
  | EmptyString => EmptyString
  | String c rest => String (upper_char c) (upper rest)
  end.

(** [config.log]; a field is [None] when it is [nil]. *)
Record log_config : Type := {
  enabled : bool;
  path : option string;
  level : option string
}.

(** What [io.open(log_path, 'a')] returns: a handle, or [nil] and a
    message. *)
Inductive opening : Type :=
  | Opened
  | NotOpened (err : option string).

(** The locals [log_file] and [log_path] of the module, the files, and
    the calls of [vim.notify].  An open handle is known by the path it was
    opened on; what is written through it goes to the end of that file. *)
Record logger : Type := {
  log_file : option string;
  log_path : option string;
  disk : gmap string string;
  notified : list (string * Z)
}.

Definition write (f s : string) (d : gmap string string) : gmap string string :=
  <[f := default "" (d !! f) +:+ s]> d.

Section Logging.

(** [require('strudel.config').get().log], [vim.fn.stdpath('state')] with
    the file name, and [vim.g.strudel_debug]. *)
Variable config_log : option log_config.
Variable default_log_path : string.
Variable strudel_debug : bool.

(** [os.date(format)] at a given time, and the outcome of [io.open] on a
    path at a given time.  The creation of the parent directory shows
    only in that outcome. *)
Variable os_date : string → nat → string.
Variable io_open : nat → string → opening.

Definition session_started (now : nat) : string :=
  String "010" "--- Strudel session started: " +:+ os_date "%Y-%m-%d %H:%M:%S" now
  +:+ " ---" +:+ String "010" "".

Definition get_log_file (now : nat) (st : logger) : option string * logger :=
  match config_log with
  | None => (None, st)
  | Some cfg =>
      if negb (enabled cfg) then (None, st)
      else
        match log_file st with
        | Some f => (Some f, st)
        | None =>
            let p := default default_log_path (path cfg) in
            match io_open now p with
            | NotOpened err =>
                (None,
                 {| log_file := None; log_path := Some p; disk := disk st;
                    notified := notified st
                      ++ [("[strudel] Failed to open log file: "
                           +:+ default "unknown error" err, levels.ERROR)] |})
            | Opened =>
                (Some p,
                 {| log_file := Some p; log_path := Some p;
                    disk := write p (session_started now) (disk st);
                    notified := notified st |})
            end
        end
  end.

(** [string.format('[%s] [%s] %s\n', timestamp, level:upper(), msg)] *)
Definition log_line (now : nat) (level msg : string) : string :=
  "[" +:+ os_date "%H:%M:%S" now +:+ "] [" +:+ upper level +:+ "] " +:+ msg
  +:+ String "010" "".

(** [write_log(level, msg)]; the flag tells that an error was raised, by
    the comparison of a number with [nil]. *)
Definition write_log (level msg : string) (now : nat) (st : logger) : logger * bool :=
  let '(f, st) := get_log_file now st in
  match f with
  | None => (st, false)
  | Some f =>
      let min_level :=
        match config_log with
        | Some {| level := configured |} => default "debug" configured
        | None => "debug"
        end in
      match LOG_LEVELS level, LOG_LEVELS min_level with
      | Some l, Some m =>
          if l <? m then (st, false)
          else
            ({| log_file := log_file st; log_path := log_path st;
                disk := write f (log_line now level msg) (disk st);
                notified := notified st |}, false)
      | _, _ => (st, true)
      end
  end.

Definition level_name (level : Z) : string :=
  if (level =? levels.DEBUG)%Z then "debug"
  else if (level =? levels.WARN)%Z then "warn"
  else if (level =? levels.ERROR)%Z then "error"
  else "info".

(** [M.log(msg, level)] *)
Definition log (msg : string) (level : option Z) (now : nat) (st : logger)
  : logger * bool :=
  let level := default levels.INFO level in
  let st :=
    {| log_file := log_file st; log_path := log_path st; disk := disk st;
       notified := notified st ++ [("[strudel] " +:+ msg, level)] |} in
  write_log (level_name level) msg now st.

(** [M.error(msg)] and [M.warn(msg)] *)
Definition error (msg : string) : nat → logger → logger * bool :=
  log msg (Some levels.ERROR).

Definition warn (msg : string) : nat → logger → logger * bool :=
  log msg (Some levels.WARN).

(** [M.debug(msg)] *)
Definition debug (msg : string) (now : nat) (st : logger) : logger * bool :=
  let '(st, raised) := write_log "debug" msg now st in
  if raised then (st, true)
  else if strudel_debug then log ("[DEBUG] " +:+ msg) (Some levels.DEBUG) now st
  else (st, false).

(** [M.info(msg)] *)
Definition info (msg : string) : nat → logger → logger * bool :=
  write_log "info" msg.

(** The calls of the logging functions, each with the time it is made
    at. *)
Inductive log_call : Type :=
  | CallLog (msg : string) (level : option Z)
  | CallError (msg : string)
  | CallWarn (msg : string)
  | CallDebug (msg : string)
  | CallInfo (msg : string).

Definition call_log (c : log_call) : nat → logger → logger * bool :=
  match c with
  | CallLog msg level => log msg level
  | CallError msg => error msg
  | CallWarn msg => warn msg
  | CallDebug msg => debug msg
  | CallInfo msg => info msg
  end.

(** The calls in order; an error raised by one of them goes to its
    caller, and the flag tells whether any was. *)
Fixpoint call_all (calls : list (nat * log_call)) (st : logger) : logger * bool :=
  match calls with
  | [] => (st, false)
  | (now, c) :: rest =>
      let '(st, raised) := call_log c now st in
      let '(st, raised') := call_all rest st in
      (st, raised || raised')
  end.

(** *** Reading the log *)

(** The messages a call hands to [write_log], with their levels. *)
Definition messages (c : log_call) : list (string * string) :=
  match c with
  | CallLog msg level => [(level_name (default levels.INFO level), msg)]
  | CallError msg => [("error", msg)]
  | CallWarn msg => [("warn", msg)]
  | CallDebug msg =>
      ("debug", msg)
      :: (if strudel_debug then [("debug", "[DEBUG] " +:+ msg)] else [])
  | CallInfo msg => [("info", msg)]
  end.

(** The lines of the messages at or above the level of rank [m]. *)
Definition lines_of (m : nat) (now : nat) (msgs : list (string * string)) : string :=
  foldr (fun '(level, msg) rest =>
           match LOG_LEVELS level with
           | Some l => if l <? m then rest else log_line now level msg +:+ rest
           | None => rest
           end) "" msgs.

Fixpoint session (m : nat) (calls : list (nat * log_call)) : string :=
  match calls with
  | [] => ""
  | (now, c) :: rest => lines_of m now (messages c) +:+ session m rest
  end.

(** The content of a file, empty when there is none. *)
Definition content (st : logger) (f : string) : string :=
  default "" (disk st !! f).

(** The state once [get_log_file] has opened the file. *)
Definition opened (p : string) (now : nat) (st : logger) : logger :=
  {| log_file := Some p; log_path := Some p;
     disk := write p (session_started now) (disk st);
     notified := notified st |}.

(** [st'] is [st] with [s] at the end of the open log [p]. *)
Definition extends (p s : string) (st st' : logger) : Prop :=
  log_file st' = Some p
  ∧ content st' p = content st p +:+ s
  ∧ ∀ q, q ≠ p → disk st' !! q = disk st !! q.

Lemma append_empty (s : string) : s +:+ "" = s.
Proof.
  induction s as [|c s IH]; [done|].
  change (String c (s +:+ "") = String c s). by rewrite IH.
Qed.

Lemma append_assoc (s t u : string) : (s +:+ t) +:+ u = s +:+ t +:+ u.
Proof.
  induction s as [|c s IH]; [done|].
  change (String c ((s +:+ t) +:+ u) = String c (s +:+ t +:+ u)). by rewrite IH.
Qed.

Lemma extends_trans (p s t : string) (st st' st'' : logger) :
  extends p s st st' → extends p t st' st'' → extends p (s +:+ t) st st''.
Proof.
  intros (_ & Hc & Hq) (Hf & Hc' & Hq'). split; [done|]. split.
  - by rewrite Hc', Hc, append_assoc.
  - intros q Hne. by rewrite Hq', Hq.
Qed.

Lemma extends_refl (p : string) (st : logger) :
  log_file st = Some p → extends p "" st st.
Proof. intros Hf. split; [done|]. split; [by rewrite append_empty | done]. Qed.

Section Session.

Variable cfg : log_config.
Variable m : nat.
Hypothesis Hconfig : config_log = Some cfg.
Hypothesis Henabled : enabled cfg = true.
Hypothesis Hlevel : LOG_LEVELS (default "debug" (level cfg)) = Some m.

Lemma write_log_open (p lvl msg : string) (l now : nat) (st : logger) :
  log_file st = Some p → LOG_LEVELS lvl = Some l →
  ∃ st', write_log lvl msg now st = (st', false)
         ∧ extends p (lines_of m now [(lvl, msg)]) st st'
         ∧ notified st' = notified st.
Proof using Hconfig Henabled Hlevel.
  intros Hf Hl. unfold write_log, get_log_file.
  rewrite Hconfig, Henabled, Hf. cbn [negb]. destruct cfg as [e pa lv].
  cbn [level] in Hlevel. rewrite Hl, Hlevel.
  unfold lines_of. cbn [foldr]. rewrite Hl.
  destruct (l <? m).
  - exists st. split; [done|]. split; [by apply extends_refl | done].
  - eexists. split; [done|]. split; [|done].
    split; [done|]. unfold content, write. cbn [disk]. split.
    + by rewrite lookup_insert_eq, append_empty.
    + intros q Hq. by rewrite lookup_insert_ne.
Qed.

Lemma level_name_known (lv : Z) : ∃ l, LOG_LEVELS (level_name lv) = Some l.
Proof.
  unfold level_name. repeat case_match; by eexists.
Qed.

Lemma log_open (p msg : string) (lv : option Z) (now : nat) (st : logger) :
  log_file st = Some p →
  ∃ st', log msg lv now st = (st', false)
         ∧ extends p (lines_of m now [(level_name (default levels.INFO lv), msg)]) st st'.
Proof using Hconfig Henabled Hlevel.
  intros Hf. unfold log.
  destruct (level_name_known (default levels.INFO lv)) as [l Hl].
  match goal with |- context [write_log ?a ?b ?c ?s] =>
    destruct (write_log_open p a b l c s Hf Hl) as (st' & Hw & Hext & _)
  end.
  exists st'. split; [done|]. exact Hext.
Qed.

Lemma lines_of_app (now : nat) (a b : list (string * string)) :
  lines_of m now (a ++ b) = lines_of m now a +:+ lines_of m now b.
Proof.
  induction a as [|[lv msg] a IH]; [done|].
  cbn [app]. unfold lines_of in *. cbn [foldr]. rewrite IH.
  destruct (LOG_LEVELS lv) as [l|]; [|done].
  destruct (l <? m); [done|]. by rewrite append_assoc.
Qed.

Lemma call_log_open (p : string) (c : log_call) (now : nat) (st : logger) :
  log_file st = Some p →
  ∃ st', call_log c now st = (st', false)
         ∧ extends p (lines_of m now (messages c)) st st'.
Proof using Hconfig Henabled Hlevel.
  intros Hf. destruct c as [msg lv|msg|msg|msg|msg]; cbn [call_log messages].
  - by apply log_open.
  - by apply (log_open p msg (Some levels.ERROR)).
  - by apply (log_open p msg (Some levels.WARN)).
  - unfold debug.
    destruct (write_log_open p "debug" msg 1 now st Hf eq_refl)
      as (st1 & -> & Hext1 & _).
    destruct strudel_debug.
    + destruct (log_open p ("[DEBUG] " +:+ msg) (Some levels.DEBUG) now st1)
        as (st2 & -> & Hext2); [by destruct Hext1|].
      exists st2. split; [done|].
      pose proof (lines_of_app now [("debug", msg)]
                    [("debug", "[DEBUG] " +:+ msg)]) as Happ.
      cbn [app] in Happ. rewrite Happ. by apply (extends_trans _ _ _ _ st1).
    + exists st1. by split.
  - destruct (write_log_open p "info" msg 2 now st Hf eq_refl)
      as (st1 & Hw & Hext1 & _).
    exists st1. by split.
Qed.

Lemma call_all_open (p : string) (calls : list (nat * log_call)) (st : logger) :
  log_file st = Some p →
  ∃ st', call_all calls st = (st', false) ∧ extends p (session m calls) st st'.
Proof using Hconfig Henabled Hlevel.
  revert st. induction calls as [|[now c] calls IH]; intros st Hf.
  - exists st. split; [done|]. by apply extends_refl.
  - cbn [call_all session].
    destruct (call_log_open p c now st Hf) as (st1 & -> & Hext1).
    destruct (IH st1) as (st2 & -> & Hext2); [by destruct Hext1|].
    exists st2. split; [done|]. by apply (extends_trans _ _ _ _ st1).
Qed.

Lemma write_log_closed (lvl msg : string) (now : nat) (st : logger) :
  log_file st = None →
  io_open now (default default_log_path (path cfg)) = Opened →
  write_log lvl msg now st
  = write_log lvl msg now (opened (default default_log_path (path cfg)) now st).
Proof using Hconfig Henabled.
  intros Hf Hopen. unfold write_log, get_log_file.
  rewrite Hconfig, Henabled, Hf, Hopen. done.
Qed.

Lemma call_log_closed (c : log_call) (now : nat) (st : logger) :
  log_file st = None →
  io_open now (default default_log_path (path cfg)) = Opened →
  call_log c now st
  = call_log c now (opened (default default_log_path (path cfg)) now st).
Proof using Hconfig Henabled.
  intros Hf Hopen.
  destruct c as [msg lv|msg|msg|msg|msg]; cbn [call_log];
    unfold error, warn, debug, info, log;
    by rewrite write_log_closed.
Qed.

End Session.

(** X20.  The log of a session.  With logging enabled at one of the four
    levels, calls of the logging functions on a closed log never raise an
    error when the file can be opened at the first of them.  They leave
    the log open on the configured path (the default one when none is
    configured), every other file as it was, and at the end of the log the
    header written at the first call, whether or not its message passes
    the filter, followed by the lines of the messages at or above the
    configured level, in the order of the calls. *)
Theorem log_of_a_session
    (cfg : log_config) (m now : nat) (c : log_call)
    (calls : list (nat * log_call)) (st : logger) :
  config_log = Some cfg → enabled cfg = true →
  LOG_LEVELS (default "debug" (level cfg)) = Some m →
  log_file st = None →
  io_open now (default default_log_path (path cfg)) = Opened →
  let p := default default_log_path (path cfg) in
  ∃ st',
    call_all ((now, c) :: calls) st = (st', false)
    ∧ log_file st' = Some p
    ∧ content st' p
      = content st p +:+ session_started now +:+ session m ((now, c) :: calls)
    ∧ ∀ q, q ≠ p → disk st' !! q = disk st !! q.
Proof.
  intros Hconfig Henabled Hlevel Hf Hopen p.
  assert (Hfirst : call_all ((now, c) :: calls) st
                   = call_all ((now, c) :: calls) (opened p now st)).
  { cbn [call_all]. by rewrite (call_log_closed cfg Hconfig Henabled c now st). }
  destruct (call_all_open cfg m Hconfig Henabled Hlevel p ((now, c) :: calls)
              (opened p now st) eq_refl) as (st' & Hcalls & Hf' & Hc & Hq).
  exists st'. rewrite Hfirst. split; [done|]. split; [done|]. split.
  - rewrite Hc. unfold content, opened, write. cbn [disk].
    rewrite lookup_insert_eq. exact (append_assoc _ _ _).
  - intros q Hne. rewrite (Hq q Hne). unfold opened, write. cbn [disk].
    by rewrite lookup_insert_ne.
Qed.

(** X21.  A level that is not a level.  With logging enabled and a
    configured level that is none of [debug], [info], [warn] and [error],
    every call of a logging function raises an error as soon as the log
    is open or can be opened, whatever the level of the message. *)
Theorem unknown_level_raises
    (cfg : log_config) (now : nat) (c : log_call) (st : logger) :
  config_log = Some cfg → enabled cfg = true →
  LOG_LEVELS (default "debug" (level cfg)) = None →
  is_Some (log_file st)
  ∨ io_open now (default default_log_path (path cfg)) = Opened →
  snd (call_log c now st) = true.
Proof.
  intros Hconfig Henabled Hlevel Hopen.
  assert (Hw : ∀ lvl msg st0,
             log_file st0 = log_file st → snd (write_log lvl msg now st0) = true).
  { intros lvl msg st0 Hf. unfold write_log, get_log_file.
    rewrite Hconfig, Henabled. cbn [negb]. destruct cfg as [e pa lv].
    cbn [level path] in *. rewrite Hf.
    destruct Hopen as [[f Hst] | Hopen].
    - rewrite Hst, Hlevel. by destruct (LOG_LEVELS lvl).
    - destruct (log_file st); [|rewrite Hopen];
        rewrite Hlevel; by destruct (LOG_LEVELS lvl). }
  destruct c as [msg lv|msg|msg|msg|msg]; cbn [call_log];
    unfold error, warn, debug, info, log; try by apply Hw.
  specialize (Hw "debug" msg st eq_refl).
  destruct (write_log "debug" msg now st) as [st1 raised]. cbn [snd] in Hw.
  by rewrite Hw.
Qed.

End Logging.

(** A session at level [warn] on the default path, with
    [vim.g.strudel_debug] set: a debug message, then an error. *)
Definition warn_config : option log_config :=
  Some {| enabled := true; path := None; level := Some "warn" |}.

Definition noon (format : string) (now : nat) : string :=
  if String.eqb format "%H:%M:%S" then "12:00:00" else "2025-01-01 12:00:00".

Definition no_log : logger :=
  {| log_file := None; log_path := None; disk := ∅; notified := [] |}.

Lemma log_of_a_session_witness :
  ∃ st',
    call_all warn_config "/state/strudel.log" true noon (fun _ _ => Opened)
             [(0, CallDebug "tick"); (1, CallError "no engine")] no_log
    = (st', false)
    ∧ log_file st' = Some "/state/strudel.log"
    ∧ content st' "/state/strudel.log"
      = content no_log "/state/strudel.log"
        +:+ session_started noon 0
        +:+ session true noon 3 [(0, CallDebug "tick"); (1, CallError "no engine")]
    ∧ ∀ q, q ≠ "/state/strudel.log" → disk st' !! q = disk no_log !! q.
Proof.
  apply (log_of_a_session warn_config "/state/strudel.log" true noon
           (fun _ _ => Opened)
           {| enabled := true; path := None; level := Some "warn" |}
           3 0 (CallDebug "tick") [(1, CallError "no engine")] no_log);
    reflexivity.
Defined.

(** The same session when the level is spelt [warning]. *)
Lemma unknown_level_raises_witness :
  snd (call_log (Some {| enabled := true; path := None; level := Some "warning" |})
                "/state/strudel.log" true noon (fun _ _ => Opened)
                (CallError "no engine") 1 no_log)
  = true.
Proof.
  apply (unknown_level_raises
           (Some {| enabled := true; path := None; level := Some "warning" |})
           "/state/strudel.log" true noon (fun _ _ => Opened)
           {| enabled := true; path := None; level := Some "warning" |}
           1 (CallError "no engine") no_log);
    [reflexivity | reflexivity | reflexivity | right; reflexivity].
Defined.

(** What the session leaves in the log: the header and the error. *)
Example log_of_a_session_sample :
  session_started noon 0
  +:+ session true noon 3 [(0, CallDebug "tick"); (1, CallError "no engine")]
  = String "010" "--- Strudel session started: 2025-01-01 12:00:00 ---"
    +:+ String "010" "[12:00:00] [ERROR] no engine" +:+ String "010" "".
Proof. reflexivity. Qed.

End Utils.

(** ** The language server's engine link ([connectToEngine]) *)

Module Lsp.
Import JS.

(** A JavaScript string where single characters matter: its UTF-16 code
    units. *)
Definition text : Type := list Z.

(** *** [data.toString()]

    The socket has no encoding set, so [data] is a [Buffer] and
    [toString()] decodes it as UTF-8 on its own, every ill-formed or
    truncated sequence becoming U+FFFD. *)

(** A multi-byte sequence in progress: continuation bytes still to come,
    the bits read so far, and the range the next byte must lie in. *)
Record pending : Type := {
  more : nat;
  bits : Z;
  lo : Z;
  hi : Z
}.

Definition replacement : Z := 0xFFFD.

Definition utf16 (cp : Z) : text :=
  if (cp <? 0x10000)%Z then [cp]
  else
    let c := (cp - 0x10000)%Z in
    [(0xD800 + Z.shiftr c 10)%Z; (0xDC00 + Z.land c 0x3FF)%Z].

(** A byte met outside a sequence. *)
Definition lead (b : Z) : text * option pending :=
  if (b <=? 0x7F)%Z then ([b], None)
  else if ((0xC2 <=? b) && (b <=? 0xDF))%Z then
    ([], Some {| more := 1; bits := Z.land b 0x1F; lo := 0x80; hi := 0xBF |})
  else if ((0xE0 <=? b) && (b <=? 0xEF))%Z then
    ([], Some {| more := 2; bits := Z.land b 0xF;
                 lo := if (b =? 0xE0)%Z then 0xA0 else 0x80;
                 hi := if (b =? 0xED)%Z then 0x9F else 0xBF |})
  else if ((0xF0 <=? b) && (b <=? 0xF4))%Z then
    ([], Some {| more := 3; bits := Z.land b 0x7;
                 lo := if (b =? 0xF0)%Z then 0x90 else 0x80;
                 hi := if (b =? 0xF4)%Z then 0x8F else 0xBF |})
  else ([replacement], None).

Definition decode_byte (st : option pending) (b : Z) : text * option pending :=
  match st with
  | None => lead b
  | Some p =>
      if ((lo p <=? b) && (b <=? hi p))%Z then
        let bits := Z.lor (Z.shiftl (bits p) 6) (Z.land b 0x3F) in
        match more p with
        | S (S n) => ([], Some {| more := S n; bits := bits; lo := 0x80; hi := 0xBF |})
        | _ => (utf16 bits, None)
        end
      else
        let '(out, st') := lead b in (replacement :: out, st')
  end.

Fixpoint decode (st : option pending) (data : list byte) : text * option pending :=
  match data with
  | [] => ([], st)
  | b :: rest =>
      let '(out1, st1) := decode_byte st (Z.of_N (Byte.to_N b)) in
      let '(out2, st2) := decode st1 rest in
      (out1 ++ out2, st2)
  end.

Definition flush (st : option pending) : text :=
  match st with Some _ => [replacement] | None => [] end.

Definition toString (data : list byte) : text :=
  let '(out, st) := decode None data in out ++ flush st.

(** *** String primitives of the data handler *)

Definition newline : Z := 10.

(** [s.indexOf('\n')], [None] for [-1]. *)
Fixpoint indexOf_newline (s : text) : option nat :=
  match s with
  | [] => None
  | c :: rest =>
      if (c =? newline)%Z then Some 0
      else S <$> indexOf_newline rest
  end.

(** White space and line terminators, as [String.prototype.trim] removes
    them. *)
Definition is_space (c : Z) : bool :=
  ((9 <=? c) && (c <=? 13) || (c =? 32) || (c =? 0xA0) || (c =? 0x1680)
   || (0x2000 <=? c) && (c <=? 0x200A)
   || (c =? 0x2028) || (c =? 0x2029) || (c =? 0x202F) || (c =? 0x205F)
   || (c =? 0x3000) || (c =? 0xFEFF))%Z.

Fixpoint trim_start (s : text) : text :=
  match s with
  | c :: rest => if is_space c then trim_start rest else s
  | [] => []
  end.

Definition trim (s : text) : text :=
  reverse (trim_start (reverse (trim_start s))).

(** A string is truthy when it is not empty. *)
Definition nonempty (s : text) : bool :=
  match s with [] => false | _ => true end.

(** *** The link *)

Inductive status : Type :=
  | Connecting    (* created, the connect callback has not run *)
  | Open          (* connected *)
  | Destroyed     (* destroyed, its 'close' event is still to come *)
  | Closed.       (* 'close' was emitted *)

Record socket : Type := {
  remote_port : float;
  state : status
}.

Definition live (s : socket) : bool :=
  match state s with
  | Connecting | Open => true
  | Destroyed | Closed => false
  end.

(** A [setTimeout(() => tryConnect(newState), 500)] timer. *)
Record timer : Type := {
  due : nat;            (* milliseconds *)
  target : float;       (* newState.port *)
  armed : bool
}.

(** What [readEngineState] hands to the link: [{ port, pid }]. *)
Record EngineInfo : Type := {
  port : float;
  pid : jsval
}.

(** The module-level variables of the link, and the sockets and timers it
    has created (a socket or timer is known by its position). *)
Record world : Type := {
  engineSocket : option nat;
  engineBuffer : text;
  reconnectTimer : option nat;
  sockets : list socket;
  timers : list timer
}.

Definition start : world :=
  {| engineSocket := None; engineBuffer := []; reconnectTimer := None;
     sockets := []; timers := [] |}.

(** What the link does that can be seen from outside (log lines are left
    out). *)
Inductive output : Type :=
  | Created (s : nat) (port : float)     (* net.createConnection *)
  | Destroy (s : nat)                    (* engineSocket.destroy() *)
  | Request (s : nat) (type : string)    (* socket.write(...) *)
  | SetSamples (v : jsval)               (* dynamicSamples = v *)
  | SetBanks (v : jsval)                 (* dynamicBanks = v *)
  | Revalidate.                          (* documents.all().forEach(validateDocument) *)

(** What the runtime delivers to the link's callbacks. *)
Inductive input : Type :=
  | Watch (newState : option EngineInfo) (running : bool)
      (* the watcher's callback; [running] is [isEngineRunning(newState)] *)
  | Timeout (id : nat)
  | Connected (s : nat)
  | Data (s : nat) (data : list byte)
  | Error (s : nat)
  | Close (s : nat).

Definition set_state (s : nat) (st : status) (l : list socket) : list socket :=
  match l !! s with
  | Some sock => <[s := {| remote_port := remote_port sock; state := st |}]> l
  | None => l
  end.

(** [socket.destroy()]: nothing happens to a socket that is already
    destroyed. *)
Definition destroy (s : nat) (l : list socket) : list socket :=
  match l !! s with
  | Some sock => if live sock then set_state s Destroyed l else l
  | None => l
  end.

Definition disarm (id : nat) (l : list timer) : list timer :=
  match l !! id with
  | Some t => <[id := {| due := due t; target := target t; armed := false |}]> l
  | None => l
  end.

Definition is_live (w : world) (s : nat) : bool :=
  match sockets w !! s with
  | Some sock => live sock
  | None => false
  end.

(** The sockets that exist and are not destroyed. *)
Definition live_sockets (w : world) : list nat :=
  filter (fun s => is_live w s = true) (seq 0 (length (sockets w))).

Section Link.

Variable JSON_parse : text -> completion jsval.

(** [tryConnect(state)] up to the registration of the handlers. *)
Definition tryConnect (port : float) (w : world) : world * list output :=
  let '(w, out) :=
    match engineSocket w with
    | Some s =>
        ({| engineSocket := None; engineBuffer := engineBuffer w;
            reconnectTimer := reconnectTimer w;
            sockets := destroy s (sockets w); timers := timers w |},
         [Destroy s])
    | None => (w, [])
    end in
  let s := length (sockets w) in
  ({| engineSocket := engineSocket w; engineBuffer := engineBuffer w;
      reconnectTimer := reconnectTimer w;
      sockets := sockets w ++ [{| remote_port := port; state := Connecting |}];
      timers := timers w |},
   out ++ [Created s port]).

(** The connect callback of socket [s]. *)
Definition on_connect (s : nat) (w : world) : world * list output :=
  ({| engineSocket := Some s; engineBuffer := engineBuffer w;
      reconnectTimer := reconnectTimer w;
      sockets := set_state s Open (sockets w); timers := timers w |},
   [Request s "getSamples"; Request s "getBanks"; Request s "getSounds"]).

(** [handleEngineMessage(msg)]: the [switch (msg.type)]; a [sounds]
    message is only logged. *)
Definition handleEngineMessage (msg : jsval) : completion (list output) :=
  type ← get msg "type";
  if strict_eq type (VStr "samples") then
    (samples ← get msg "samples";
     Normal [SetSamples (js_or samples (VArr [])); Revalidate])
  else if strict_eq type (VStr "banks") then
    (banks ← get msg "banks";
     Normal [SetBanks (js_or banks (VArr [])); Revalidate])
  else Normal [].

(** The body of [if (line.trim())]: whatever is thrown while the line is
    parsed and handled is ignored. *)
Definition on_line (line : text) : list output :=
  if nonempty (trim line) then
    match try_catch (msg ← JSON_parse line; handleEngineMessage msg)
                    (fun _ => Normal []) with
    | Normal out => out
    | Throw _ => []
    end
  else [].

(** The [while ((newlineIndex = engineBuffer.indexOf('\n')) !== -1)] loop;
    [fuel] bounds the number of iterations. *)
Fixpoint drain (fuel : nat) (buffer : text) : list output * text :=
  match fuel with
  | 0 => ([], buffer)
  | S fuel =>
      match indexOf_newline buffer with
      | Some newlineIndex =>
          let line := take newlineIndex buffer in
          let buffer := drop (S newlineIndex) buffer in
          let '(out, buffer) := drain fuel buffer in
          (on_line line ++ out, buffer)
      | None => ([], buffer)
      end
  end.

(** The ['data'] handler: every iteration removes a newline, so the length
    of the buffer is fuel enough. *)
Definition on_data (data : list byte) (w : world) : world * list output :=
  let buffer := engineBuffer w ++ toString data in
  let '(out, buffer) := drain (length buffer) buffer in
  ({| engineSocket := engineSocket w; engineBuffer := buffer;
      reconnectTimer := reconnectTimer w;
      sockets := sockets w; timers := timers w |}, out).

(** The ['error'] handler; the runtime has destroyed the socket. *)
Definition on_error (s : nat) (w : world) : world * list output :=
  ({| engineSocket := None; engineBuffer := engineBuffer w;
      reconnectTimer := reconnectTimer w;
      sockets := set_state s Destroyed (sockets w); timers := timers w |}, []).

(** The ['close'] handler. *)
Definition on_close (s : nat) (w : world) : world * list output :=
  ({| engineSocket := None; engineBuffer := [];
      reconnectTimer := reconnectTimer w;
      sockets := set_state s Closed (sockets w); timers := timers w |}, []).

(** The callback given to [watchEngineState], run at time [now]. *)
Definition on_watch (now : nat) (newState : option EngineInfo) (running : bool)
    (w : world) : world * list output :=
  match newState with
  | Some info =>
      if running && PrimFloat.ltb 0%float (port info) then
        (* Clear any pending reconnect *)
        let timers1 :=
          match reconnectTimer w with
          | Some id => disarm id (timers w)
          | None => timers w
          end in
        (* Small delay to let engine fully initialize *)
        ({| engineSocket := engineSocket w; engineBuffer := engineBuffer w;
            reconnectTimer := Some (length timers1);
            sockets := sockets w;
            timers := timers1 ++ [{| due := now + 500; target := port info;
                                     armed := true |}] |}, [])
      else (w, [])
  | None =>
      match engineSocket w with
      | Some s =>
          ({| engineSocket := None; engineBuffer := engineBuffer w;
              reconnectTimer := reconnectTimer w;
              sockets := destroy s (sockets w); timers := timers w |},
           [Destroy s])
      | None => (w, [])
      end
  end.

(** One callback run at time [now].  The runtime only delivers what can
    happen: a timer fires once, when it is armed and due; a socket
    connects while it is connecting, receives data while it is open, fails
    while it is live, and closes once. *)
Definition step (now : nat) (i : input) (w : world) : world * list output :=
  match i with
  | Watch newState running => on_watch now newState running w
  | Timeout id =>
      match timers w !! id with
      | Some t =>
          if armed t && (due t <=? now) then
            tryConnect (target t)
              {| engineSocket := engineSocket w; engineBuffer := engineBuffer w;
                 reconnectTimer := reconnectTimer w;
                 sockets := sockets w; timers := disarm id (timers w) |}
          else (w, [])
      | None => (w, [])
      end
  | Connected s =>
      match sockets w !! s with
      | Some {| state := Connecting |} => on_connect s w
      | _ => (w, [])
      end
  | Data s data =>
      match sockets w !! s with
      | Some {| state := Open |} => on_data data w
      | _ => (w, [])
      end
  | Error s =>
      match sockets w !! s with
      | Some sock => if live sock then on_error s w else (w, [])
      | None => (w, [])
      end
  | Close s =>
      match sockets w !! s with
      | Some {| state := Closed |} | None => (w, [])
      | Some _ => on_close s w
      end
  end.

Fixpoint run (events : list (nat * input)) (w : world) : world * list output :=
  match events with
  | [] => (w, [])
  | (now, i) :: rest =>
      let '(w1, out1) := step now i w in
      let '(w2, out2) := run rest w1 in
      (w2, out1 ++ out2)
  end.

(** [connectToEngine]: the initial connection attempt; the watcher is
    installed afterwards. *)
Definition connectToEngine (state : option EngineInfo) (running : bool)
  : world * list output :=
  match state with
  | Some info =>
      if running && PrimFloat.ltb 0%float (port info)
      then tryConnect (port info) start
      else (start, [])
  | None => (start, [])
  end.

(** *** Decoding in pieces *)

Lemma decode_app (st : option pending) (data more_data : list byte) :
  decode st (data ++ more_data)
  = let '(out1, st1) := decode st data in
    let '(out2, st2) := decode st1 more_data in
    (out1 ++ out2, st2).
Proof.
  revert st. induction data as [|b data IH]; intros st; cbn [decode app].
  - by destruct (decode st more_data).
  - destruct (decode_byte st _) as [out1 st1]. rewrite IH.
    destruct (decode st1 data) as [out2 st2].
    destruct (decode st2 more_data) as [out3 st3].
    by rewrite (assoc_L (++)).
Qed.

(** A chunk ends on a character boundary when no sequence is left in
    progress at its end. *)
Definition whole_characters (data : list byte) : Prop :=
  snd (decode None data) = None.

Lemma toString_app (data more_data : list byte) :
  whole_characters data →
  toString (data ++ more_data) = toString data ++ toString more_data.
Proof.
  unfold whole_characters, toString. rewrite decode_app.
  destruct (decode None data) as [out1 st1]. cbn [snd]. intros ->.
  destruct (decode None more_data) as [out2 st2]. cbn [flush].
  by rewrite app_nil_r, (assoc_L (++)).
Qed.

Lemma toString_concat (chunks : list (list byte)) :
  Forall whole_characters chunks →
  toString (concat chunks) = concat (map toString chunks).
Proof.
  induction 1 as [|data chunks Hdata _ IH]; [done|].
  cbn [concat map]. by rewrite toString_app, IH.
Qed.

(** *** The loop of the data handler *)

Lemma indexOf_newline_lt (s : text) (i : nat) :
  indexOf_newline s = Some i → i < length s.
Proof.
  revert i. induction s as [|c s IH]; intros i; cbn; [done|].
  destruct (c =? newline)%Z.
  - intros [= <-]. lia.
  - destruct (indexOf_newline s) as [j|]; cbn; [|done].
    intros [= <-]. specialize (IH j eq_refl). lia.
Qed.

Lemma indexOf_newline_app_Some (s s' : text) (i : nat) :
  indexOf_newline s = Some i → indexOf_newline (s ++ s') = Some i.
Proof.
  revert i. induction s as [|c s IH]; intros i; cbn; [done|].
  destruct (c =? newline)%Z; [done|].
  destruct (indexOf_newline s) as [j|]; cbn; [|done].
  intros [= <-]. by rewrite (IH j eq_refl).
Qed.

(** More fuel than the length of the buffer changes nothing. *)
Lemma drain_fuel (fuel fuel' : nat) (buffer : text) :
  length buffer ≤ fuel → length buffer ≤ fuel' →
  drain fuel buffer = drain fuel' buffer.
Proof.
  revert fuel' buffer. induction fuel as [|fuel IH]; intros fuel' buffer H H'.
  - destruct buffer; [|cbn in H; lia]. by destruct fuel'.
  - destruct fuel' as [|fuel'].
    { destruct buffer; [done | cbn in H'; lia]. }
    cbn [drain]. destruct (indexOf_newline buffer) as [i|] eqn:Hi; [|done].
    apply indexOf_newline_lt in Hi.
    rewrite (IH fuel') by (rewrite length_drop; lia). done.
Qed.

(** The loop ends because no newline is left, not for want of fuel. *)
Lemma drain_complete (fuel : nat) (buffer : text) :
  length buffer ≤ fuel →
  indexOf_newline (snd (drain fuel buffer)) = None.
Proof.
  revert buffer. induction fuel as [|fuel IH]; intros buffer H.
  - by destruct buffer; [|cbn in H; lia].
  - cbn [drain]. destruct (indexOf_newline buffer) as [i|] eqn:Hi; [|done].
    apply indexOf_newline_lt in Hi.
    specialize (IH (drop (S i) buffer)).
    destruct (drain fuel (drop (S i) buffer)) as [out rest]. cbn [snd] in *.
    apply IH. rewrite length_drop. lia.
Qed.

Lemma drain_no_newline (fuel : nat) (buffer : text) :
  indexOf_newline buffer = None → drain fuel buffer = ([], buffer).
Proof. intros H. destruct fuel; [done|]. cbn [drain]. by rewrite H. Qed.

(** Draining a buffer and then what is left of it with more text appended
    is draining the whole at once. *)
Lemma drain_app (fuel : nat) (buffer more_text : text) :
  length buffer ≤ fuel →
  drain (fuel + length more_text) (buffer ++ more_text)
  = let '(out1, rest1) := drain fuel buffer in
    let '(out2, rest2) := drain (length (rest1 ++ more_text)) (rest1 ++ more_text) in
    (out1 ++ out2, rest2).
Proof.
  revert buffer. induction fuel as [|fuel IH]; intros buffer H.
  - destruct buffer; [|cbn in H; lia]. cbn.
    by destruct (drain (length more_text) more_text).
  - destruct (indexOf_newline buffer) as [i|] eqn:Hi.
    + cbn [drain Nat.add].
      rewrite Hi, (indexOf_newline_app_Some _ _ _ Hi).
      apply indexOf_newline_lt in Hi.
      rewrite take_app_le, drop_app_le by lia.
      rewrite IH by (rewrite length_drop; lia).
      destruct (drain fuel (drop (S i) buffer)) as [out1 rest1].
      destruct (drain _ (rest1 ++ more_text)) as [out2 rest2].
      by rewrite (assoc_L (++)).
    + rewrite (drain_no_newline (S fuel) buffer Hi).
      rewrite (drain_fuel (S fuel + length more_text)
                 (length (buffer ++ more_text)) (buffer ++ more_text))
        by (rewrite ?length_app; lia).
      by destruct (drain _ (buffer ++ more_text)).
Qed.

(** The handler on text that is already decoded. *)
Definition push (s : text) (buffer : text) : list output * text :=
  drain (length (buffer ++ s)) (buffer ++ s).

Fixpoint push_all (chunks : list text) (buffer : text) : list output * text :=
  match chunks with
  | [] => ([], buffer)
  | s :: rest =>
      let '(out1, buffer1) := push s buffer in
      let '(out2, buffer2) := push_all rest buffer1 in
      (out1 ++ out2, buffer2)
  end.

Lemma push_app (s s' buffer : text) :
  push (s ++ s') buffer
  = let '(out1, buffer1) := push s buffer in
    let '(out2, buffer2) := push s' buffer1 in
    (out1 ++ out2, buffer2).
Proof.
  unfold push. rewrite (assoc_L (++)).
  rewrite (drain_fuel (length ((buffer ++ s) ++ s'))
             (length (buffer ++ s) + length s') ((buffer ++ s) ++ s'))
    by (rewrite !length_app; lia).
  by rewrite drain_app.
Qed.

(** Framing on text: pushing decoded chunks one at a time gives the
    messages and the partial line that pushing their concatenation
    gives. *)
Lemma push_all_concat (chunks : list text) (buffer : text) :
  indexOf_newline buffer = None →
  push_all chunks buffer = push (concat chunks) buffer.
Proof.
  revert buffer. induction chunks as [|s chunks IH]; intros buffer Hb.
  - cbn [push_all concat]. unfold push. rewrite app_nil_r.
    rewrite (drain_no_newline _ _ Hb). reflexivity.
  - cbn [push_all concat]. rewrite push_app.
    pose proof (drain_complete (length (buffer ++ s)) (buffer ++ s) (le_n _)) as Hrest.
    fold (push s buffer) in Hrest.
    destruct (push s buffer) as [out1 buffer1]. cbn [snd] in Hrest.
    by rewrite (IH buffer1 Hrest).
Qed.

(** *** The data handler on the link *)

Definition with_buffer (buffer : text) (w : world) : world :=
  {| engineSocket := engineSocket w; engineBuffer := buffer;
     reconnectTimer := reconnectTimer w;
     sockets := sockets w; timers := timers w |}.

Lemma on_data_push (data : list byte) (w : world) :
  on_data data w
  = (with_buffer (snd (push (toString data) (engineBuffer w))) w,
     fst (push (toString data) (engineBuffer w))).
Proof.
  unfold on_data, push, with_buffer.
  by destruct (drain _ (engineBuffer w ++ toString data)).
Qed.

(** The successive reads of socket [s]. *)
Definition reads (now : nat) (s : nat) (chunks : list (list byte))
  : list (nat * input) :=
  map (fun data => (now, Data s data)) chunks.

Lemma run_reads (now s : nat) (sock : socket) (chunks : list (list byte)) (w : world) :
  sockets w !! s = Some sock → state sock = Open →
  run (reads now s chunks) w
  = (with_buffer (snd (push_all (map toString chunks) (engineBuffer w))) w,
     fst (push_all (map toString chunks) (engineBuffer w))).
Proof.
  intros Hs Hopen. revert w Hs.
  induction chunks as [|data chunks IH]; intros w Hs.
  - by destruct w.
  - cbn [reads map run step]. rewrite Hs. destruct sock as [p st].
    cbn in Hopen. subst st. rewrite on_data_push.
    fold (reads now s chunks). rewrite IH by done. cbn [push_all engineBuffer with_buffer].
    destruct (push (toString data) (engineBuffer w)) as [out1 buffer1].
    cbn [fst snd]. by destruct (push_all (map toString chunks) buffer1).
Qed.

(** Framing holds as long as no read ends inside a character: reads that
    each hold whole characters give the messages and the partial line of
    one read of all the bytes. *)
Lemma data_framing_on_boundaries
    (now s : nat) (sock : socket) (chunks : list (list byte)) (w : world) :
  sockets w !! s = Some sock → state sock = Open →
  indexOf_newline (engineBuffer w) = None →
  Forall whole_characters chunks →
  run (reads now s chunks) w = step now (Data s (concat chunks)) w.
Proof.
  intros Hs Hopen Hbuffer Hchunks.
  rewrite (run_reads _ _ _ _ _ Hs Hopen). cbn [step]. rewrite Hs.
  destruct sock as [p st]. cbn in Hopen. subst st.
  rewrite on_data_push, (toString_concat _ Hchunks).
  by rewrite (push_all_concat _ _ Hbuffer).
Qed.

(** The close handler empties the accumulator: what is read afterwards is
    parsed as on a fresh link. *)
Lemma data_after_close (s : nat) (data : list byte) (w : world) :
  engineBuffer (fst (on_close s w)) = []
  ∧ snd (on_data data (fst (on_close s w))) = fst (push (toString data) [])
  ∧ engineBuffer (fst (on_data data (fst (on_close s w))))
    = snd (push (toString data) []).
Proof. rewrite on_data_push. by repeat split. Qed.

(** *** Reconnecting after an error *)

Lemma length_set_state (s : nat) (st : status) (l : list socket) :
  length (set_state s st l) = length l.
Proof. unfold set_state. destruct (l !! s); [apply length_insert | done]. Qed.

Lemma lookup_set_state (s s' : nat) (st : status) (l : list socket) :
  set_state s st l !! s'
  = if decide (s = s')
    then (fun sock => {| remote_port := remote_port sock; state := st |}) <$> l !! s
    else l !! s'.
Proof.
  unfold set_state. destruct (l !! s) as [sock|] eqn:Hs.
  - destruct (decide (s = s')) as [<- | Hne].
    + rewrite list_lookup_insert_eq by (by apply lookup_lt_Some in Hs). done.
    + by rewrite list_lookup_insert_ne.
  - destruct (decide (s = s')) as [<- | Hne]; [by rewrite Hs | done].
Qed.

Lemma length_disarm (id : nat) (l : list timer) : length (disarm id l) = length l.
Proof. unfold disarm. destruct (l !! id); [apply length_insert | done]. Qed.

Lemma disarm_quiet (id : nat) (l : list timer) :
  Forall (fun t => armed t = false) l → Forall (fun t => armed t = false) (disarm id l).
Proof.
  intros H. unfold disarm. destruct (l !! id) as [t|] eqn:Ht; [|done].
  apply Forall_insert; done.
Qed.

(** The scenario of the specification.  A link whose only live socket [a]
    is connected and tracked, with no timer pending: the socket fails and
    closes, then the watcher reports a running engine on another port at
    time [t1].  Nothing is created before [t1 + 500]; the timer set at [t1]
    then makes exactly one connection attempt, to the new port, when no
    socket is live; afterwards the new socket is the only live one and no
    timer is left to fire. *)
Lemma reconnect_after_error
    (w : world) (a : nat) (sock : socket) (new : EngineInfo) (t0 t0' t1 : nat) :
  engineSocket w = Some a →
  sockets w !! a = Some sock → state sock = Open →
  (∀ s, is_live w s = true → s = a) →
  Forall (fun t => armed t = false) (timers w) →
  PrimFloat.ltb 0%float (port new) = true →
  ∃ w3,
    run [(t0, Error a); (t0', Close a); (t1, Watch (Some new) true)] w = (w3, [])
    ∧ (∀ s, is_live w3 s = false)
    ∧ (∀ id t, id ≠ length (timers w) → step t (Timeout id) w3 = (w3, []))
    ∧ (∀ t, t < t1 + 500 → step t (Timeout (length (timers w))) w3 = (w3, []))
    ∧ (∀ t, t1 + 500 ≤ t →
         ∃ w4,
           step t (Timeout (length (timers w))) w3
           = (w4, [Created (length (sockets w)) (port new)])
           ∧ (∀ s, is_live w4 s = true ↔ s = length (sockets w))
           ∧ (∀ id t', step t' (Timeout id) w4 = (w4, []))).
Proof.
  intros Htracked Ha Hopen Honly Hquiet Hport.
  destruct sock as [p st]. cbn in Hopen. subst st.
  assert (Hlen : a < length (sockets w)) by (by apply lookup_lt_Some in Ha).
  (* the sockets once [a] has failed and closed *)
  set (socks := set_state a Closed (set_state a Destroyed (sockets w))).
  assert (Hsocks_a : socks !! a = Some {| remote_port := p; state := Closed |}).
  { subst socks. rewrite !lookup_set_state, !decide_True by done. by rewrite Ha. }
  assert (Hsocks : ∀ s, s ≠ a → socks !! s = sockets w !! s).
  { intros s Hs. subst socks. by rewrite !lookup_set_state, !decide_False. }
  assert (Hsocks_len : length socks = length (sockets w)).
  { subst socks. by rewrite !length_set_state. }
  assert (Hdead : ∀ s, match socks !! s with
                       | Some sock => live sock
                       | None => false
                       end = false).
  { intros s. destruct (decide (s = a)) as [-> | Hs]; [by rewrite Hsocks_a|].
    rewrite (Hsocks s Hs). specialize (Honly s). unfold is_live in Honly.
    destruct (sockets w !! s) as [sock|]; [|done].
    destruct (live sock); [|done]. by specialize (Honly eq_refl). }
  (* the timers once the watcher's callback has run *)
  set (tms := match reconnectTimer w with
              | Some id => disarm id (timers w)
              | None => timers w
              end).
  assert (Htms_len : length tms = length (timers w)).
  { subst tms. destruct (reconnectTimer w); [apply length_disarm | done]. }
  assert (Htms_quiet : Forall (fun t => armed t = false) tms).
  { subst tms. destruct (reconnectTimer w); [by apply disarm_quiet | done]. }
  set (fresh := {| due := t1 + 500; target := port new; armed := true |}).
  set (w3 := {| engineSocket := None; engineBuffer := [];
                reconnectTimer := Some (length tms);
                sockets := socks; timers := tms ++ [fresh] |}).
  exists w3.
  assert (Hrun : run [(t0, Error a); (t0', Close a); (t1, Watch (Some new) true)] w
                 = (w3, [])).
  { cbn [run step]. rewrite Ha. cbn [live state on_error sockets].
    rewrite lookup_set_state, decide_True, Ha by done. cbn [fmap option_fmap option_map].
    cbn [on_close on_watch sockets engineSocket engineBuffer reconnectTimer timers
         andb app].
    rewrite Hport. reflexivity. }
  split; [exact Hrun|].
  split; [intros s; apply Hdead|].
  assert (Hother : ∀ id t, id ≠ length (timers w) → step t (Timeout id) w3 = (w3, [])).
  { intros id t Hid. cbn [step timers w3].
    destruct (decide (id < length tms)) as [Hlt | Hge].
    - rewrite lookup_app_l by done.
      destruct (tms !! id) as [tm|] eqn:Htm; [|done].
      rewrite Forall_forall in Htms_quiet.
      rewrite (Htms_quiet tm) by (by apply list_elem_of_lookup_2 in Htm). done.
    - rewrite lookup_ge_None_2; [done|]. rewrite length_app. cbn. lia. }
  split; [exact Hother|].
  assert (Hfresh : (tms ++ [fresh]) !! length (timers w) = Some fresh).
  { rewrite <- Htms_len. by rewrite list_lookup_middle. }
  split.
  { intros t Ht. cbn [step timers w3]. rewrite Hfresh. cbn [armed due fresh andb].
    destruct (Nat.leb_spec (t1 + 500) t); [lia | done]. }
  intros t Ht.
  set (tms' := disarm (length (timers w)) (tms ++ [fresh])).
  set (w4 := {| engineSocket := None; engineBuffer := [];
                reconnectTimer := Some (length tms);
                sockets := socks ++ [{| remote_port := port new; state := Connecting |}];
                timers := tms' |}).
  exists w4. split; [|split].
  - cbn [step timers w3]. rewrite Hfresh. cbn [armed due fresh andb].
    destruct (Nat.leb_spec (t1 + 500) t); [|lia].
    unfold tryConnect, w3, w4.
    cbn [engineSocket sockets timers engineBuffer reconnectTimer target fresh app].
    by rewrite Hsocks_len.
  - intros s. unfold is_live. cbn [sockets w4]. rewrite <- Hsocks_len.
    destruct (decide (s = length socks)) as [-> | Hs].
    + rewrite list_lookup_middle by done. done.
    + destruct (decide (s < length socks)) as [Hlt | Hge].
      * rewrite lookup_app_l by done. rewrite Hdead. split; [done | by intros ?].
      * rewrite lookup_ge_None_2 by (rewrite length_app; cbn; lia).
        split; [done | by intros ?].
  - intros id t'. cbn [step timers w4].
    assert (Hall : Forall (fun tm => armed tm = false) tms').
    { subst tms'. unfold disarm. rewrite Hfresh.
      rewrite <- Htms_len.
      replace (length tms) with (length tms + 0) by lia.
      rewrite insert_app_r. cbn. apply Forall_app_2; [done|].
      by constructor. }
    destruct (tms' !! id) as [tm|] eqn:Htm; [|done].
    rewrite Forall_forall in Hall.
    rewrite (Hall tm) by (by apply list_elem_of_lookup_2 in Htm). done.
Qed.

(** *** What every reachable state of the link satisfies *)

(** At most one reconnect is pending, the one [reconnectTimer] holds. *)
Definition one_reconnect (w : world) : Prop :=
  ∀ id t, timers w !! id = Some t → armed t = true → reconnectTimer w = Some id.

(** No complete line is left in the accumulator between two callbacks. *)
Definition no_line_left (w : world) : Prop :=
  indexOf_newline (engineBuffer w) = None.

Lemma disarm_lookup (id id' : nat) (l : list timer) (t : timer) :
  disarm id l !! id' = Some t → armed t = true → id' ≠ id ∧ l !! id' = Some t.
Proof.
  unfold disarm. destruct (l !! id) as [t0|] eqn:Hid.
  - destruct (decide (id = id')) as [<- | Hne].
    + rewrite list_lookup_insert_eq by (by apply lookup_lt_Some in Hid).
      by intros [= <-].
    + rewrite list_lookup_insert_ne by done. intros H _. by split; [intros ->|].
  - intros H _. split; [|done]. intros ->. by rewrite Hid in H.
Qed.

Lemma tryConnect_frame (p : float) (w : world) :
  timers (fst (tryConnect p w)) = timers w
  ∧ reconnectTimer (fst (tryConnect p w)) = reconnectTimer w
  ∧ engineBuffer (fst (tryConnect p w)) = engineBuffer w.
Proof. unfold tryConnect. by destruct (engineSocket w). Qed.

Lemma on_watch_pending (now : nat) (info : EngineInfo) (w : world) :
  one_reconnect w →
  PrimFloat.ltb 0%float (port info) = true →
  ∀ id t, timers (fst (on_watch now (Some info) true w)) !! id = Some t →
          armed t = true →
          id = length (timers w)
          ∧ t = {| due := now + 500; target := port info; armed := true |}
          ∧ reconnectTimer (fst (on_watch now (Some info) true w)) = Some id.
Proof.
  intros Hone Hport id t. cbn [on_watch andb]. rewrite Hport. cbn [fst timers reconnectTimer].
  set (timers1 := match reconnectTimer w with
                  | Some id => disarm id (timers w)
                  | None => timers w
                  end).
  assert (Hlen : length timers1 = length (timers w)).
  { subst timers1. destruct (reconnectTimer w); [apply length_disarm | done]. }
  assert (Hquiet : ∀ id t, timers1 !! id = Some t → armed t = false).
  { intros id0 t0 Ht0. destruct (armed t0) eqn:Harmed; [|done]. exfalso.
    subst timers1. destruct (reconnectTimer w) as [id1|] eqn:Hr.
    - apply disarm_lookup in Ht0 as [Hne Ht0]; [|done].
      specialize (Hone id0 t0 Ht0 Harmed). rewrite Hr in Hone. by injection Hone as ->.
    - specialize (Hone id0 t0 Ht0 Harmed). by rewrite Hr in Hone. }
  intros Ht Harmed.
  destruct (decide (id < length timers1)) as [Hlt | Hge].
  - rewrite lookup_app_l in Ht by done. by rewrite (Hquiet id t Ht) in Harmed.
  - destruct (decide (id = length timers1)) as [-> | Hne].
    + rewrite list_lookup_middle in Ht by done. injection Ht as <-.
      by rewrite Hlen.
    + apply lookup_lt_Some in Ht. rewrite length_app in Ht. cbn in Ht. lia.
Qed.

Lemma step_invariant (now : nat) (i : input) (w : world) :
  one_reconnect w ∧ no_line_left w →
  one_reconnect (fst (step now i w)) ∧ no_line_left (fst (step now i w)).
Proof.
  intros [Hone Hbuffer]. destruct i as [newState running|id|s|s data|s|s]; cbn [step].
  - destruct newState as [info|]; cbn [on_watch].
    + destruct running; cbn [andb]; [|done].
      destruct (PrimFloat.ltb 0%float (port info)) eqn:Hport; [|done].
      split; [|done]. intros id t Ht Harmed.
      pose proof (on_watch_pending now info w Hone Hport id t) as H.
      cbn [on_watch andb] in H. rewrite Hport in H.
      by destruct (H Ht Harmed) as (_ & _ & ?).
    + by destruct (engineSocket w).
  - destruct (timers w !! id) as [t|] eqn:Ht; [|done].
    destruct (armed t && (due t <=? now)); [|done].
    match goal with |- context [tryConnect ?p ?w0] =>
      destruct (tryConnect_frame p w0) as (Ht' & Hr' & Hb')
    end.
    unfold no_line_left, one_reconnect. rewrite Ht', Hr', Hb'. cbn. split; [|done].
    intros id' t' Hlook Harmed.
    apply disarm_lookup in Hlook as [_ Hlook]; [|done]. by apply (Hone id' t').
  - destruct (sockets w !! s) as [[p []]|]; done.
  - destruct (sockets w !! s) as [[p []]|]; try done.
    rewrite on_data_push. split; [done|].
    unfold no_line_left, push. cbn [fst with_buffer engineBuffer].
    apply drain_complete. done.
  - destruct (sockets w !! s) as [sock|]; [|done]. by destruct (live sock).
  - destruct (sockets w !! s) as [[p []]|]; done.
Qed.

Lemma run_invariant (events : list (nat * input)) (w : world) :
  one_reconnect w ∧ no_line_left w →
  one_reconnect (fst (run events w)) ∧ no_line_left (fst (run events w)).
Proof.
  revert w. induction events as [|[now i] events IH]; intros w Hw; [done|].
  cbn [run]. pose proof (step_invariant now i w Hw) as Hstep.
  destruct (step now i w) as [w1 out1]. cbn [fst] in Hstep.
  specialize (IH w1 Hstep). by destruct (run events w1).
Qed.

Lemma connectToEngine_invariant (state0 : option EngineInfo) (running0 : bool) :
  one_reconnect (fst (connectToEngine state0 running0))
  ∧ no_line_left (fst (connectToEngine state0 running0)).
Proof.
  assert (Hstart : one_reconnect start ∧ no_line_left start).
  { split; [|done]. intros id t Ht. by cbn in Ht. }
  unfold connectToEngine. destruct state0 as [info|]; [|done].
  destruct (running0 && PrimFloat.ltb 0%float (port info)); [|done].
  destruct (tryConnect_frame (port info) start) as (Ht & Hr & Hb).
  unfold one_reconnect, no_line_left. by rewrite Ht, Hr, Hb.
Qed.

(** X7.  Reconnects are debounced.  Whatever the link has seen since
    [connectToEngine], at most one reconnect timer is pending, the one
    [reconnectTimer] holds; and when the watcher reports a running engine
    with a port above [0] at time [now], the only timer pending afterwards
    is the one set by that report: it is due at [now + 500] and will
    connect to the reported port, every earlier one being cancelled. *)
Theorem reconnects_are_debounced
    (state0 : option EngineInfo) (running0 : bool) (events : list (nat * input)) :
  let w := fst (run events (fst (connectToEngine state0 running0))) in
  (∀ id t, timers w !! id = Some t → armed t = true → reconnectTimer w = Some id)
  ∧ ∀ now info id t,
      PrimFloat.ltb 0%float (port info) = true →
      timers (fst (step now (Watch (Some info) true) w)) !! id = Some t →
      armed t = true →
      id = length (timers w)
      ∧ t = {| due := now + 500; target := port info; armed := true |}
      ∧ reconnectTimer (fst (step now (Watch (Some info) true) w)) = Some id.
Proof.
  intros w.
  destruct (run_invariant events _ (connectToEngine_invariant state0 running0))
    as [Hone _].
  fold w in Hone. split; [exact Hone|].
  intros now info id t Hport. by apply on_watch_pending.
Qed.

(** Bytes below [0x80] are characters of their own. *)
Lemma decode_ascii (data : list byte) :
  Forall (fun b => (Byte.to_N b < 128)%N) data →
  decode None data = (map (fun b => Z.of_N (Byte.to_N b)) data, None).
Proof.
  induction 1 as [|b data Hb _ IH]; [done|].
  cbn [decode decode_byte map]. unfold lead.
  destruct (Z.leb_spec (Z.of_N (Byte.to_N b)) 0x7F) as [_ | Hgt]; [|lia].
  by rewrite IH.
Qed.

(** X8.  Framing on character boundaries.  On a link in any state it can
    reach, reads of an open socket that each end on a character boundary
    (reads of bytes below [0x80] among them) give the messages and leave
    the partial line that a single read of all their bytes gives, however
    the bytes are divided among the reads. *)
Theorem framing_of_whole_characters
    (state0 : option EngineInfo) (running0 : bool) (events : list (nat * input))
    (now s : nat) (sock : socket) (chunks : list (list byte)) :
  let w := fst (run events (fst (connectToEngine state0 running0))) in
  sockets w !! s = Some sock → state sock = Open →
  Forall (fun data => whole_characters data
                      ∨ Forall (fun b => (Byte.to_N b < 128)%N) data) chunks →
  run (reads now s chunks) w = step now (Data s (concat chunks)) w.
Proof.
  intros w Hs Hopen Hchunks.
  destruct (run_invariant events _ (connectToEngine_invariant state0 running0))
    as [_ Hbuffer].
  fold w in Hbuffer.
  apply (data_framing_on_boundaries now s sock chunks w Hs Hopen Hbuffer).
  eapply Forall_impl; [exact Hchunks|].
  intros data [Hwhole | Hascii]; [done|].
  unfold whole_characters. by rewrite decode_ascii.
Qed.

(** *** Shutdown *)













End Link.

(** *** Concrete runs of the link *)

Lemma app_nil_twice {A} (l : list A) : (l ++ []) ++ [] = l.
Proof. by rewrite !app_nil_r. Qed.

(** Both sides are evaluated; what is left is the outcome [out] of
    handling one line, once as it is and once with empty lists appended. *)
Ltac same_outputs :=
  vm_compute;
  repeat (apply (f_equal2 (@cons output)); [reflexivity|]);
  try (apply (f_equal2 (@pair world (list output))); [reflexivity|]);
  match goal with
  | |- _ = ?n =>
      generalize n;
      let out := fresh "out" in
      intros out;
      first [ exact (app_nil_r out) | exact (app_nil_twice out) | reflexivity ]
  end.

Definition ascii_bytes (s : string) : list byte := String.list_byte_of_string s.

Definition ascii_text (s : string) : text :=
  map (fun b => Z.of_N (Byte.to_N b)) (ascii_bytes s).

Definition engine (p : float) : EngineInfo := {| port := p; pid := VNum 4321%float |}.

(** The link once the engine on port 9000 was found at start-up and the
    socket has connected. *)
Definition linked : world :=
  {| engineSocket := Some 0; engineBuffer := []; reconnectTimer := None;
     sockets := [{| remote_port := 9000%float; state := Open |}]; timers := [] |}.

Lemma linked_reached (JSON_parse : text → completion jsval) :
  run JSON_parse [(1, Connected 0)]
      (fst (connectToEngine (Some (engine 9000%float)) true))
  = (linked, [Request 0 "getSamples"; Request 0 "getBanks"; Request 0 "getSounds"]).
Proof. reflexivity. Qed.

(** The banks message that lists the one bank [café], in UTF-8, is
    [banks_head], the two bytes [C3 A9] of the letter [é], and
    [banks_tail]. *)
Definition banks_head : string :=
  "{" +:+ EngineState.quote +:+ "type" +:+ EngineState.quote +:+ ":"
      +:+ EngineState.quote +:+ "banks" +:+ EngineState.quote +:+ ","
      +:+ EngineState.quote +:+ "banks" +:+ EngineState.quote +:+ ":["
      +:+ EngineState.quote +:+ "caf".

Definition banks_tail : string := EngineState.quote +:+ "]}".

Definition banks_line : text :=
  ascii_text banks_head ++ [0xE9%Z] ++ ascii_text banks_tail.

Definition garbled_line : text :=
  ascii_text banks_head ++ [replacement; replacement] ++ ascii_text banks_tail.

(** C1 fails on the code at this input.  The engine sends the line
    [banks_line] and the stream is cut between the two bytes of [é]: read
    in one piece, the link parses [banks_line]; read in the two pieces, it
    parses [garbled_line], in which U+FFFD U+FFFD stands for the letter.
    The partial line kept between reads differs in the same way. *)
Theorem on_data_splits_characters (JSON_parse : text → completion jsval) :
  run JSON_parse
      (reads 2 0 [ascii_bytes banks_head ++ [xc3];
                  [xa9] ++ ascii_bytes banks_tail ++ [x0a]]) linked
  = (linked, on_line JSON_parse garbled_line)
  ∧ run JSON_parse
        (reads 2 0 [(ascii_bytes banks_head ++ [xc3])
                    ++ [xa9] ++ ascii_bytes banks_tail ++ [x0a]]) linked
    = (linked, on_line JSON_parse banks_line)
  ∧ garbled_line ≠ banks_line
  ∧ engineBuffer
      (fst (run JSON_parse
              (reads 2 0 [ascii_bytes banks_head ++ [xc3]; [xa9]]) linked))
    = ascii_text banks_head ++ [replacement; replacement]
  ∧ engineBuffer
      (fst (run JSON_parse
              (reads 2 0 [(ascii_bytes banks_head ++ [xc3]) ++ [xa9]]) linked))
    = ascii_text banks_head ++ [0xE9%Z].
Proof.
  split; [same_outputs|]. split; [same_outputs|].
  split; [vm_compute; discriminate|].
  split; vm_compute; reflexivity.
Qed.

(** Cut between characters, the same line is framed as in one read. *)
Example framing_on_a_character_boundary (JSON_parse : text → completion jsval) :
  run JSON_parse
      (reads 2 0 [ascii_bytes banks_head;
                  [xc3; xa9] ++ ascii_bytes banks_tail ++ [x0a]]) linked
  = step JSON_parse 2
         (Data 0 (concat [ascii_bytes banks_head;
                          [xc3; xa9] ++ ascii_bytes banks_tail ++ [x0a]])) linked.
Proof.
  apply (data_framing_on_boundaries JSON_parse 2 0
           {| remote_port := 9000%float; state := Open |}); try reflexivity.
  repeat constructor; vm_compute; reflexivity.
Qed.

(** With the two lines parsed as banks messages, [dynamicBanks] is set to
    what the garbled line holds. *)
Example split_character_reaches_dynamicBanks
    (JSON_parse : text → completion jsval) (good bad : list jsval) :
  JSON_parse banks_line = Normal (VObj [("type", VStr "banks"); ("banks", VArr good)]) →
  JSON_parse garbled_line = Normal (VObj [("type", VStr "banks"); ("banks", VArr bad)]) →
  on_line JSON_parse banks_line = [SetBanks (VArr good); Revalidate]
  ∧ on_line JSON_parse garbled_line = [SetBanks (VArr bad); Revalidate].
Proof.
  intros Hgood Hbad. unfold on_line.
  replace (nonempty (trim banks_line)) with true by (vm_compute; reflexivity).
  replace (nonempty (trim garbled_line)) with true by (vm_compute; reflexivity).
  rewrite Hgood, Hbad. by split.
Qed.

(** The engine link is connected to the engine on port 9000; the state
    file is rewritten for port 9001 and later for port 9002 (the engines
    keep running).  The socket to 9001 connects before the close event of
    the destroyed socket to 9000 arrives: [destroy()] closes the handle,
    and the runtime emits ['close'] from the handle's close callback, at
    the end of the loop iteration, after the I/O callbacks of that
    iteration, among them the connect callback of a socket that connects
    at once, as on the loopback interface. *)
Definition two_restarts : list (nat * input) :=
  [(1000, Watch (Some (engine 9001%float)) true);
   (1500, Timeout 0);
   (1501, Connected 1);
   (1502, Close 0);
   (3000, Watch (Some (engine 9002%float)) true);
   (3500, Timeout 1)].

(** C3 fails on the code at this input.  The close handler of the socket
    to 9000 clears [engineSocket] although it then holds the socket to
    9001; the second reconnect therefore finds nothing to destroy, and the
    sockets to 9001 and to 9002 are live together. *)
Theorem reconnect_leaves_previous_socket_live (JSON_parse : text → completion jsval) :
  run JSON_parse two_restarts linked
  = ({| engineSocket := None; engineBuffer := []; reconnectTimer := Some 1;
        sockets := [{| remote_port := 9000%float; state := Closed |};
                    {| remote_port := 9001%float; state := Open |};
                    {| remote_port := 9002%float; state := Connecting |}];
        timers := [{| due := 1500; target := 9001%float; armed := false |};
                   {| due := 3500; target := 9002%float; armed := false |}] |},
     [Destroy 0; Created 1 9001%float;
      Request 1 "getSamples"; Request 1 "getBanks"; Request 1 "getSounds";
      Created 2 9002%float])
  ∧ live_sockets (fst (run JSON_parse two_restarts linked)) = [1; 2].
Proof. split; vm_compute; reflexivity. Qed.

(** The scenario of the specification on [linked]: the socket to 9000
    fails at 100 ms, the record for port 9001 is noticed at 300 ms. *)
Example reconnect_after_error_linked (JSON_parse : text → completion jsval) :
  ∃ w3,
    run JSON_parse [(100, Error 0); (100, Close 0);
                    (300, Watch (Some (engine 9001%float)) true)] linked = (w3, [])
    ∧ (∀ s, is_live w3 s = false)
    ∧ step JSON_parse 799 (Timeout 0) w3 = (w3, [])
    ∧ ∃ w4, step JSON_parse 800 (Timeout 0) w3 = (w4, [Created 1 9001%float])
            ∧ (∀ s, is_live w4 s = true ↔ s = 1)
            ∧ (∀ id t, step JSON_parse t (Timeout id) w4 = (w4, [])).
Proof.
  destruct (reconnect_after_error JSON_parse linked 0
              {| remote_port := 9000%float; state := Open |}
              (engine 9001%float) 100 100 300)
    as (w3 & Hrun & Hdead & _ & Hearly & Hdue); try reflexivity.
  - intros [|s]; [done|]. by destruct s.
  - constructor.
  - exists w3. split; [exact Hrun|]. split; [exact Hdead|].
    split; [apply Hearly; lia|].
    destruct (Hdue 800) as (w4 & Hstep & Hlive & Hquiet); [lia|].
    exists w4. split; [exact Hstep|]. split; [exact Hlive | exact Hquiet].
Qed.

(** The same happens when a connection attempt is made while the previous
    socket is still connecting: it is not in [engineSocket] yet. *)
Example tryConnect_while_connecting (JSON_parse : text → completion jsval) :
  live_sockets
    (fst (run JSON_parse
            [(10, Watch (Some (engine 9000%float)) true); (510, Timeout 0)]
            (fst (connectToEngine (Some (engine 9000%float)) true))))
  = [0; 1].
Proof. vm_compute. reflexivity. Qed.

(** The beginning of a samples message: an opening brace, the quoted key
    [type], a colon, an opening quote and [sam]. *)
Definition samples_head : string :=
  "{" +:+ EngineState.quote +:+ "type" +:+ EngineState.quote +:+ ":"
      +:+ EngineState.quote +:+ "sam".

(** The banks message with an empty list: the object with [type] set to
    the string [banks] and [banks] set to the empty array. *)
Definition empty_banks : string :=
  "{" +:+ EngineState.quote +:+ "type" +:+ EngineState.quote +:+ ":"
      +:+ EngineState.quote +:+ "banks" +:+ EngineState.quote +:+ ","
      +:+ EngineState.quote +:+ "banks" +:+ EngineState.quote +:+ ":[]}".

(** As [two_restarts], with the beginning of a line read on the socket to
    9001 before the second reconnect, and a whole line read on the socket
    to 9002 after it. *)
Definition two_restarts_with_data : list (nat * input) :=
  [(1000, Watch (Some (engine 9001%float)) true);
   (1500, Timeout 0);
   (1501, Connected 1);
   (1502, Close 0);
   (2000, Data 1 (ascii_bytes samples_head));
   (3000, Watch (Some (engine 9002%float)) true);
   (3500, Timeout 1);
   (3501, Connected 2);
   (3600, Data 2 (ascii_bytes empty_banks ++ [x0a]))].

(** C10 fails on the code at this input.  The socket to 9001 is never
    destroyed, so it never emits the close event that would empty the
    accumulator: the bytes it left there are joined with the line read on
    the socket to 9002, and the link parses the two together instead of
    the line. *)
Theorem partial_frame_crosses_connections (JSON_parse : text → completion jsval) :
  engineBuffer (fst (run JSON_parse (take 8 two_restarts_with_data) linked))
  = ascii_text samples_head
  ∧ snd (run JSON_parse two_restarts_with_data linked)
    = [Destroy 0; Created 1 9001%float;
       Request 1 "getSamples"; Request 1 "getBanks"; Request 1 "getSounds";
       Created 2 9002%float;
       Request 2 "getSamples"; Request 2 "getBanks"; Request 2 "getSounds"]
      ++ on_line JSON_parse (ascii_text samples_head ++ ascii_text empty_banks)
  ∧ snd (run JSON_parse [(2, Data 0 (ascii_bytes empty_banks ++ [x0a]))] linked)
    = on_line JSON_parse (ascii_text empty_banks)
  ∧ ascii_text samples_head ++ ascii_text empty_banks ≠ ascii_text empty_banks.
Proof.
  split; [vm_compute; reflexivity|].
  split; [same_outputs|]. split; [same_outputs|].
  vm_compute. discriminate.
Qed.

(** ** Text helpers of the language server ([findMiniNotationContext],
    [getCurrentWord], [findFunctionContext], [levenshtein], [findSimilar])

    A JavaScript string is the list of its UTF-16 code units, as in the
    engine link above. *)

(** [text.slice(start, end)] for offsets that are not negative. *)
Definition slice (start end_ : nat) (s : text) : text :=
  take (end_ - start) (drop start s).

(** [/[a-zA-Z0-9_]/] on one code unit. *)
Definition is_word (c : Z) : bool :=
  ((97 <=? c) && (c <=? 122) || (65 <=? c) && (c <=? 90)
   || (48 <=? c) && (c <=? 57) || (c =? 95))%Z.

(** [/[a-zA-Z0-9_]/.test(text[i])]: past the end [text[i]] is [undefined],
    which [test] reads as the text [undefined]. *)
Definition test_word (s : text) (i : nat) : bool :=
  match s !! i with
  | Some c => is_word c
  | None => true
  end.

(** [while (start > 0 && test(text[start - 1])) start--] *)
Fixpoint word_start (s : text) (start : nat) : nat :=
  match start with
  | 0 => 0
  | S before => if test_word s before then word_start s before else start
  end.

(** [while (end < text.length && test(text[end])) end++]; [fuel] bounds
    the number of iterations. *)
Fixpoint word_end (fuel : nat) (s : text) (end_ : nat) : nat :=
  match fuel with
  | 0 => end_
  | S fuel =>
      if bool_decide (end_ < length s) && test_word s end_
      then word_end fuel s (S end_)
      else end_
  end.

(** The text is that long at most, so [length s - offset] iterations are
    enough. *)
Definition getCurrentWord (s : text) (offset : nat) : text :=
  let start := word_start s offset in
  let end_ := word_end (length s - offset) s offset in
  slice start end_ s.

Lemma word_start_spec (s : text) (offset : nat) :
  word_start s offset ≤ offset
  ∧ (∀ k, word_start s offset ≤ k < offset → test_word s k = true)
  ∧ (word_start s offset = 0 ∨ test_word s (word_start s offset - 1) = false).
Proof.
  induction offset as [|offset (Hle & Hrun & Hstop)]; cbn [word_start].
  - split; [done|]. split; [intros k; lia | by left].
  - destruct (test_word s offset) eqn:Ht.
    + split; [lia|]. split; [|done].
      intros k Hk. destruct (decide (k = offset)) as [-> | ?]; [done|].
      apply Hrun. lia.
    + split; [done|]. split; [intros k; lia|]. right.
      by rewrite Nat.sub_1_r.
Qed.

Lemma word_end_spec (fuel : nat) (s : text) (offset : nat) :
  length s - offset ≤ fuel →
  let end_ := word_end fuel s offset in
  offset ≤ end_
  ∧ (offset ≤ length s → end_ ≤ length s)
  ∧ (∀ k, offset ≤ k < end_ → test_word s k = true)
  ∧ (length s ≤ end_ ∨ test_word s end_ = false).
Proof.
  revert offset. induction fuel as [|fuel IH]; intros offset Hfuel; cbn [word_end].
  - split; [done|]. split; [done|]. split; [intros k; lia|]. left. lia.
  - destruct (bool_decide (offset < length s)) eqn:Hlt; cbn [andb].
    + apply bool_decide_eq_true in Hlt.
      destruct (test_word s offset) eqn:Ht.
      * destruct (IH (S offset)) as (Hle & Hlen & Hrun & Hstop); [lia|].
        split; [lia|]. split; [intros _; apply Hlen; lia|]. split; [|done].
        intros k Hk. destruct (decide (k = offset)) as [-> | ?]; [done|].
        apply Hrun. lia.
      * split; [done|]. split; [done|]. split; [intros k; lia|]. by right.
    + apply bool_decide_eq_false in Hlt.
      split; [done|]. split; [done|]. split; [intros k; lia|]. left. lia.
Qed.

Lemma word_start_past_end (s : text) (offset : nat) :
  length s ≤ offset → word_start s offset = word_start s (length s).
Proof.
  induction offset as [|offset IH]; intros Hlen.
  - by replace (length s) with 0 by lia.
  - destruct (decide (length s = S offset)) as [-> | Hne]; [done|].
    cbn [word_start]. unfold test_word.
    assert (s !! offset = None) as -> by (apply lookup_ge_None_2; lia).
    apply IH. lia.
Qed.

(** X9.  [getCurrentWord] returns the word under the cursor: for an offset
    inside the text, the longest run of letters, digits and underscores
    that contains the offset; it holds word characters only and is closed
    by a character that is not one, or by the start or end of the text, on
    either side.  An offset past the end gives the word the text ends
    with. *)
Theorem getCurrentWord_is_the_word_at_the_cursor (s : text) (offset : nat) :
  (offset ≤ length s →
   ∃ start end_,
     start ≤ offset ≤ end_ ∧ end_ ≤ length s
     ∧ getCurrentWord s offset = slice start end_ s
     ∧ length (getCurrentWord s offset) = end_ - start
     ∧ Forall (fun c => is_word c = true) (getCurrentWord s offset)
     ∧ (∀ c, 0 < start → s !! (start - 1) = Some c → is_word c = false)
     ∧ (∀ c, s !! end_ = Some c → is_word c = false))
  ∧ (length s ≤ offset → getCurrentWord s offset = getCurrentWord s (length s)).
Proof.
  split.
  - intros Hoff. unfold getCurrentWord.
    destruct (word_start_spec s offset) as (Hs & Hsrun & Hsstop).
    destruct (word_end_spec (length s - offset) s offset (le_n _))
      as (He & Helen & Herun & Hestop).
    specialize (Helen Hoff).
    set (start := word_start s offset) in *.
    set (end_ := word_end (length s - offset) s offset) in *.
    exists start, end_. split; [done|]. split; [done|]. split; [done|].
    split; [unfold slice; rewrite length_take, length_drop; lia|].
    split; [|split].
    + apply Forall_lookup_2. intros i c Hi. unfold slice in Hi.
      apply lookup_take_Some in Hi as [Hi Hlt].
      rewrite lookup_drop in Hi.
      destruct (decide (start + i < offset)) as [Hbefore | Hafter].
      * specialize (Hsrun (start + i)). unfold test_word, text in Hsrun.
        rewrite Hi in Hsrun. apply Hsrun. lia.
      * specialize (Herun (start + i)). unfold test_word, text in Herun.
        rewrite Hi in Herun. apply Herun. lia.
    + intros c Hpos Hc. destruct Hsstop as [? | Hstop]; [lia|].
      unfold test_word in Hstop. by rewrite Hc in Hstop.
    + intros c Hc. destruct Hestop as [Hlen | Hstop].
      * apply lookup_lt_Some in Hc. lia.
      * unfold test_word in Hstop. by rewrite Hc in Hstop.
  - intros Hlen. unfold getCurrentWord.
    rewrite (word_start_past_end s offset Hlen).
    replace (length s - offset) with 0 by lia.
    rewrite Nat.sub_diag. cbn [word_end]. unfold slice.
    pose proof (word_start_spec s (length s)) as (Hs & _).
    rewrite !take_ge by (rewrite length_drop; lia). done.
Qed.

(** *** [findMiniNotationContext] *)

Definition double_quote : Z := 34.
Definition single_quote : Z := 39.
Definition backslash : Z := 92.
Definition semicolon : Z := 59.

Definition is_quote (c : Z) : bool := ((c =? double_quote) || (c =? single_quote))%Z.

(** [i > 0 && text[i - 1] === '\\'] *)
Definition escaped (s : text) (i : nat) : bool :=
  bool_decide (0 < i)
  && match s !! (i - 1) with
     | Some c => (c =? backslash)%Z
     | None => false
     end.

Record MiniContext : Type := {
  inMini : bool;
  content : text;
  startOffset : nat
}.

(** The loop [for (let i = offset - 1; i >= 0; i--)], entered with
    [i + 1]: the position of the opening quote and the quote character. *)
Fixpoint quote_start (s : text) (next : nat) : option (nat * Z) :=
  match next with
  | 0 => None
  | S i =>
      match s !! i with
      | Some char =>
          if is_quote char then
            if escaped s i then quote_start s i else Some (i, char)
          else if ((char =? newline) || (char =? semicolon))%Z then None
          else quote_start s i
      | None => quote_start s i
      end
  end.

(** The loop [for (let i = offset; i < text.length; i++)]; [fuel] bounds
    the number of iterations. *)
Fixpoint quote_end (fuel : nat) (s : text) (quoteChar : Z) (i : nat) : option nat :=
  match fuel with
  | 0 => None
  | S fuel =>
      match s !! i with
      | Some char =>
          if (char =? quoteChar)%Z then
            if escaped s i then quote_end fuel s quoteChar (S i) else Some i
          else if (char =? newline)%Z then None
          else quote_end fuel s quoteChar (S i)
      | None => None
      end
  end.

Definition findMiniNotationContext (s : text) (offset : nat) : option MiniContext :=
  match quote_start s offset with
  | None => None
  | Some (quoteStart, quoteChar) =>
      match quote_end (length s - offset) s quoteChar offset with
      | None => None
      | Some quoteEnd =>
          Some {| inMini := true;
                  content := slice (quoteStart + 1) quoteEnd s;
                  startOffset := quoteStart + 1 |}
      end
  end.

Lemma quote_start_spec (s : text) (offset i : nat) (q : Z) :
  quote_start s offset = Some (i, q) →
  i < offset ∧ s !! i = Some q ∧ is_quote q = true ∧ escaped s i = false
  ∧ ∀ k c, i < k < offset → s !! k = Some c →
           c ≠ newline ∧ c ≠ semicolon ∧ (is_quote c = true → escaped s k = true).
Proof.
  induction offset as [|offset IH]; cbn [quote_start]; [done|].
  assert (Hstep : quote_start s offset = Some (i, q) →
                  (∀ c, s !! offset = Some c →
                        c ≠ newline ∧ c ≠ semicolon
                        ∧ (is_quote c = true → escaped s offset = true)) →
                  i < S offset ∧ s !! i = Some q ∧ is_quote q = true
                  ∧ escaped s i = false
                  ∧ ∀ k c, i < k < S offset → s !! k = Some c →
                           c ≠ newline ∧ c ≠ semicolon
                           ∧ (is_quote c = true → escaped s k = true)).
  { intros H Hhere. destruct (IH H) as (Hi & Hq & Hquote & Hesc & Hrun).
    split; [lia|]. split; [done|]. split; [done|]. split; [done|].
    intros k c Hk Hc. destruct (decide (k = offset)) as [-> | ?]; [by apply Hhere|].
    apply (Hrun k c); [lia | done]. }
  destruct (s !! offset) as [char|] eqn:Hchar; [|intros H; by apply Hstep].
  destruct (is_quote char) eqn:Hquote.
  - destruct (escaped s offset) eqn:Hesc.
    + intros H. apply Hstep; [done|]. intros c [= <-].
      unfold is_quote, double_quote, single_quote, newline, semicolon in *. lia.
    + intros [= <- <-]. split; [lia|]. split; [done|]. split; [done|]. split; [done|].
      intros k c Hk. lia.
  - destruct ((char =? newline) || (char =? semicolon))%Z eqn:Hbreak; [done|].
    intros H. apply Hstep; [done|]. intros c [= <-].
    split; [|split]; [| |by rewrite Hquote]; intros ->; by cbn in Hbreak.
Qed.

Lemma quote_end_spec (fuel : nat) (s : text) (q : Z) (offset j : nat) :
  q ≠ newline →
  quote_end fuel s q offset = Some j →
  offset ≤ j ∧ s !! j = Some q ∧ escaped s j = false
  ∧ ∀ k c, offset ≤ k < j → s !! k = Some c →
           c ≠ newline ∧ (c = q → escaped s k = true).
Proof.
  intros Hquote.
  revert offset. induction fuel as [|fuel IH]; intros offset; cbn [quote_end]; [done|].
  assert (Hstep : quote_end fuel s q (S offset) = Some j →
                  (∀ c, s !! offset = Some c →
                        c ≠ newline ∧ (c = q → escaped s offset = true)) →
                  offset ≤ j ∧ s !! j = Some q ∧ escaped s j = false
                  ∧ ∀ k c, offset ≤ k < j → s !! k = Some c →
                           c ≠ newline ∧ (c = q → escaped s k = true)).
  { intros H Hhere. destruct (IH _ H) as (Hj & Hq & Hesc & Hrun).
    split; [lia|]. split; [done|]. split; [done|].
    intros k c Hk Hc. destruct (decide (k = offset)) as [-> | ?]; [by apply Hhere|].
    apply (Hrun k c); [lia | done]. }
  destruct (s !! offset) as [char|] eqn:Hchar; [|done].
  destruct (char =? q)%Z eqn:Hq.
  - apply Z.eqb_eq in Hq as ->. destruct (escaped s offset) eqn:Hesc.
    + intros H. apply Hstep; [done|]. by intros c [= <-].
    + intros [= <-]. split; [done|]. split; [done|]. split; [done|].
      intros k c Hk. lia.
  - destruct (char =? newline)%Z eqn:Hnl; [done|].
    intros H. apply Hstep; [done|]. intros c [= <-].
    split; [intros ->; by rewrite Z.eqb_refl in Hnl|].
    intros ->. by rewrite Z.eqb_refl in Hq.
Qed.

Lemma is_quote_not_newline (q : Z) : is_quote q = true → q ≠ newline.
Proof. intros H ->. done. Qed.

(** X10.  What [findMiniNotationContext] returns lies between two equal
    quote characters of the text and contains the cursor: the start offset
    follows a quote, the content is the text from there up to the same
    quote character, the cursor is inside or at either end of it, and the
    content holds no line break, nor a semicolon before the cursor. *)
Theorem findMiniNotationContext_sound (s : text) (offset : nat) (ctx : MiniContext) :
  findMiniNotationContext s offset = Some ctx →
  inMini ctx = true
  ∧ 0 < startOffset ctx ≤ offset
  ∧ offset ≤ startOffset ctx + length (content ctx)
  ∧ content ctx = take (length (content ctx)) (drop (startOffset ctx) s)
  ∧ (∃ q, is_quote q = true
          ∧ s !! (startOffset ctx - 1) = Some q
          ∧ s !! (startOffset ctx + length (content ctx)) = Some q)
  ∧ (newline ∉ content ctx)
  ∧ semicolon ∉ take (offset - startOffset ctx) (content ctx).
Proof.
  unfold findMiniNotationContext.
  destruct (quote_start s offset) as [[i q]|] eqn:Hstart; [|done].
  destruct (quote_end (length s - offset) s q offset) as [j|] eqn:Hend; [|done].
  intros [= <-]. cbn [inMini content startOffset].
  apply quote_start_spec in Hstart as (Hi & Hq & Hquote & _ & Hleft).
  apply quote_end_spec in Hend as (Hj & Hq' & _ & Hright);
    [|by apply is_quote_not_newline].
  assert (Hlen : j < length s) by (by apply lookup_lt_Some in Hq').
  assert (Hcontent : length (slice (i + 1) j s) = j - (i + 1)).
  { unfold slice. rewrite length_take, length_drop. lia. }
  rewrite Hcontent.
  split; [done|]. split; [lia|]. split; [lia|]. split; [done|].
  split; [|split].
  - exists q. split; [done|]. split.
    + by replace (i + 1 - 1) with i by lia.
    + by replace (i + 1 + (j - (i + 1))) with j by lia.
  - intros Hin. apply list_elem_of_lookup_1 in Hin as [k Hk].
    unfold slice in Hk. apply lookup_take_Some in Hk as [Hk Hlt].
    rewrite lookup_drop in Hk.
    destruct (decide (i + 1 + k < offset)) as [Hbefore | Hafter].
    + destruct (Hleft (i + 1 + k) newline); [lia | done | done].
    + destruct (Hright (i + 1 + k) newline); [lia | done | done].
  - intros Hin. apply list_elem_of_lookup_1 in Hin as [k Hk].
    apply lookup_take_Some in Hk as [Hk Hlt].
    unfold slice in Hk. apply lookup_take_Some in Hk as [Hk Hlt'].
    rewrite lookup_drop in Hk.
    destruct (Hleft (i + 1 + k) semicolon) as (_ & ? & _); [lia | done | done].
Qed.

(** The cursor between [left] and [right] inside a quoted text. *)
Lemma quote_start_found (before left rest : text) (q : Z) (n : nat) :
  is_quote q = true →
  last before ≠ Some backslash →
  Forall (fun c => is_quote c = false ∧ c ≠ newline ∧ c ≠ semicolon) left →
  n ≤ length left →
  quote_start (before ++ q :: left ++ rest) (length before + 1 + n)
  = Some (length before, q).
Proof.
  intros Hq Hbefore Hleft. set (s := before ++ q :: left ++ rest).
  induction n as [|n IH]; intros Hn.
  - replace (length before + 1 + 0) with (S (length before)) by lia.
    cbn [quote_start]. unfold text.
    assert (s !! length before = Some q) as -> by (subst s; by rewrite list_lookup_middle).
    rewrite Hq.
    assert (escaped s (length before) = false) as ->; [|done].
    unfold escaped, text. destruct (decide (0 < length before)) as [Hpos | Hzero].
    + rewrite bool_decide_eq_true_2 by done. cbn [andb].
      assert (s !! (length before - 1) = last before) as ->.
      { subst s. rewrite lookup_app_l by lia. by rewrite last_lookup, Nat.sub_1_r. }
      destruct (last before) as [c|]; [|done].
      apply Z.eqb_neq. congruence.
    + by rewrite bool_decide_eq_false_2.
  - replace (length before + 1 + S n) with (S (length before + 1 + n)) by lia.
    cbn [quote_start]. unfold text.
    assert (is_Some (left !! n)) as [c Hc] by (apply lookup_lt_is_Some_2; lia).
    assert (s !! (length before + 1 + n) = Some c) as ->.
    { subst s. rewrite lookup_app_r by lia.
      replace (length before + 1 + n - length before) with (S n) by lia.
      change ((left ++ rest) !! n = Some c). by rewrite lookup_app_l by lia. }
    rewrite Forall_lookup in Hleft. destruct (Hleft n c Hc) as (-> & Hnl & Hsemi).
    apply Z.eqb_neq in Hnl, Hsemi. rewrite Hnl, Hsemi. cbn [orb].
    apply IH. lia.
Qed.

Lemma quote_end_found (before right after : text) (q : Z) (m fuel : nat) :
  q ≠ newline →
  last (before ++ right) ≠ Some backslash →
  Forall (fun c => c ≠ q ∧ c ≠ newline) right →
  m ≤ length right →
  length right - m < fuel →
  quote_end fuel (before ++ right ++ q :: after) q (length before + m)
  = Some (length before + length right).
Proof.
  intros Hq Hlast Hright. set (s := before ++ right ++ q :: after).
  revert m. induction fuel as [|fuel IH]; intros m Hm Hfuel; [lia|].
  cbn [quote_end]. unfold text.
  destruct (decide (m = length right)) as [-> | Hne].
  - assert (s !! (length before + length right) = Some q) as ->.
    { subst s. rewrite lookup_app_r by lia.
      replace (length before + length right - length before) with (length right) by lia.
      by rewrite list_lookup_middle. }
    rewrite Z.eqb_refl.
    assert (escaped s (length before + length right) = false) as ->; [|done].
    unfold escaped, text.
    destruct (bool_decide (0 < length before + length right)) eqn:Hpos; [|done].
    apply bool_decide_eq_true in Hpos. cbn [andb].
    assert (s !! (length before + length right - 1) = last (before ++ right)) as ->.
    { subst s. rewrite (assoc_L (++)), lookup_app_l by (rewrite length_app; lia).
      by rewrite last_lookup, length_app, Nat.sub_1_r. }
    destruct (last (before ++ right)) as [c|]; [|done].
    apply Z.eqb_neq. congruence.
  - assert (is_Some (right !! m)) as [c Hc] by (apply lookup_lt_is_Some_2; lia).
    assert (s !! (length before + m) = Some c) as ->.
    { subst s. rewrite lookup_app_r by lia.
      replace (length before + m - length before) with m by lia.
      by rewrite lookup_app_l by lia. }
    rewrite Forall_lookup in Hright. destruct (Hright m c Hc) as (Hcq & Hnl).
    apply Z.eqb_neq in Hcq, Hnl. rewrite Hcq, Hnl.
    replace (S (length before + m)) with (length before + S m) by lia.
    apply IH; lia.
Qed.

(** X11.  With the cursor inside a quoted text, [findMiniNotationContext]
    finds it.  The text before the cursor, back to the opening quote,
    holds no quote, line break or semicolon; the text after it, up to the
    closing quote, holds neither that quote character nor a line break;
    and neither quote follows a backslash.  The result is the whole text
    between the quotes and the offset where it starts. *)
Theorem findMiniNotationContext_inside_quotes
    (before left right after : text) (q : Z) :
  is_quote q = true →
  last before ≠ Some backslash →
  last (q :: left ++ right) ≠ Some backslash →
  Forall (fun c => is_quote c = false ∧ c ≠ newline ∧ c ≠ semicolon) left →
  Forall (fun c => c ≠ q ∧ c ≠ newline) right →
  findMiniNotationContext (before ++ q :: left ++ right ++ q :: after)
                          (length before + 1 + length left)
  = Some {| inMini := true; content := left ++ right;
            startOffset := length before + 1 |}.
Proof.
  intros Hq Hbefore Hlast Hleft Hright. unfold findMiniNotationContext.
  rewrite (quote_start_found before left (right ++ q :: after) q (length left))
    by done.
  set (s := before ++ q :: left ++ right ++ q :: after).
  assert (Hs : s = (before ++ q :: left) ++ right ++ q :: after).
  { subst s. by rewrite <- (assoc_L (++)). }
  assert (Hlen : length (before ++ q :: left) = length before + 1 + length left).
  { rewrite length_app. cbn. lia. }
  assert (Hend : quote_end (length s - (length before + 1 + length left)) s q
                   (length before + 1 + length left)
                 = Some (length before + 1 + length left + length right)).
  { rewrite Hs, <- Hlen.
    rewrite <- (Nat.add_0_r (length (before ++ q :: left))) at 2.
    apply quote_end_found; [by apply is_quote_not_newline | | done | lia |].
    - rewrite <- (assoc_L (++)). cbn [app].
      rewrite last_app. by destruct (last (q :: left ++ right)).
    - repeat (rewrite ?length_app; cbn [length]). lia. }
  rewrite Hend. f_equal. f_equal.
  assert (Hs' : s = (before ++ [q]) ++ (left ++ right) ++ q :: after).
  { subst s. by rewrite <- !(assoc_L (++)). }
  unfold slice. rewrite Hs'.
  rewrite drop_app_length' by (rewrite length_app; cbn; lia).
  apply take_app_length'. rewrite length_app. lia.
Qed.

(** *** [findFunctionContext] *)

Definition left_paren : Z := 40.
Definition right_paren : Z := 41.
Definition comma : Z := 44.

Record FunctionContext : Type := {
  name : text;
  paramIndex : nat
}.

(** The loop [for (let i = offset - 1; i >= 0; i--)], entered with
    [i + 1].  The inner loop that looks for the start of the name is the
    backward loop of [getCurrentWord], started at the parenthesis. *)
Fixpoint call_scan (s : text) (next depth paramIndex : nat) : option FunctionContext :=
  match next with
  | 0 => None
  | S i =>
      match s !! i with
      | Some char =>
          if (char =? right_paren)%Z then call_scan s i (S depth) paramIndex
          else if (char =? left_paren)%Z then
            if depth =? 0 then
              let nameEnd := i in
              let nameStart := word_start s i in
              if nameStart <? nameEnd
              then Some {| name := slice nameStart nameEnd s; paramIndex := paramIndex |}
              else None
            else call_scan s i (depth - 1) paramIndex
          else if (char =? comma)%Z && (depth =? 0) then
            call_scan s i depth (S paramIndex)
          else if ((char =? newline) || (char =? semicolon))%Z then None
          else call_scan s i depth paramIndex
      | None => call_scan s i depth paramIndex
      end
  end.

Definition findFunctionContext (s : text) (offset : nat) : option FunctionContext :=
  call_scan s offset 0 0.

Definition count_commas (s : text) : nat :=
  length (filter (fun c => c = comma) s).

Lemma slice_S_Some (s : text) (start n : nat) (c : Z) :
  start ≤ n → s !! n = Some c → slice start (S n) s = slice start n s ++ [c].
Proof.
  intros Hn Hc. unfold slice.
  replace (S n - start) with (S (n - start)) by lia.
  apply take_S_r. rewrite lookup_drop.
  by replace (start + (n - start)) with n by lia.
Qed.

Lemma slice_S_None (s : text) (start n : nat) :
  s !! n = None → slice start (S n) s = slice start n s.
Proof.
  intros Hc. apply lookup_ge_None_1 in Hc. unfold slice.
  destruct (decide (start ≤ n)).
  - rewrite !take_ge by (rewrite length_drop; lia). done.
  - by replace (S n - start) with (n - start) by lia.
Qed.

Lemma count_commas_snoc (s : text) (c : Z) :
  count_commas (s ++ [c]) = count_commas s + (if decide (c = comma) then 1 else 0).
Proof.
  unfold count_commas, text. rewrite filter_app, length_app. f_equal.
  destruct (decide (c = comma)).
  - by rewrite filter_cons_True.
  - by rewrite filter_cons_False.
Qed.

Lemma count_commas_slice_S (s : text) (i next : nat) :
  i < next →
  count_commas (slice (S i) (S next) s)
  = count_commas (slice (S i) next s)
    + match s !! next with
      | Some c => if decide (c = comma) then 1 else 0
      | None => 0
      end.
Proof.
  intros Hi. destruct (s !! next) as [c|] eqn:Hc.
  - rewrite (slice_S_Some s (S i) next c) by (done || lia).
    apply count_commas_snoc.
  - rewrite slice_S_None by done. lia.
Qed.

Lemma call_scan_spec (s : text) (next depth p : nat) (ctx : FunctionContext) :
  call_scan s next depth p = Some ctx →
  ∃ i, i < next
       ∧ s !! i = Some left_paren
       ∧ word_start s i < i
       ∧ name ctx = slice (word_start s i) i s
       ∧ p ≤ paramIndex ctx ≤ p + count_commas (slice (S i) next s)
       ∧ ∀ k c, i < k < next → s !! k = Some c → c ≠ newline ∧ c ≠ semicolon.
Proof.
  revert depth p. induction next as [|next IH]; intros depth p; cbn [call_scan]; [done|].
  assert (Hstep : ∀ depth' p',
    p ≤ p' →
    p' ≤ p + match s !! next with
             | Some c => if decide (c = comma) then 1 else 0
             | None => 0
             end →
    (∀ c, s !! next = Some c → c ≠ newline ∧ c ≠ semicolon) →
    call_scan s next depth' p' = Some ctx →
    ∃ i, i < S next
         ∧ s !! i = Some left_paren
         ∧ word_start s i < i
         ∧ name ctx = slice (word_start s i) i s
         ∧ p ≤ paramIndex ctx ≤ p + count_commas (slice (S i) (S next) s)
         ∧ ∀ k c, i < k < S next → s !! k = Some c → c ≠ newline ∧ c ≠ semicolon).
  { intros depth' p' Hp Hp' Hhere H.
    destruct (IH _ _ H) as (i & Hi & Hparen & Hname & Hslice & Hcount & Hrun).
    exists i. split; [lia|]. split; [done|]. split; [done|]. split; [done|].
    split.
    - rewrite count_commas_slice_S by done. lia.
    - intros k c Hk Hc. destruct (decide (k = next)) as [-> | ?]; [by apply Hhere|].
      apply (Hrun k c); [lia | done]. }
  destruct (s !! next) as [char|] eqn:Hchar.
  2:{ apply Hstep; [lia | lia | done]. }
  destruct (char =? right_paren)%Z eqn:Hr.
  { apply Z.eqb_eq in Hr as ->. apply Hstep; [lia | lia |]. by intros c [= <-]. }
  destruct (char =? left_paren)%Z eqn:Hl.
  { apply Z.eqb_eq in Hl as ->. destruct (depth =? 0).
    - destruct (word_start s next <? next) eqn:Hname; [|done].
      apply Nat.ltb_lt in Hname. intros [= <-]. cbn [name paramIndex].
      exists next. split; [lia|]. split; [done|]. split; [done|]. split; [done|].
      split; [lia|]. intros k c Hk. lia.
    - apply Hstep; [lia | lia |]. by intros c [= <-]. }
  destruct (char =? comma)%Z eqn:Hc; cbn [andb].
  { apply Z.eqb_eq in Hc as ->. destruct (depth =? 0).
    - apply Hstep; [lia | rewrite decide_True by done; lia |]. by intros c [= <-].
    - cbn [orb]. apply Hstep; [lia | lia |]. by intros c [= <-]. }
  destruct ((char =? newline) || (char =? semicolon))%Z eqn:Hbreak; [done|].
  apply Hstep; [lia | lia |]. intros c [= <-].
  split; intros ->; by cbn in Hbreak.
Qed.

(** X12.  What [findFunctionContext] returns is a call that is open at
    the cursor: a name that is not empty, made of word characters only,
    not preceded by a word character and followed by an opening
    parenthesis before the cursor; no line break or semicolon lies between
    the parenthesis and the cursor, and the parameter index is at most the
    number of commas there. *)
Theorem findFunctionContext_sound (s : text) (offset : nat) (ctx : FunctionContext) :
  findFunctionContext s offset = Some ctx →
  ∃ nameStart nameEnd,
    nameStart < nameEnd ∧ nameEnd < offset
    ∧ name ctx = slice nameStart nameEnd s
    ∧ length (name ctx) = nameEnd - nameStart
    ∧ Forall (fun c => is_word c = true) (name ctx)
    ∧ (∀ c, 0 < nameStart → s !! (nameStart - 1) = Some c → is_word c = false)
    ∧ s !! nameEnd = Some left_paren
    ∧ paramIndex ctx ≤ count_commas (slice (S nameEnd) offset s)
    ∧ Forall (fun c => c ≠ newline ∧ c ≠ semicolon) (slice (S nameEnd) offset s).
Proof.
  intros H. apply call_scan_spec in H as (i & Hi & Hparen & Hname & Hslice & Hcount & Hrun).
  destruct (word_start_spec s i) as (_ & Hwrun & Hwstop).
  assert (Hlen : i < length s) by (by apply lookup_lt_Some in Hparen).
  exists (word_start s i), i. split; [done|]. split; [done|]. split; [done|].
  split; [rewrite Hslice; unfold slice; rewrite length_take, length_drop; lia|].
  split; [|split; [|split; [done|split; [lia|]]]].
  - rewrite Hslice. apply Forall_lookup_2. intros k c Hk. unfold slice in Hk.
    apply lookup_take_Some in Hk as [Hk Hlt]. rewrite lookup_drop in Hk.
    specialize (Hwrun (word_start s i + k)). unfold test_word, text in Hwrun.
    rewrite Hk in Hwrun. apply Hwrun. lia.
  - intros c Hpos Hc. destruct Hwstop as [? | Hstop]; [lia|].
    unfold test_word in Hstop. by rewrite Hc in Hstop.
  - apply Forall_lookup_2. intros k c Hk. unfold slice in Hk.
    apply lookup_take_Some in Hk as [Hk Hlt]. rewrite lookup_drop in Hk.
    apply (Hrun (S i + k)); [lia | done].
Qed.

Lemma word_start_found (before word rest : text) (n : nat) :
  Forall (fun c => is_word c = true) word →
  (∀ c, last before = Some c → is_word c = false) →
  n ≤ length word →
  word_start (before ++ word ++ rest) (length before + n) = length before.
Proof.
  intros Hword Hbefore. set (s := before ++ word ++ rest).
  induction n as [|n IH]; intros Hn.
  - rewrite Nat.add_0_r. destruct (length before) as [|m] eqn:Hm; [done|].
    cbn [word_start]. unfold test_word, text.
    assert (s !! m = last before) as ->.
    { subst s. rewrite lookup_app_l by lia. by rewrite last_lookup, Hm. }
    destruct (last before) as [c|] eqn:Hc.
    + by rewrite (Hbefore c).
    + apply last_None in Hc. by rewrite Hc in Hm.
  - replace (length before + S n) with (S (length before + n)) by lia.
    cbn [word_start]. unfold test_word, text.
    assert (is_Some (word !! n)) as [c Hc] by (apply lookup_lt_is_Some_2; lia).
    assert (s !! (length before + n) = Some c) as ->.
    { subst s. rewrite lookup_app_r by lia.
      replace (length before + n - length before) with n by lia.
      by rewrite lookup_app_l by lia. }
    rewrite Forall_lookup in Hword. rewrite (Hword n c Hc). apply IH. lia.
Qed.

(** X13.  With the cursor at the end of the arguments typed so far,
    [findFunctionContext] finds the call: when these hold no parenthesis,
    line break or semicolon, and the name is a run of word characters
    that no word character precedes, the result is that name and the
    number of commas among the arguments. *)
Theorem findFunctionContext_flat_call (before fname args after : text) :
  fname ≠ [] →
  Forall (fun c => is_word c = true) fname →
  (∀ c, last before = Some c → is_word c = false) →
  Forall (fun c => c ≠ left_paren ∧ c ≠ right_paren ∧ c ≠ newline ∧ c ≠ semicolon) args →
  findFunctionContext (before ++ fname ++ left_paren :: args ++ after)
                      (length before + length fname + 1 + length args)
  = Some {| name := fname; paramIndex := count_commas args |}.
Proof.
  intros Hne Hword Hbefore Hargs. unfold findFunctionContext.
  set (s := before ++ fname ++ left_paren :: args ++ after).
  set (base := length before + length fname).
  assert (Hscan : ∀ n p, n ≤ length args →
            call_scan s (base + 1 + n) 0 p
            = call_scan s (base + 1) 0 (p + count_commas (take n args))).
  { induction n as [|n IH]; intros p Hn.
    - by rewrite !Nat.add_0_r.
    - replace (base + 1 + S n) with (S (base + 1 + n)) by lia.
      cbn [call_scan]. unfold text.
      assert (is_Some (args !! n)) as [c Hc] by (apply lookup_lt_is_Some_2; lia).
      assert (s !! (base + 1 + n) = Some c) as ->.
      { subst s base. rewrite lookup_app_r by lia. rewrite lookup_app_r by lia.
        replace (length before + length fname + 1 + n - length before - length fname)
          with (S n) by lia.
        change ((args ++ after) !! n = Some c). by rewrite lookup_app_l by lia. }
      rewrite (take_S_r args n c Hc), count_commas_snoc.
      rewrite Forall_lookup in Hargs.
      destruct (Hargs n c Hc) as (Hl & Hr & Hnl & Hsemi).
      apply Z.eqb_neq in Hl, Hr, Hnl, Hsemi. rewrite Hl, Hr, Hnl, Hsemi.
      destruct (decide (c = comma)) as [-> | Hc'].
      + rewrite Z.eqb_refl. cbn [Nat.eqb andb orb]. rewrite IH by lia. f_equal. lia.
      + apply Z.eqb_neq in Hc'. rewrite Hc'. cbn [Nat.eqb andb orb].
        rewrite IH by lia. f_equal. lia. }
  replace (length before + length fname + 1 + length args)
    with (base + 1 + length args) by (subst base; lia).
  rewrite Hscan by done. rewrite firstn_all. cbn [Nat.add].
  replace (base + 1) with (S base) by lia. cbn [call_scan]. unfold text.
  assert (s !! base = Some left_paren) as ->.
  { subst s base. rewrite lookup_app_r by lia.
    replace (length before + length fname - length before) with (length fname) by lia.
    by rewrite list_lookup_middle. }
  cbn [Z.eqb left_paren right_paren Pos.eqb Nat.eqb].
  assert (Hstart : word_start s base = length before).
  { subst s base. by apply word_start_found. }
  rewrite Hstart.
  assert (Hlt : length before < base).
  { subst base. destruct fname; [done|]. cbn. lia. }
  apply Nat.ltb_lt in Hlt as ->. f_equal. f_equal.
  subst s base. unfold slice. rewrite drop_app_length.
  apply take_app_length'. lia.
Qed.

(** *** [levenshtein] *)

(** [arr[i] = v] on an array without holes: an element is replaced, or
    appended when [i] is the length.  Past the length JavaScript would
    leave holes; that case is [None]. *)
Definition store {A} (i : nat) (v : A) (arr : list A) : option (list A) :=
  if decide (i < length arr) then Some (<[i := v]> arr)
  else if decide (i = length arr) then Some (arr ++ [v])
  else None.

(** [matrix[i][j]]; [None] stands for a read that finds no number. *)
Definition cell (matrix : list (list nat)) (i j : nat) : option nat :=
  row ← matrix !! i; row !! j.

(** [matrix[i][j] = v] *)
Definition set_cell (matrix : list (list nat)) (i j v : nat)
  : option (list (list nat)) :=
  row ← matrix !! i;
  row ← store j v row;
  Some (<[i := row]> matrix).

(** A [for] loop over the given values of its counter. *)
Fixpoint for_each {St} (body : nat → St → option St) (counter : list nat) (s : St)
  : option St :=
  match counter with
  | [] => Some s
  | i :: rest => s ← body i s; for_each body rest s
  end.

(** [s.charAt(i)] *)
Definition charAt (s : text) (i : nat) : text :=
  match s !! i with Some c => [c] | None => [] end.

Definition levenshtein (a b : text) : option nat :=
  matrix ← for_each (fun i matrix => store i [i] matrix) (seq 0 (S (length b))) [];
  matrix ← for_each (fun j matrix => set_cell matrix 0 j j) (seq 0 (S (length a))) matrix;
  matrix ←
    for_each (fun i =>
      for_each (fun j matrix =>
        if decide (charAt b (i - 1) = charAt a (j - 1)) then
          d ← cell matrix (i - 1) (j - 1);
          set_cell matrix i j d
        else
          x ← cell matrix (i - 1) (j - 1);
          y ← cell matrix i (j - 1);
          z ← cell matrix (i - 1) j;
          set_cell matrix i j ((x + 1) `min` ((y + 1) `min` (z + 1))))
        (seq 1 (length a)))
      (seq 1 (length b)) matrix;
  cell matrix (length b) (length a).

(** Editing one text into another, one character at a time: a character
    is kept, replaced, removed or put in; the number counts all but the
    characters kept. *)
Inductive edits : text → text → nat → Prop :=
  | edits_nil : edits [] [] 0
  | edits_keep c a b n : edits a b n → edits (c :: a) (c :: b) n
  | edits_replace c c' a b n : edits a b n → edits (c :: a) (c' :: b) (S n)
  | edits_remove c a b n : edits a b n → edits (c :: a) b (S n)
  | edits_put c a b n : edits a b n → edits a (c :: b) (S n).

(** The recurrence of the matrix, on texts read from their ends. *)
Fixpoint distance (u : text) : text → nat :=
  fix distance_u (v : text) : nat :=
    match u, v with
    | [], _ => length v
    | _, [] => length u
    | x :: u', y :: v' =>
        if decide (y = x) then distance u' v'
        else S (distance u' v' `min` (distance u' v `min` distance_u v'))
    end.

Lemma distance_nil_r u : distance u [] = length u.
Proof. by destruct u. Qed.

Lemma distance_nil_l v : distance [] v = length v.
Proof. by destruct v. Qed.

Lemma distance_cons x u y v :
  distance (x :: u) (y :: v)
  = if decide (y = x) then distance u v
    else S (distance u v `min` (distance u (y :: v) `min` distance (x :: u) v)).
Proof. reflexivity. Qed.

(** One more character on either side changes the distance by one at most. *)
Lemma distance_step u :
  (∀ v y, distance u v ≤ S (distance u (y :: v)))
  ∧ (∀ v x, distance (x :: u) v ≤ S (distance u v)).
Proof.
  induction u as [|x0 u [IH1 IH2]].
  - split.
    + intros v y. rewrite !distance_nil_l. cbn. lia.
    + intros v x. destruct v as [|y v]; [cbn; lia|].
      rewrite distance_cons, !distance_nil_l. cbn [length].
      destruct (decide (y = x)); lia.
  - assert (H1 : ∀ v y, distance (x0 :: u) v ≤ S (distance (x0 :: u) (y :: v))).
    { intros v y. rewrite (distance_cons x0 u y v).
      destruct (decide (y = x0)).
      - apply IH2.
      - pose proof (IH2 v x0). pose proof (IH1 v y). lia. }
    split; [exact H1|].
    intros v x. destruct v as [|y v]; [cbn; lia|].
    rewrite (distance_cons x (x0 :: u) y v).
    destruct (decide (y = x)); [apply H1 | lia].
Qed.

Lemma distance_sym u v : distance u v = distance v u.
Proof.
  revert v. induction u as [|x u IHu]; intros v.
  - by rewrite distance_nil_r, distance_nil_l.
  - induction v as [|y v IHv]; [done|].
    rewrite !distance_cons. rewrite IHv, (IHu v), (IHu (y :: v)).
    destruct (decide (y = x)) as [-> | Hne].
    + by rewrite decide_True.
    + rewrite decide_False by done. lia.
Qed.

Lemma distance_le u v n : edits u v n → distance u v ≤ n.
Proof.
  induction 1 as [|c a b n _ IH|c c' a b n _ IH|c a b n _ IH|c a b n _ IH].
  - done.
  - rewrite distance_cons, decide_True by done. done.
  - rewrite distance_cons. destruct (decide (c' = c)); lia.
  - pose proof (proj2 (distance_step a) b c). lia.
  - pose proof (proj2 (distance_step b) a c). rewrite (distance_sym a (c :: b)).
    rewrite (distance_sym a b) in IH. lia.
Qed.

Lemma edits_length_r v : edits [] v (length v).
Proof. induction v; cbn; by constructor. Qed.

Lemma edits_length_l u : edits u [] (length u).
Proof. induction u; cbn; by constructor. Qed.

Lemma distance_edits u v : edits u v (distance u v).
Proof.
  revert v. induction u as [|x u IHu]; intros v.
  - rewrite distance_nil_l. apply edits_length_r.
  - induction v as [|y v IHv]; [apply (edits_length_l (x :: u))|].
    rewrite distance_cons. destruct (decide (y = x)) as [-> | Hne].
    + by constructor.
    + destruct (Nat.min_spec (distance u v)
                  (distance u (y :: v) `min` distance (x :: u) v)) as [[_ ->] | [_ ->]].
      * by constructor.
      * destruct (Nat.min_spec (distance u (y :: v)) (distance (x :: u) v))
          as [[_ ->] | [_ ->]]; by constructor.
Qed.

Lemma edits_app a b n a' b' n' :
  edits a b n → edits a' b' n' → edits (a ++ a') (b ++ b') (n + n').
Proof. intros H H'. induction H; cbn; by try constructor. Qed.

Lemma edits_reverse a b n : edits a b n → edits (reverse a) (reverse b) n.
Proof.
  induction 1 as [|c a b n _ IH|c c' a b n _ IH|c a b n _ IH|c a b n _ IH];
    rewrite ?reverse_cons.
  - constructor.
  - replace n with (n + 0) by lia. apply edits_app; [done|]. repeat constructor.
  - replace (S n) with (n + 1) by lia. apply edits_app; [done|]. repeat constructor.
  - replace (S n) with (n + 1) by lia. rewrite <- (app_nil_r (reverse b)).
    apply edits_app; [done|]. repeat constructor.
  - replace (S n) with (n + 1) by lia. rewrite <- (app_nil_r (reverse a)).
    apply edits_app; [done|]. repeat constructor.
Qed.

Lemma for_each_seq {St} (body : nat → St → option St) (P : nat → St → Prop)
    (start len : nat) (s : St) :
  P start s →
  (∀ i s, start ≤ i < start + len → P i s → ∃ s', body i s = Some s' ∧ P (S i) s') →
  ∃ s', for_each body (seq start len) s = Some s' ∧ P (start + len) s'.
Proof.
  revert start s. induction len as [|len IH]; intros start s Hs Hbody.
  - exists s. by rewrite Nat.add_0_r.
  - cbn [seq for_each].
    destruct (Hbody start s) as (s1 & -> & Hs1); [lia | done |].
    cbn. destruct (IH (S start) s1 Hs1) as (s2 & -> & Hs2).
    { intros i s' Hi. apply Hbody. lia. }
    exists s2. split; [done|]. by replace (start + S len) with (S start + len) by lia.
Qed.

Section Matrix.

Variables a b : text.

(** The entry the finished matrix holds in row [i], column [j]. *)
Definition entry (i j : nat) : nat :=
  distance (reverse (take j a)) (reverse (take i b)).

(** The matrix whose row [k] holds its first [width k] entries. *)
Definition rows (width : nat → nat) : list (list nat) :=
  (fun k => (fun j => entry k j) <$> seq 0 (width k)) <$> seq 0 (S (length b)).

Lemma entry_0_r (i : nat) : i ≤ length b → entry i 0 = i.
Proof.
  intros Hi. unfold entry. rewrite take_0. cbn [reverse rev_append].
  change (reverse []) with (@nil Z).
  rewrite distance_nil_l, length_reverse, length_take. lia.
Qed.

Lemma entry_0_l (j : nat) : j ≤ length a → entry 0 j = j.
Proof.
  intros Hj. unfold entry. rewrite take_0.
  change (reverse []) with (@nil Z).
  rewrite distance_nil_r, length_reverse, length_take. lia.
Qed.

Lemma entry_S (i j : nat) (x y : Z) :
  a !! j = Some x → b !! i = Some y →
  entry (S i) (S j)
  = if decide (y = x) then entry i j
    else S (entry i j `min` (entry (S i) j `min` entry i (S j))).
Proof.
  intros Ha Hb. unfold entry.
  rewrite (take_S_r a j x Ha), (take_S_r b i y Hb), !reverse_snoc.
  apply distance_cons.
Qed.

Lemma rows_lookup (width : nat → nat) (i : nat) :
  i ≤ length b →
  rows width !! i = Some ((fun j => entry i j) <$> seq 0 (width i)).
Proof.
  intros Hi. unfold rows. rewrite list_lookup_fmap, lookup_seq_lt by lia. done.
Qed.

Lemma cell_rows (width : nat → nat) (i j : nat) :
  i ≤ length b → j < width i → cell (rows width) i j = Some (entry i j).
Proof.
  intros Hi Hj. unfold cell. rewrite rows_lookup by done. cbn [mbind option_bind].
  rewrite list_lookup_fmap, lookup_seq_lt by done. done.
Qed.

Lemma set_cell_rows (width : nat → nat) (i j : nat) :
  i ≤ length b → j ≤ width i →
  set_cell (rows width) i j (entry i j)
  = Some (rows (fun k => if decide (k = i) then width i `max` S j else width k)).
Proof.
  intros Hi Hj. unfold set_cell. rewrite rows_lookup by done. cbn [mbind option_bind].
  assert (Hrow : store j (entry i j) ((fun j => entry i j) <$> seq 0 (width i))
                 = Some ((fun j => entry i j) <$> seq 0 (width i `max` S j))).
  { unfold store. rewrite length_fmap, length_seq.
    destruct (decide (j < width i)) as [Hlt | Hge].
    - replace (width i `max` S j) with (width i) by lia.
      rewrite list_insert_id; [done|].
      rewrite list_lookup_fmap, lookup_seq_lt by done. done.
    - rewrite decide_True by lia.
      replace (width i `max` S j) with (S j) by lia.
      replace (width i) with j by lia.
      by rewrite seq_S, fmap_app. }
  rewrite Hrow. cbn [mbind option_bind]. f_equal. apply list_eq. intros k.
  destruct (decide (k = i)) as [-> | Hk].
  - rewrite list_lookup_insert_eq by (unfold rows; rewrite length_fmap, length_seq; lia).
    rewrite rows_lookup by done. by rewrite decide_True.
  - rewrite list_lookup_insert_ne by done.
    unfold rows. rewrite !list_lookup_fmap.
    destruct (seq 0 (S (length b)) !! k) as [k'|] eqn:Hk'; [|done].
    apply lookup_seq in Hk' as [-> _]. cbn. by rewrite decide_False.
Qed.

Lemma rows_ext (width width' : nat → nat) :
  (∀ k, k ≤ length b → width k = width' k) → rows width = rows width'.
Proof.
  intros H. unfold rows. apply list_fmap_ext. intros i k Hk.
  apply lookup_seq in Hk as [-> Hk]. cbn in *. rewrite H by lia. done.
Qed.

(** The rows and columns that are complete when the body of the inner
    loop runs for [i] and [j]. *)
Definition progress (i j k : nat) : nat :=
  if decide (k < i) then S (length a) else if decide (k = i) then j else 1.

Lemma levenshtein_rows :
  levenshtein a b = Some (entry (length b) (length a)).
Proof.
  unfold levenshtein.
  (* the first column *)
  destruct (for_each_seq (fun i matrix => store i [i] matrix)
              (fun i matrix => matrix = (fun k => [k]) <$> seq 0 i)
              0 (S (length b)) []) as (m1 & -> & ->); [done | |].
  { intros i s _ ->. eexists. split; [|reflexivity].
    unfold store. rewrite length_fmap, length_seq.
    rewrite decide_False, decide_True by lia.
    by rewrite seq_S, fmap_app. }
  cbn [mbind option_bind Nat.add].
  assert (Hm1 : (fun k => [k]) <$> seq 0 (S (length b)) = rows (fun _ => 1)).
  { unfold rows. apply list_fmap_ext. intros i k Hk.
    apply lookup_seq in Hk as [-> Hk]. cbn in *. rewrite entry_0_r by lia. done. }
  rewrite Hm1.
  (* the first row *)
  destruct (for_each_seq (fun j matrix => set_cell matrix 0 j j)
              (fun j matrix => matrix = rows (fun k => if decide (k = 0) then 1 `max` j else 1))
              0 (S (length a)) (rows (fun _ => 1))) as (m2 & -> & ->).
  { apply rows_ext. intros k _. by case_decide. }
  { intros j s Hj ->. eexists. split; [|reflexivity].
    rewrite <- (entry_0_l j) at 2 by lia.
    rewrite set_cell_rows by (repeat case_decide; lia).
    f_equal. apply rows_ext. intros k _. repeat case_decide; lia. }
  cbn [mbind option_bind Nat.add].
  (* the other rows *)
  destruct (for_each_seq
    (fun i =>
      for_each (fun j matrix =>
        if decide (charAt b (i - 1) = charAt a (j - 1)) then
          d ← cell matrix (i - 1) (j - 1);
          set_cell matrix i j d
        else
          x ← cell matrix (i - 1) (j - 1);
          y ← cell matrix i (j - 1);
          z ← cell matrix (i - 1) j;
          set_cell matrix i j ((x + 1) `min` ((y + 1) `min` (z + 1))))
        (seq 1 (length a)))
    (fun i matrix => matrix = rows (progress i 1))
    1 (length b)
    (rows (fun k => if decide (k = 0) then 1 `max` S (length a) else 1)))
    as (m3 & -> & ->).
  { apply rows_ext. intros k _. unfold progress. repeat case_decide; lia. }
  { intros i s Hi ->.
    destruct (for_each_seq
      (fun j matrix =>
        if decide (charAt b (i - 1) = charAt a (j - 1)) then
          d ← cell matrix (i - 1) (j - 1);
          set_cell matrix i j d
        else
          x ← cell matrix (i - 1) (j - 1);
          y ← cell matrix i (j - 1);
          z ← cell matrix (i - 1) j;
          set_cell matrix i j ((x + 1) `min` ((y + 1) `min` (z + 1))))
      (fun j matrix => matrix = rows (progress i j))
      1 (length a) (rows (progress i 1))) as (m & -> & ->); [done | |].
    - intros j s Hj ->.
      destruct i as [|i]; [lia|]. destruct j as [|j]; [lia|].
      cbn [Nat.sub]. rewrite !Nat.sub_0_r.
      assert (is_Some (a !! j)) as [x Hx] by (apply lookup_lt_is_Some_2; lia).
      assert (is_Some (b !! i)) as [y Hy] by (apply lookup_lt_is_Some_2; lia).
      unfold charAt. rewrite Hx, Hy.
      rewrite (cell_rows _ i j), (cell_rows _ (S i) j), (cell_rows _ i (S j))
        by (unfold progress; repeat case_decide; lia).
      cbn [mbind option_bind].
      eexists. split; [|reflexivity].
      assert (Hset : set_cell (rows (progress (S i) (S j))) (S i) (S j) (entry (S i) (S j))
                     = Some (rows (progress (S i) (S (S j))))).
      { rewrite set_cell_rows by (unfold progress; repeat case_decide; lia).
        f_equal. apply rows_ext. intros k _. unfold progress.
        repeat case_decide; lia. }
      rewrite (entry_S i j x y Hx Hy) in Hset.
      destruct (decide (y = x)) as [-> | Hne].
      + by rewrite decide_True.
      + rewrite decide_False by congruence.
        rewrite <- Hset. f_equal. lia.
    - eexists. split; [reflexivity|].
      apply rows_ext. intros k _. unfold progress. repeat case_decide; lia. }
  cbn [mbind option_bind].
  apply cell_rows; [done|]. unfold progress. repeat case_decide; lia.
Qed.

End Matrix.

Lemma levenshtein_distance (a b : text) :
  levenshtein a b = Some (distance (reverse a) (reverse b)).
Proof.
  rewrite levenshtein_rows. unfold entry. by rewrite !firstn_all.
Qed.

(** The entry the matrix ends with counts the edits of a shortest way
    from the first text to the second. *)
Lemma distance_least (a b : text) :
  edits a b (distance (reverse a) (reverse b))
  ∧ ∀ n, edits a b n → distance (reverse a) (reverse b) ≤ n.
Proof.
  split.
  - rewrite <- (reverse_involutive a), <- (reverse_involutive b) at 1.
    apply edits_reverse, distance_edits.
  - intros n H. by apply distance_le, edits_reverse.
Qed.

(** X14.  [levenshtein] computes the edit distance: it always returns a
    number (every cell it reads has been written, and no row gets a hole),
    the first text can be turned into the second with that many
    replacements, removals and insertions of one character, and with no
    fewer. *)
Theorem levenshtein_fewest_edits (a b : text) :
  ∃ n, levenshtein a b = Some n
       ∧ edits a b n
       ∧ ∀ n', edits a b n' → n ≤ n'.
Proof.
  exists (distance (reverse a) (reverse b)).
  split; [apply levenshtein_distance|]. apply distance_least.
Qed.

Lemma edits_zero (a b : text) : edits a b 0 → a = b.
Proof.
  intros H. remember 0 as n eqn:Hn. induction H; try done.
  f_equal. by apply IHedits.
Qed.

Lemma edits_refl (a : text) : edits a a 0.
Proof. induction a; by constructor. Qed.

Lemma edits_length (a b : text) (n : nat) :
  edits a b n → length a ≤ length b + n ∧ length b ≤ length a + n.
Proof. induction 1; cbn [length]; lia. Qed.

Lemma edits_longest (a b : text) : edits a b (length a `max` length b).
Proof.
  revert b. induction a as [|x a IH]; intros b.
  - cbn [length]. rewrite Nat.max_0_l. apply edits_length_r.
  - destruct b as [|y b].
    + apply (edits_length_l (x :: a)).
    + cbn [length]. rewrite <- Nat.succ_max_distr. by constructor.
Qed.

Lemma levenshtein_same (a : text) : levenshtein a a = Some 0.
Proof.
  rewrite levenshtein_distance. f_equal.
  destruct (distance_least a a) as [_ Hleast].
  specialize (Hleast 0 (edits_refl a)). lia.
Qed.

(** X15.  The distance [levenshtein] computes is the same in both
    directions, is [0] exactly for equal texts, is at least the difference
    of the two lengths and at most the greater length. *)
Theorem levenshtein_metric (a b : text) :
  levenshtein a b = levenshtein b a
  ∧ (levenshtein a b = Some 0 ↔ a = b)
  ∧ ∃ n, levenshtein a b = Some n
         ∧ length a - length b ≤ n
         ∧ length b - length a ≤ n
         ∧ n ≤ length a `max` length b.
Proof.
  split; [|split].
  - rewrite !levenshtein_distance. f_equal. apply distance_sym.
  - split.
    + rewrite levenshtein_distance. intros [= Hzero].
      destruct (distance_least a b) as [Hedits _]. rewrite Hzero in Hedits.
      by apply edits_zero.
    + intros ->. apply levenshtein_same.
  - destruct (distance_least a b) as [Hedits Hleast].
    exists (distance (reverse a) (reverse b)).
    split; [apply levenshtein_distance|].
    apply edits_length in Hedits. specialize (Hleast _ (edits_longest a b)). lia.
Qed.

(** *** [findSimilar] *)

(** Common typos and their corrections *)
Definition TYPO_CORRECTIONS : list (string * string) :=
  [ (* Sample typos *)
    ("db", "bd"); ("ds", "sd"); ("kick", "bd"); ("snare", "sd"); ("hihat", "hh");
    ("openhat", "oh"); ("clap", "cp"); ("cowbell", "cb"); ("crash", "cr");
    ("ride", "rd");
    (* Note typos *)
    ("cf", "c"); ("ef", "e"); ("bf", "b");
    (* Function typos *)
    ("sounds", "sound"); ("notes", "note"); ("filters", "lpf"); ("lowpass", "lpf");
    ("highpass", "hpf"); ("bandpass", "bpf"); ("reverb", "room"); ("echo", "delay");
    ("volume", "gain"); ("reverse", "rev") ].

Section FindSimilar.

(** [String.prototype.toLowerCase] is built in.  [TYPO_CORRECTIONS] is a
    plain object, so a key it does not hold itself is looked up in
    [Object.prototype]: [Object_prototype] gives the member inherited
    under a name, if there is one (all of them are functions or objects,
    hence truthy). *)
Variable toLowerCase : text → text.
Variable member : Type.
Variable Object_prototype : text → option member.

Inductive suggestion : Type :=
  | Word (w : text)
  | Inherited (m : member).

(** [TYPO_CORRECTIONS[key]] when it is truthy. *)
Definition typo_correction (key : text) : option suggestion :=
  match list_find (fun kv => ascii_text (fst kv) = key) TYPO_CORRECTIONS with
  | Some (_, kv) => Some (Word (ascii_text (snd kv)))
  | None => Inherited <$> Object_prototype key
  end.

Record similar_entry : Type := { word : text; distance_to : nat }.

(** The [for (const candidate of candidates)] loop. *)
Fixpoint collect (lowerWord : text) (maxDistance : nat) (candidates : list text)
    (similar : list similar_entry) : option (list similar_entry) :=
  match candidates with
  | [] => Some similar
  | candidate :: rest =>
      distance ← levenshtein lowerWord (toLowerCase candidate);
      collect lowerWord maxDistance rest
        (if (distance <=? maxDistance) && (0 <? distance)
         then similar ++ [{| word := candidate; distance_to := distance |}]
         else similar)
  end.

(** [similar.sort((a, b) => a.distance - b.distance)]: the sort is stable,
    so its result is that of putting every entry, from the last one to the
    first, in front of the entries that are not nearer. *)
Fixpoint insert_sorted (e : similar_entry) (sorted : list similar_entry)
  : list similar_entry :=
  match sorted with
  | [] => [e]
  | e' :: rest =>
      if distance_to e <=? distance_to e' then e :: sorted
      else e' :: insert_sorted e rest
  end.

Definition sort_by_distance (similar : list similar_entry) : list similar_entry :=
  foldr insert_sorted [] similar.

Definition findSimilar (w : text) (candidates : list text) (maxDistance : option nat)
  : option (list suggestion) :=
  let maxDistance := default 2 maxDistance in
  let lowerWord := toLowerCase w in
  match typo_correction lowerWord with
  | Some correction => Some [correction]
  | None =>
      similar ← collect lowerWord maxDistance candidates [];
      Some (map (fun s => Word (word s)) (take 3 (sort_by_distance similar)))
  end.

(** The distance [findSimilar] computes for a candidate. *)
Definition distance_from (w candidate : text) : nat :=
  default 0 (levenshtein (toLowerCase w) (toLowerCase candidate)).

Definition within (w : text) (maxDistance : nat) (candidate : text) : Prop :=
  0 < distance_from w candidate ≤ maxDistance.

#[local] Instance within_dec w maxDistance candidate :
  Decision (within w maxDistance candidate).
Proof. unfold within. apply _. Defined.

Definition entry_of (w candidate : text) : similar_entry :=
  {| word := candidate; distance_to := distance_from w candidate |}.

Lemma collect_filter (w : text) (maxDistance : nat) (candidates : list text)
    (similar : list similar_entry) :
  collect (toLowerCase w) maxDistance candidates similar
  = Some (similar ++ map (entry_of w) (filter (within w maxDistance) candidates)).
Proof.
  revert similar. induction candidates as [|c candidates IH]; intros similar.
  - cbn. by rewrite app_nil_r.
  - cbn [collect].
    assert (Hd : levenshtein (toLowerCase w) (toLowerCase c) = Some (distance_from w c)).
    { unfold distance_from. by rewrite levenshtein_distance. }
    rewrite Hd. cbn [mbind option_bind]. rewrite IH.
    destruct (decide (within w maxDistance c)) as [Hin | Hout].
    + rewrite filter_cons_True by done. unfold within in Hin.
      destruct (Nat.leb_spec (distance_from w c) maxDistance); [|lia].
      destruct (Nat.ltb_spec 0 (distance_from w c)); [|lia].
      cbn [andb map]. by rewrite <- (assoc_L (++)).
    + rewrite filter_cons_False by done. unfold within in Hout.
      destruct (Nat.leb_spec (distance_from w c) maxDistance);
        destruct (Nat.ltb_spec 0 (distance_from w c)); cbn [andb]; (done || lia).
Qed.

Definition nearer (e e' : similar_entry) : Prop := distance_to e ≤ distance_to e'.

Lemma insert_sorted_Permutation (e : similar_entry) (l : list similar_entry) :
  insert_sorted e l ≡ₚ e :: l.
Proof.
  induction l as [|e' l IH]; cbn [insert_sorted]; [done|].
  destruct (distance_to e <=? distance_to e'); [done|].
  rewrite IH. apply Permutation_swap.
Qed.

Lemma sort_by_distance_Permutation (l : list similar_entry) :
  sort_by_distance l ≡ₚ l.
Proof.
  induction l as [|e l IH]; [done|].
  cbn [sort_by_distance foldr]. fold (sort_by_distance l).
  by rewrite insert_sorted_Permutation, IH.
Qed.

Lemma insert_sorted_sorted (e : similar_entry) (l : list similar_entry) :
  StronglySorted nearer l → StronglySorted nearer (insert_sorted e l).
Proof.
  induction 1 as [|e' l Hl IH Hall]; cbn [insert_sorted].
  - repeat constructor.
  - destruct (Nat.leb_spec (distance_to e) (distance_to e')) as [Hle | Hgt].
    + constructor; [by constructor|]. constructor; [done|].
      eapply Forall_impl; [exact Hall|]. unfold nearer. intros e0 He0. lia.
    + constructor; [done|].
      rewrite insert_sorted_Permutation. constructor; [|done]. unfold nearer. lia.
Qed.

Lemma sort_by_distance_sorted (l : list similar_entry) :
  StronglySorted nearer (sort_by_distance l).
Proof.
  induction l as [|e l IH]; [constructor|].
  cbn [sort_by_distance foldr]. by apply insert_sorted_sorted.
Qed.

Lemma StronglySorted_words (w : text) (l : list similar_entry) :
  Forall (fun e => distance_to e = distance_from w (word e)) l →
  StronglySorted nearer l →
  StronglySorted (fun c c' => distance_from w c ≤ distance_from w c') (map word l).
Proof.
  intros Hl Hsorted. induction Hsorted as [|e l _ IH Hall]; cbn [map]; [constructor|].
  apply Forall_cons_1 in Hl as [He Hl]. constructor; [by apply IH|].
  apply Forall_fmap. apply Forall_forall. intros e' He'.
  rewrite Forall_forall in Hall, Hl. specialize (Hall e' He'). unfold nearer in Hall.
  cbn [compose]. change (distance_from w (word e) ≤ distance_from w (word e')).
  by rewrite <- He, <- (Hl e' He').
Qed.

(** The typos of the table are pairwise different. *)
Lemma TYPO_CORRECTIONS_NoDup :
  NoDup ((fun kv => ascii_text (fst kv)) <$> TYPO_CORRECTIONS).
Proof.
  apply (bool_decide_unpack
           (NoDup ((fun kv => ascii_text (fst kv)) <$> TYPO_CORRECTIONS))).
  vm_compute. reflexivity.
Qed.

(** What the lookup gives: the correction listed for a typo of the table,
    and for any other key what [Object.prototype] has under that name. *)
Lemma typo_correction_spec (key : text) :
  (∀ typo correction,
     (typo, correction) ∈ TYPO_CORRECTIONS → ascii_text typo = key →
     typo_correction key = Some (Word (ascii_text correction)))
  ∧ ((∀ typo correction,
        (typo, correction) ∈ TYPO_CORRECTIONS → ascii_text typo ≠ key) →
     typo_correction key = Inherited <$> Object_prototype key).
Proof.
  unfold typo_correction.
  pose proof TYPO_CORRECTIONS_NoDup as Hkeys. revert Hkeys.
  generalize TYPO_CORRECTIONS. intros table Hkeys. split.
  - intros typo correction Hin Hkey.
    destruct (list_find _ table) as [[i [typo' correction']]|] eqn:Hfind.
    + apply list_find_Some in Hfind as (Hi & Hkey' & _). cbn [fst] in Hkey'.
      apply list_elem_of_lookup_1 in Hin as [j Hj].
      assert (Hij : i = j).
      { apply (NoDup_lookup _ i j key Hkeys).
        - rewrite list_lookup_fmap, Hi. by rewrite <- Hkey'.
        - rewrite list_lookup_fmap, Hj. by rewrite <- Hkey. }
      subst j. rewrite Hi in Hj. by injection Hj as -> ->.
    + apply list_find_None in Hfind. rewrite Forall_forall in Hfind.
      by destruct (Hfind _ Hin).
  - intros Hnone.
    destruct (list_find _ table) as [[i [typo' correction']]|] eqn:Hfind; [|done].
    apply list_find_Some in Hfind as (Hi & Hkey' & _). cbn [fst] in Hkey'.
    apply list_elem_of_lookup_2 in Hi. by destruct (Hnone _ _ Hi).
Qed.

(** X16.  [findSimilar].  A word whose lower-case form is a typo of the
    table gets the correction listed for it as its only suggestion.  A
    word whose lower-case form is no typo of the table but the name of a
    member that every object inherits ([constructor], [toString],
    [__proto__] and the like) gets that member, which is no string, as its
    only suggestion.  Any other word gets at most three suggestions: each
    is a candidate whose distance from the word, both in lower case, is at
    least [1] and at most the limit ([2] when none is given), so a
    candidate that differs from the word in case only is never suggested;
    they are listed nearest first; and a candidate within the limit is
    left out only when three suggestions are made and none of them is
    farther from the word than it is. *)
Theorem findSimilar_nearest
    (w : text) (candidates : list text) (maxDistance : option nat) :
  let limit := default 2 maxDistance in
  let key := toLowerCase w in
  (∀ typo correction,
     (typo, correction) ∈ TYPO_CORRECTIONS → ascii_text typo = key →
     findSimilar w candidates maxDistance = Some [Word (ascii_text correction)])
  ∧ ((∀ typo correction,
        (typo, correction) ∈ TYPO_CORRECTIONS → ascii_text typo ≠ key) →
     match Object_prototype key with
     | Some inherited =>
         findSimilar w candidates maxDistance = Some [Inherited inherited]
     | None =>
         ∃ words,
           findSimilar w candidates maxDistance = Some (map Word words)
           ∧ length words ≤ 3
           ∧ (∀ c, c ∈ words →
                   c ∈ candidates ∧ within w limit c
                   ∧ toLowerCase c ≠ toLowerCase w)
           ∧ StronglySorted
               (fun c c' => distance_from w c ≤ distance_from w c') words
           ∧ (∀ c, c ∈ candidates → within w limit c → c ∉ words →
                   length words = 3
                   ∧ ∀ c', c' ∈ words → distance_from w c' ≤ distance_from w c)
     end).
Proof.
  intros limit key.
  destruct (typo_correction_spec key) as [Hlisted Hother].
  split.
  { intros typo correction Hin Hkey. unfold findSimilar. fold key.
    by rewrite (Hlisted typo correction Hin Hkey). }
  intros Hnone. specialize (Hother Hnone).
  unfold findSimilar. fold limit. fold key. rewrite Hother.
  destruct (Object_prototype key) as [inherited|]; [done|].
  cbn [fmap option_fmap option_map]. subst key.
  rewrite collect_filter. cbn [app mbind option_bind].
  set (similar := map (entry_of w) (filter (within w limit) candidates)).
  set (sorted := sort_by_distance similar).
  assert (Hsimilar : ∀ e, e ∈ sorted ↔ ∃ c, e = entry_of w c ∧ c ∈ candidates ∧ within w limit c).
  { intros e. subst sorted. rewrite sort_by_distance_Permutation. subst similar.
    rewrite list_elem_of_fmap. split.
    - intros (c & -> & Hc). apply list_elem_of_filter in Hc as [Hin Hc]. by exists c.
    - intros (c & -> & Hc & Hin). exists c. split; [done|].
      by apply list_elem_of_filter. }
  assert (Hsorted : StronglySorted nearer (take 3 sorted ++ drop 3 sorted)).
  { rewrite take_drop. apply sort_by_distance_sorted. }
  assert (Htake : ∀ e, e ∈ take 3 sorted → e ∈ sorted).
  { intros e He. rewrite <- (take_drop 3 sorted). apply elem_of_app. by left. }
  exists (map word (take 3 sorted)).
  split; [by rewrite map_map|].
  split; [rewrite length_map, length_take; lia|].
  split; [|split].
  - intros c Hc. apply list_elem_of_fmap in Hc as (e & -> & He).
    apply Htake, Hsimilar in He as (c & -> & Hc & Hin). cbn [word entry_of].
    split; [done|]. split; [done|].
    intros Heq. unfold within, distance_from in Hin. rewrite Heq in Hin.
    rewrite levenshtein_same in Hin. cbn in Hin. lia.
  - apply StronglySorted_words; [|by apply StronglySorted_app_1_l in Hsorted].
    apply Forall_forall. intros e He.
    apply Htake, Hsimilar in He as (c & -> & _). done.
  - intros c Hc Hin Hout.
    assert (Hdrop : entry_of w c ∈ drop 3 sorted).
    { assert (He : entry_of w c ∈ sorted) by (apply Hsimilar; by exists c).
      rewrite <- (take_drop 3 sorted) in He.
      apply elem_of_app in He as [He | He]; [|done].
      exfalso. apply Hout. apply list_elem_of_fmap. by exists (entry_of w c). }
    split.
    + rewrite length_map, length_take.
      assert (length (drop 3 sorted) ≠ 0)
        by (intros ?%nil_length_inv; rewrite H in Hdrop; by apply elem_of_nil in Hdrop).
      rewrite length_drop in H. lia.
    + intros c' Hc'. apply list_elem_of_fmap in Hc' as (e & -> & He).
      pose proof (StronglySorted_app_1_elem_of _ _ _ _ _ Hsorted He Hdrop) as Hnear.
      apply Htake, Hsimilar in He as (c' & -> & _). done.
Qed.

End FindSimilar.

(** *** [getAllSamples] *)

Section Samples.

(** The built-in sample names, a constant of the server. *)
Variable DEFAULT_SAMPLE_NAMES : list text.

(** [Array.from(new Set(items))]: every value once, where it first
    occurs. *)
Definition unique (items : list text) : list text :=
  foldl (fun seen x => if decide (x ∈ seen) then seen else seen ++ [x]) [] items.

Definition getAllSamples (dynamicSamples : list text) : list text :=
  if 0 <? length dynamicSamples
  then unique (DEFAULT_SAMPLE_NAMES ++ dynamicSamples)
  else DEFAULT_SAMPLE_NAMES.

Lemma foldl_unique (seen items : list text) :
  NoDup seen →
  let all := foldl (fun seen x => if decide (x ∈ seen) then seen else seen ++ [x])
                   seen items in
  NoDup all ∧ seen `prefix_of` all ∧ ∀ x, x ∈ all ↔ x ∈ seen ∨ x ∈ items.
Proof.
  revert seen. induction items as [|y items IH]; intros seen Hseen; cbn [foldl].
  - split; [done|]. split; [done|]. intros x. rewrite elem_of_nil. tauto.
  - destruct (decide (y ∈ seen)) as [Hin | Hout].
    + destruct (IH seen Hseen) as (Hnd & Hpre & Hall).
      split; [done|]. split; [done|]. intros x. rewrite Hall, elem_of_cons.
      split; [tauto|]. intros [? | [-> | ?]]; tauto.
    + assert (Hseen' : NoDup (seen ++ [y])).
      { apply NoDup_app. split; [done|]. split; [|apply NoDup_singleton].
        by intros x Hx ->%list_elem_of_singleton. }
      destruct (IH (seen ++ [y]) Hseen') as (Hnd & Hpre & Hall).
      split; [done|]. split.
      * etrans; [|exact Hpre]. by apply prefix_app_r.
      * intros x. rewrite Hall, elem_of_app, list_elem_of_singleton, elem_of_cons. tauto.
Qed.

Lemma unique_NoDup (seen items : list text) :
  NoDup (seen ++ items) →
  foldl (fun seen x => if decide (x ∈ seen) then seen else seen ++ [x]) seen items
  = seen ++ items.
Proof.
  revert seen. induction items as [|y items IH]; intros seen Hnd; cbn [foldl].
  - by rewrite app_nil_r.
  - rewrite decide_False.
    + rewrite IH by (by rewrite <- (assoc_L (++))). by rewrite <- (assoc_L (++)).
    + apply NoDup_app in Hnd as (_ & Hdisjoint & _). intros Hin.
      apply (Hdisjoint y Hin). by left.
Qed.

(** X17.  [getAllSamples] always includes the built-in sample names: its
    result holds exactly the built-in names and the names the engine
    reported; once the engine has reported any, no name is listed twice;
    and when the built-in list has no duplicates, the result starts with
    that list as it is. *)
Theorem getAllSamples_keeps_defaults (dynamicSamples : list text) :
  (∀ name, name ∈ getAllSamples dynamicSamples
           ↔ name ∈ DEFAULT_SAMPLE_NAMES ∨ name ∈ dynamicSamples)
  ∧ (dynamicSamples ≠ [] → NoDup (getAllSamples dynamicSamples))
  ∧ (NoDup DEFAULT_SAMPLE_NAMES →
     DEFAULT_SAMPLE_NAMES `prefix_of` getAllSamples dynamicSamples).
Proof.
  unfold getAllSamples, unique.
  destruct (foldl_unique [] (DEFAULT_SAMPLE_NAMES ++ dynamicSamples) (NoDup_nil_2))
    as (Hnd & _ & Hall).
  destruct dynamicSamples as [|name0 dynamicSamples]; cbn [length Nat.ltb Nat.leb].
  - split; [|split]; [|done|done].
    intros name. rewrite elem_of_nil. tauto.
  - split; [|split].
    + intros name. rewrite Hall, elem_of_nil, elem_of_app. tauto.
    + done.
    + intros Hdefaults. rewrite foldl_app.
      rewrite (unique_NoDup [] DEFAULT_SAMPLE_NAMES) by done. cbn [app].
      by destruct (foldl_unique DEFAULT_SAMPLE_NAMES (name0 :: dynamicSamples) Hdefaults)
        as (_ & Hpre & _).
Qed.

End Samples.

(** *** Signature help *)

(** An entry of [STRUDEL_FUNCTIONS]: its name and, for every signature,
    the labels of the parameters. *)
Record FunctionSignature : Type := {
  func_name : text;
  signatures : list (list string)
}.

(** What [connection.onSignatureHelp] answers besides the signatures of
    [func] themselves. *)
Record SignatureHelp : Type := {
  func : FunctionSignature;
  activeSignature : nat;
  activeParameter : Z
}.

(** The loop [for (let i = 0; i < func.signatures.length; i++)] with its
    [break], entered at index [i]; [activeSignature] stays [0] when the
    loop ends without a match. *)
Fixpoint select_signature (sigs : list (list string)) (paramIndex i : nat) : nat :=
  match sigs with
  | [] => 0
  | sig :: rest =>
      if paramIndex <? length sig then i
      else select_signature rest paramIndex (S i)
  end.

(** [func.signatures[activeSignature]?.parameters.length - 1 || 0]:
    without a signature the difference is [NaN], and [NaN] and [0] give
    way to the [0] on the right. *)
Definition last_parameter (sigs : list (list string)) (active : nat) : Z :=
  match sigs !! active with
  | Some sig =>
      let n := (Z.of_nat (length sig) - 1)%Z in
      if (n =? 0)%Z then 0%Z else n
  | None => 0%Z
  end.

Section SignatureHelp.

Variable STRUDEL_FUNCTIONS : list FunctionSignature.

(** The handler, given the document of the request ([None] when it is not
    open) and [document.offsetAt(params.position)]. *)
Definition onSignatureHelp (document : option text) (offset : nat)
  : option SignatureHelp :=
  s ← document;
  funcContext ← findFunctionContext s offset;
  f ← List.find (fun f => bool_decide (func_name f = name funcContext))
                STRUDEL_FUNCTIONS;
  let active := select_signature (signatures f) (paramIndex funcContext) 0 in
  Some {| func := f;
          activeSignature := active;
          activeParameter :=
            Z.min (Z.of_nat (paramIndex funcContext))
                  (last_parameter (signatures f) active) |}.

End SignatureHelp.

Lemma select_signature_spec (sigs : list (list string)) (paramIndex i : nat) :
  (∃ k sig,
      sigs !! k = Some sig ∧ paramIndex < length sig
      ∧ (∀ j sig', j < k → sigs !! j = Some sig' → length sig' ≤ paramIndex)
      ∧ select_signature sigs paramIndex i = i + k)
  ∨ (Forall (fun sig => length sig ≤ paramIndex) sigs
     ∧ select_signature sigs paramIndex i = 0).
Proof.
  revert i. induction sigs as [|sig rest IH]; intros i; [by right|].
  cbn [select_signature]. destruct (Nat.ltb_spec paramIndex (length sig)) as [Hlt | Hge].
  - left. exists 0, sig. repeat split; [done | lia..].
  - destruct (IH (S i)) as [(k & sig' & Hk & Hlt & Hfirst & Hsel) | [Hall Hsel]].
    + left. exists (S k), sig'. repeat split; [done..| |lia].
      intros [|j] sig'' Hj; cbn; [by intros [= <-]|].
      apply Hfirst. lia.
    + right. split; [by constructor | done].
Qed.

(** X19.  The signature and the parameter put forward.  When the handler
    answers, the cursor is in the arguments of a call of the first entry of
    the table with the name before the parenthesis.  The active signature
    is the first one that has a parameter at the index of the cursor, and
    the active parameter is that index; when no signature has one, the
    first signature is active and the active parameter is its number of
    parameters less one, which is [-1] for a signature without parameters
    (and [0] for an entry without signatures). *)
Theorem onSignatureHelp_active
    (STRUDEL_FUNCTIONS : list FunctionSignature)
    (document : option text) (offset : nat) (help : SignatureHelp) :
  onSignatureHelp STRUDEL_FUNCTIONS document offset = Some help →
  ∃ s ctx before after,
    document = Some s
    ∧ findFunctionContext s offset = Some ctx
    ∧ STRUDEL_FUNCTIONS = before ++ func help :: after
    ∧ func_name (func help) = name ctx
    ∧ Forall (fun f => func_name f ≠ name ctx) before
    ∧ ((∃ sig,
          signatures (func help) !! activeSignature help = Some sig
          ∧ paramIndex ctx < length sig
          ∧ (∀ j sig', j < activeSignature help →
                       signatures (func help) !! j = Some sig' →
                       length sig' ≤ paramIndex ctx)
          ∧ activeParameter help = Z.of_nat (paramIndex ctx))
       ∨ (Forall (fun sig => length sig ≤ paramIndex ctx) (signatures (func help))
          ∧ activeSignature help = 0
          ∧ activeParameter help
            = match signatures (func help) with
              | sig :: _ => (Z.of_nat (length sig) - 1)%Z
              | [] => 0%Z
              end)).
Proof.
  unfold onSignatureHelp. intros Hhelp.
  destruct document as [s|]; [|done]. cbn [mbind option_bind] in Hhelp.
  destruct (findFunctionContext s offset) as [ctx|] eqn:Hctx; [|done].
  cbn [mbind option_bind] in Hhelp.
  destruct (List.find _ STRUDEL_FUNCTIONS) as [f|] eqn:Hfind; [|done].
  cbn [mbind option_bind] in Hhelp. injection Hhelp as <-.
  cbn [func activeSignature activeParameter].
  assert (Hsplit : ∃ before after,
             STRUDEL_FUNCTIONS = before ++ f :: after
             ∧ func_name f = name ctx
             ∧ Forall (fun f => func_name f ≠ name ctx) before).
  { clear Hctx. induction STRUDEL_FUNCTIONS as [|g table IH]; [done|].
    cbn [List.find] in Hfind. case_bool_decide as Hg.
    - injection Hfind as <-. exists [], table. by repeat split.
    - destruct (IH Hfind) as (before & after & -> & Hname & Hbefore).
      exists (g :: before), after. repeat split; [done|]. by constructor. }
  destruct Hsplit as (before & after & Htable & Hname & Hbefore).
  exists s, ctx, before, after. repeat split; [done..|].
  destruct (select_signature_spec (signatures f) (paramIndex ctx) 0)
    as [(k & sig & Hk & Hlt & Hfirst & Hsel) | [Hall Hsel]]; rewrite Hsel.
  - left. exists sig. cbn [Nat.add]. repeat split; [done..|].
    unfold last_parameter. rewrite Hk.
    destruct (Z.eqb_spec (Z.of_nat (length sig) - 1) 0); lia.
  - right. repeat split; [done|]. unfold last_parameter.
    destruct (signatures f) as [|sig rest]; cbn [lookup list_lookup]; [lia|].
    apply Forall_cons in Hall as [Hsig _].
    destruct (Z.eqb_spec (Z.of_nat (length sig) - 1) 0); lia.
Qed.

(** *** The helpers on concrete texts *)

(** [s("bd sd")], and the same line after a method call with two
    arguments typed so far. *)
Definition sound_line : text :=
  ascii_text ("s(" +:+ EngineState.quote +:+ "bd sd" +:+ EngineState.quote +:+ ")").

Definition note_line : text := ascii_text "s.note(c,e".

Example getCurrentWord_sample :
  getCurrentWord sound_line 4 = ascii_text "bd"
  ∧ getCurrentWord sound_line 5 = ascii_text "bd"
  ∧ getCurrentWord sound_line 6 = ascii_text "sd"
  ∧ getCurrentWord sound_line 2 = []
  ∧ getCurrentWord note_line 4 = ascii_text "note".
Proof. repeat split; reflexivity. Qed.

Example levenshtein_sample :
  levenshtein (ascii_text "kitten") (ascii_text "sitting") = Some 3
  ∧ levenshtein (ascii_text "bd") (ascii_text "db") = Some 2
  ∧ levenshtein [] (ascii_text "hh") = Some 2.
Proof. repeat split; vm_compute; reflexivity. Qed.

(** With a [toLowerCase] that leaves lower-case ASCII alone and nothing
    inherited under the names asked for: [db] is in the typo table, [bdd]
    is not. *)
Example findSimilar_sample :
  findSimilar (fun s => s) Empty_set (fun _ => None) (ascii_text "db")
              [ascii_text "bd"; ascii_text "sd"] None
  = Some [Word Empty_set (ascii_text "bd")]
  ∧ findSimilar (fun s => s) Empty_set (fun _ => None) (ascii_text "bdd")
                [ascii_text "hh"; ascii_text "sd"; ascii_text "bdd"; ascii_text "bd"] None
    = Some [Word Empty_set (ascii_text "bd"); Word Empty_set (ascii_text "sd")].
Proof. split; vm_compute; reflexivity. Qed.

(** [constructor] is no typo of the table, and every object inherits a
    member of that name: the member is the suggestion, whatever the
    candidates are. *)
Example findSimilar_inherited_sample :
  findSimilar (fun s => s) string
              (fun key => if decide (key = ascii_text "constructor")
                          then Some "Object" else None)
              (ascii_text "constructor")
              [ascii_text "construct"; ascii_text "bd"] None
  = Some [Inherited string "Object"].
Proof. vm_compute. reflexivity. Qed.

(** The theorem at the cursor after [bd] in [sound_line]. *)
Lemma findMiniNotationContext_sound_witness :
  let ctx := {| inMini := true; content := ascii_text "bd sd"; startOffset := 3 |} in
  inMini ctx = true
  ∧ 0 < startOffset ctx ≤ 5
  ∧ 5 ≤ startOffset ctx + length (content ctx)
  ∧ content ctx = take (length (content ctx)) (drop (startOffset ctx) sound_line)
  ∧ (∃ q, is_quote q = true
          ∧ sound_line !! (startOffset ctx - 1) = Some q
          ∧ sound_line !! (startOffset ctx + length (content ctx)) = Some q)
  ∧ (newline ∉ content ctx)
  ∧ semicolon ∉ take (5 - startOffset ctx) (content ctx).
Proof.
  intros ctx. apply (findMiniNotationContext_sound sound_line 5 ctx). reflexivity.
Defined.

(** The theorem at the same cursor, with the line given in its parts. *)
Lemma findMiniNotationContext_inside_quotes_witness :
  findMiniNotationContext
    (ascii_text "s(" ++ double_quote :: ascii_text "bd" ++ ascii_text " sd"
                ++ double_quote :: ascii_text ")")
    (length (ascii_text "s(") + 1 + length (ascii_text "bd"))
  = Some {| inMini := true; content := ascii_text "bd" ++ ascii_text " sd";
            startOffset := length (ascii_text "s(") + 1 |}.
Proof.
  apply (findMiniNotationContext_inside_quotes
           (ascii_text "s(") (ascii_text "bd") (ascii_text " sd") (ascii_text ")")
           double_quote).
  - reflexivity.
  - discriminate.
  - discriminate.
  - repeat constructor; discriminate.
  - repeat constructor; discriminate.
Defined.

(** The theorem at the end of [note_line]. *)
Lemma findFunctionContext_sound_witness :
  let ctx := {| name := ascii_text "note"; paramIndex := 1 |} in
  ∃ nameStart nameEnd,
    nameStart < nameEnd ∧ nameEnd < 10
    ∧ name ctx = slice nameStart nameEnd note_line
    ∧ length (name ctx) = nameEnd - nameStart
    ∧ Forall (fun c => is_word c = true) (name ctx)
    ∧ (∀ c, 0 < nameStart → note_line !! (nameStart - 1) = Some c → is_word c = false)
    ∧ note_line !! nameEnd = Some left_paren
    ∧ paramIndex ctx ≤ count_commas (slice (S nameEnd) 10 note_line)
    ∧ Forall (fun c => c ≠ newline ∧ c ≠ semicolon) (slice (S nameEnd) 10 note_line).
Proof.
  intros ctx. apply (findFunctionContext_sound note_line 10 ctx). reflexivity.
Defined.

Lemma findFunctionContext_flat_call_witness :
  findFunctionContext
    (ascii_text "s." ++ ascii_text "note" ++ left_paren :: ascii_text "c,e" ++ [])
    (length (ascii_text "s.") + length (ascii_text "note") + 1
     + length (ascii_text "c,e"))
  = Some {| name := ascii_text "note"; paramIndex := count_commas (ascii_text "c,e") |}.
Proof.
  apply (findFunctionContext_flat_call
           (ascii_text "s.") (ascii_text "note") (ascii_text "c,e") []).
  - discriminate.
  - repeat constructor.
  - intros c Hc. injection Hc as <-. reflexivity.
  - repeat constructor; discriminate.
Defined.

(** Framing on [linked], which the link reaches when the engine on port
    9000 is found at start-up and the socket connects: a read of bytes
    below [0x80], then a read that holds the two bytes of [é]. *)
Lemma framing_of_whole_characters_witness :
  run (fun _ => Throw SyntaxError)
      (reads 2 0 [ascii_bytes banks_head;
                  [xc3; xa9] ++ ascii_bytes banks_tail ++ [x0a]]) linked
  = step (fun _ => Throw SyntaxError) 2
         (Data 0 (concat [ascii_bytes banks_head;
                          [xc3; xa9] ++ ascii_bytes banks_tail ++ [x0a]])) linked.
Proof.
  apply (framing_of_whole_characters (fun _ => Throw SyntaxError)
           (Some (engine 9000%float)) true [(1, Connected 0)] 2 0
           {| remote_port := 9000%float; state := Open |}).
  - reflexivity.
  - reflexivity.
  - constructor; [right; repeat constructor|].
    constructor; [left; reflexivity|]. constructor.
Defined.

(** The entries [note] and [rev] of the table, and the request at the end
    of [note_line], after the comma. *)
Definition note_and_rev : list FunctionSignature :=
  [{| func_name := ascii_text "note"; signatures := [["pattern"]] |};
   {| func_name := ascii_text "rev"; signatures := [[]] |}].

Lemma onSignatureHelp_active_witness :
  ∃ s ctx before after,
    Some note_line = Some s
    ∧ findFunctionContext s 10 = Some ctx
    ∧ note_and_rev
      = before ++ {| func_name := ascii_text "note"; signatures := [["pattern"]] |}
               :: after
    ∧ ascii_text "note" = name ctx
    ∧ Forall (fun f => func_name f ≠ name ctx) before
    ∧ ((∃ sig,
          [["pattern"]] !! 0 = Some sig
          ∧ paramIndex ctx < length sig
          ∧ (∀ j sig', j < 0 → [["pattern"]] !! j = Some sig' →
                       length sig' ≤ paramIndex ctx)
          ∧ 0%Z = Z.of_nat (paramIndex ctx))
       ∨ (Forall (fun sig => length sig ≤ paramIndex ctx) [["pattern"]]
          ∧ 0 = 0
          ∧ 0%Z = (Z.of_nat (length ["pattern"]) - 1)%Z)).
Proof.
  apply (onSignatureHelp_active note_and_rev (Some note_line) 10
           {| func := {| func_name := ascii_text "note";
                         signatures := [["pattern"]] |};
              activeSignature := 0; activeParameter := 0 |}).
  reflexivity.
Defined.

End Lsp.
